(** * KUSS (WebAudioSurf): audio analysis and track generation

    A shallow embedding of [js/modules/audioProcessor.js] and
    [js/modules/trackGenerator.js], with the properties of the offline
    analysis pipeline, the feature extractors, the track path builder and
    the segment queries stated and proved over it.

    Numbers.  A JavaScript number is modelled as an exact value or [NaN]:
    rationals in the audio analysis (every operation there is rational), reals
    in the track generator (it needs [sin], [cos] and [sqrt]).  Rounding of
    IEEE doubles is not modelled; [NaN] is, because reading past the end of
    an array or dividing an empty sum by an empty count produces it. *)

From Stdlib Require Import ZArith QArith Qround Qminmax Qabs Reals Lra Lia List Bool.
From Stdlib Require Import Strings.Byte.
From Stdlib Require Strings.String.
Import ListNotations.

(** ** Counted loops *)

(** [for (let i = lo; i < hi; i++) s = body(i, s)], for bounds that the body
    does not change. *)
Fixpoint for_range {S : Type} (n : nat) (i : Z) (body : Z -> S -> S) (s : S) : S :=
  match n with
  | O => s
  | Datatypes.S n' => for_range n' (i + 1)%Z body (body i s)
  end.

Definition for_loop {S : Type} (lo hi : Z) (body : Z -> S -> S) (s : S) : S :=
  for_range (Z.to_nat (hi - lo)) lo body s.

(** ** Rational JavaScript numbers *)

Module JSNum.
Local Open Scope Q_scope.

(** [None] is [NaN]. *)
Definition num : Type := option Q.
Definition NaN : num := None.
Definition fin (q : Q) : num := Some q.

Definition lift2 (f : Q -> Q -> Q) (a b : num) : num :=
  match a, b with
  | Some x, Some y => Some (f x y)
  | _, _ => None
  end.

Definition nadd : num -> num -> num := lift2 Qplus.
Definition nsub : num -> num -> num := lift2 Qminus.
Definition nmul : num -> num -> num := lift2 Qmult.
Definition nabs (a : num) : num := option_map Qabs a.

(** [a / b].  A zero divisor yields [NaN]: every division of the analysis
    divides an accumulated sum by the number of its terms, so a zero divisor
    only ever meets a zero dividend, and [0 / 0] is [NaN]. *)
Definition ndiv (a b : num) : num :=
  match a, b with
  | Some x, Some y => if Qeq_bool y 0 then None else Some (x / y)
  | _, _ => None
  end.

(** [Math.min(a, b)]: [NaN] as soon as one argument is. *)
Definition nmin : num -> num -> num := lift2 Qmin.

(** [a > b]: false as soon as one side is [NaN]. *)
Definition ngt (a b : num) : bool :=
  match a, b with
  | Some x, Some y => negb (Qle_bool x y)
  | _, _ => false
  end.

(** Equality of numbers up to the representation of a fraction. *)
Definition num_eq (a b : num) : Prop :=
  match a, b with
  | Some x, Some y => x == y
  | None, None => True
  | _, _ => False
  end.

(** [lo <= a <= hi], which no [NaN] satisfies. *)
Definition in_range (lo hi : Q) (a : num) : Prop :=
  match a with
  | Some x => lo <= x /\ x <= hi
  | None => False
  end.

(** [Math.floor] and [Math.round] (halves round up). *)
Definition floor (q : Q) : Z := Qfloor q.
Definition round (q : Q) : Z := Qfloor (q + (1 # 2)).

End JSNum.

(** ** Typed arrays *)

Definition Uint8Array : Type := list byte.

Definition u8 (b : byte) : Z := Z.of_N (Byte.to_N b).

(** [a[i]] as a number: [undefined] outside the array, which arithmetic turns
    into [NaN]. *)
Definition get (a : Uint8Array) (i : Z) : JSNum.num :=
  if (i <? 0)%Z then JSNum.NaN
  else match nth_error a (Z.to_nat i) with
       | Some b => JSNum.fin (inject_Z (u8 b))
       | None => JSNum.NaN
       end.

(** ** config.js *)

Module CONFIG.
Local Open Scope Q_scope.

Record Band : Type := { min : Q; max : Q }.

Definition frequencyBands : list Band :=
  [ {| min := 20; max := 60 |};
    {| min := 60; max := 250 |};
    {| min := 250; max := 500 |};
    {| min := 500; max := 2000 |};
    {| min := 2000; max := 6000 |};
    {| min := 6000; max := 20000 |} ].

Definition fftSize : Z := 2048.
Definition laneCount : Z := 3.
Definition segmentLength : Q := 50.
Definition segmentWidth : Q := 30.
Definition visibleSegments : Z := 30.
Definition curveIntensity : Q := 8 # 10.
Definition hilliness : Q := 6 # 10.

Definition blockColors : list Z :=
  [ 0xff0000; 0x00ff00; 0x0000ff; 0xffff00; 0xff00ff; 0x00ffff ]%Z.

End CONFIG.

(** ** audioProcessor.js *)

(** The messages of the errors the module raises. *)
Module Messages.
Import String.
Definition noAudioBuffer : string := "No audio buffer available for analysis"%string.
End Messages.

Module AudioProcessor.
Import JSNum.
Local Open Scope Q_scope.

Record AudioBuffer : Type := {
  duration : Q;
  bufferSampleRate : Q;
  numberOfChannels : Z;
  bufferLength : Z
}.

(** One element of [analysisResults]. *)
Record AnalysisFrame : Type := {
  time : Q;
  frequencyData : Uint8Array;
  timeData : Uint8Array;
  bandEnergies : list num;
  beatIntensity : num;
  isBlock : bool;
  blockColor : Z
}.

(** The fields of the processor that the analysis reads or writes;
    [sampleRate] is [this.audioContext.sampleRate].  The progress and
    completion callbacks only observe the run and are left out. *)
Record Processor : Type := {
  sampleRate : Q;
  audioBuffer : option AudioBuffer;
  analysisResults : list AnalysisFrame;
  analysisDone : bool
}.

Definition set_analysisResults (this : Processor) (r : list AnalysisFrame) : Processor :=
  {| sampleRate := sampleRate this; audioBuffer := audioBuffer this;
     analysisResults := r; analysisDone := analysisDone this |}.

Definition set_analysisDone (this : Processor) (b : bool) : Processor :=
  {| sampleRate := sampleRate this; audioBuffer := audioBuffer this;
     analysisResults := analysisResults this; analysisDone := b |}.

Definition array_length (a : Uint8Array) : Q := inject_Z (Z.of_nat (length a)).

(** The body of the [for (const band of bands)] loop of
    [calculateBandEnergies]. *)
Definition bandEnergy (rate : Q) (frequencyData : Uint8Array) (band : CONFIG.Band) : num :=
  let nyquist := rate / 2 in
  let minIndex := floor (CONFIG.min band / nyquist * array_length frequencyData) in
  let maxIndex := floor (CONFIG.max band / nyquist * array_length frequencyData) in
  let energy :=
    for_loop minIndex (maxIndex + 1)
      (fun i energy => nadd energy (ndiv (get frequencyData i) (fin 255)))
      (fin 0) in
  ndiv energy (fin (inject_Z (maxIndex - minIndex + 1))).

Definition calculateBandEnergiesOver (bands : list CONFIG.Band) (rate : Q)
    (frequencyData : Uint8Array) : list num :=
  map (bandEnergy rate frequencyData) bands.

Definition calculateBandEnergies (this : Processor) (frequencyData : Uint8Array) : list num :=
  calculateBandEnergiesOver CONFIG.frequencyBands (sampleRate this) frequencyData.

Definition detectBeatAt (rate : Q) (frequencyData timeData : Uint8Array) : num :=
  let nyquist := rate / 2 in
  let lowFreqMax := 150 in
  let maxIndex := floor (lowFreqMax / nyquist * array_length frequencyData) in
  let energy :=
    for_loop 0 maxIndex (fun i energy => nadd energy (get frequencyData i)) (fin 0) in
  let energy := ndiv energy (fin (inject_Z maxIndex * 255)) in
  let transientEnergy :=
    for_loop 1 (Z.of_nat (length timeData))
      (fun i t => nadd t (nabs (nsub (get timeData i) (get timeData (i - 1)))))
      (fin 0) in
  let transientEnergy := ndiv transientEnergy (fin (255 * array_length timeData)) in
  nmin (fin 1) (nadd (nmul energy (fin (7 # 10))) (nmul transientEnergy (fin (3 # 10)))).

Definition detectBeat (this : Processor) (frequencyData timeData : Uint8Array) : num :=
  detectBeatAt (sampleRate this) frequencyData timeData.

(** [determineBlockColor]: the loop keeps [(maxEnergyIndex, maxEnergy)]. *)
Fixpoint maxEnergyScan (i : Z) (bandEnergies : list num) (best : Z * num) : Z * num :=
  match bandEnergies with
  | [] => best
  | e :: rest =>
      maxEnergyScan (i + 1)%Z rest (if ngt e (snd best) then (i, e) else best)
  end.

Definition determineBlockColor (bandEnergies : list num) : Z :=
  (fst (maxEnergyScan 0 bandEnergies (0%Z, fin 0))
   mod Z.of_nat (length CONFIG.blockColors))%Z.

(** What becomes of the promise returned by [analyzeAudio]: it is resolved,
    rejected, or left pending for good. *)
Inductive Promise : Type :=
| Resolved (frames : list AnalysisFrame)
| Rejected (message : String.string)
| Pending.

Definition noAudioBuffer : String.string := Messages.noAudioBuffer.

Section Analysis.

(** The offline context that renders the buffer, as [processChunk] meets
    it.  [suspend t] is what [await offlineContext.suspend(t)] comes back
    with: the byte frequency and time-domain data that the analyser hands out
    once rendering is suspended at [t]; or nothing, when the promise of
    [suspend] is rejected or never resolved.  The Web Audio API rejects it
    for a time at or past the end of rendering, for a time already rendered,
    and for a render quantum already taken by another suspension.  The
    [await] then throws inside [processChunk]; nothing catches it, no frame
    is pushed, no further call is made, and rendering runs to its end, which
    only logs: the promise of [analyzeAudio] is left pending.  [resume],
    called on a context just suspended, is taken to be honoured. *)
Variable suspend : Q -> option (Uint8Array * Uint8Array).

(** [processChunk(currentTime)], with [currentPoint] made a parameter.  Each
    call handles one analysis point and calls itself for the next; [fuel]
    bounds the number of calls, and [None] means it ran out. *)
Fixpoint processChunk (fuel : nat) (totalPoints : Z) (interval totalDuration : Q)
    (this : Processor) (currentPoint : Z) (currentTime : Q)
    : option (Promise * Processor) :=
  match fuel with
  | O => None
  | Datatypes.S fuel' =>
      if (currentPoint >=? totalPoints)%Z then
        let this := set_analysisDone this true in
        Some (Resolved (analysisResults this), this)
      else
        let nextTime := Qmin (currentTime + interval) totalDuration in
        match suspend nextTime with
        | None => Some (Pending, this)
        | Some (frequencyData, timeData) =>
            let bandEnergies := calculateBandEnergies this frequencyData in
            let beatIntensity := detectBeat this frequencyData timeData in
            let frame :=
              {| time := currentTime;
                 frequencyData := frequencyData;
                 timeData := timeData;
                 bandEnergies := bandEnergies;
                 beatIntensity := beatIntensity;
                 isBlock := ngt beatIntensity (fin (6 # 10));
                 blockColor := determineBlockColor bandEnergies |} in
            let this := set_analysisResults this (analysisResults this ++ [frame]) in
            processChunk fuel' totalPoints interval totalDuration this
              (currentPoint + 1)%Z nextTime
        end
  end.

(** [analyzeAudio(resolution)].  [1 / resolution] is only used when
    [totalPoints] is positive, hence when [resolution] is not zero. *)
Definition analyzeAudio (fuel : nat) (this : Processor) (resolution : Q)
    : option (Promise * Processor) :=
  match audioBuffer this with
  | None => Some (Rejected noAudioBuffer, this)
  | Some buffer =>
      let totalDuration := duration buffer in
      let totalPoints := floor (totalDuration * resolution) in
      let interval := 1 / resolution in
      let this := set_analysisResults this [] in
      processChunk fuel totalPoints interval totalDuration this 0%Z 0
  end.

End Analysis.

(** The fields that playback reads or writes: the decoded buffer, whether a
    source node exists, and the [isPlaying], [startTime] and [currentTime]
    of [audioData]. *)
Record Transport : Type := {
  loadedBuffer : option AudioBuffer;
  audioSource : bool;
  isPlaying : bool;
  startTime : Q;
  currentTime : Q
}.

(** In the methods below [now] is [this.audioContext.currentTime], the clock
    of the audio context at the call. *)
Definition getCurrentTime (now : Q) (this : Transport) : Q :=
  if negb (isPlaying this) then currentTime this
  else now - startTime this.

Definition play (now : Q) (this : Transport) : Transport :=
  match loadedBuffer this with
  | None => this
  | Some _ =>
      if isPlaying this then this
      else {| loadedBuffer := loadedBuffer this; audioSource := true;
              isPlaying := true; startTime := now;
              currentTime := currentTime this |}
  end.

Definition pause (now : Q) (this : Transport) : Transport :=
  if negb (isPlaying this) || negb (audioSource this) then this
  else
    let this :=
      {| loadedBuffer := loadedBuffer this; audioSource := audioSource this;
         isPlaying := false; startTime := startTime this;
         currentTime := currentTime this |} in
    {| loadedBuffer := loadedBuffer this; audioSource := audioSource this;
       isPlaying := isPlaying this; startTime := startTime this;
       currentTime := getCurrentTime now this |}.

Definition resume (now : Q) (this : Transport) : Transport :=
  if isPlaying this then this
  else {| loadedBuffer := loadedBuffer this; audioSource := true;
          isPlaying := true; startTime := now - currentTime this;
          currentTime := currentTime this |}.

Definition stop (this : Transport) : Transport :=
  if negb (isPlaying this) || negb (audioSource this) then this
  else {| loadedBuffer := loadedBuffer this; audioSource := audioSource this;
          isPlaying := false; startTime := startTime this;
          currentTime := 0 |}.

End AudioProcessor.

(** ** Real JavaScript numbers *)

Module RNum.
Local Open Scope R_scope.

(** [None] is [NaN].  It also stands for the infinity that dividing a
    non-zero number by zero gives; the generator has one such quotient, the
    lane width when there are no lanes, and what it computes from it is
    neither compared nor normalized, so it stays not finite, as [None]
    does. *)
Definition num : Type := option R.
Definition NaN : num := None.
Definition fin (r : R) : num := Some r.

Definition lift2 (f : R -> R -> R) (a b : num) : num :=
  match a, b with
  | Some u, Some v => Some (f u v)
  | _, _ => None
  end.

Definition nadd : num -> num -> num := lift2 Rplus.
Definition nsub : num -> num -> num := lift2 Rminus.
Definition nmul : num -> num -> num := lift2 Rmult.
Definition nsin (a : num) : num := option_map sin a.
Definition ncos (a : num) : num := option_map cos a.

Definition ndiv (a b : num) : num :=
  match a, b with
  | Some u, Some v => if Req_dec_T v 0 then None else Some (u / v)
  | _, _ => None
  end.

Definition nsqrt (a : num) : num :=
  match a with
  | Some u => if Rlt_dec u 0 then None else Some (sqrt u)
  | None => None
  end.

Definition ngt (a b : num) : bool :=
  match a, b with
  | Some u, Some v => if Rgt_dec u v then true else false
  | _, _ => false
  end.

Definition nlt (a b : num) : bool := ngt b a.

Definition nge (a b : num) : bool :=
  match a, b with
  | Some u, Some v => if Rge_dec u v then true else false
  | _, _ => false
  end.

(** [Math.floor], an integer unless the argument is not finite. *)
Definition nfloor (a : num) : option Z := option_map Int_part a.

(** [a || 1]: zero and [NaN] are falsy. *)
Definition orOne (a : num) : num :=
  match a with
  | Some u => if Req_dec_T u 0 then fin 1 else a
  | None => fin 1
  end.

(** The array index a number denotes, if it is a non-negative integer. *)
Definition arrayIndex (a : num) : option nat :=
  match a with
  | Some u =>
      if Req_dec_T u (IZR (Int_part u))
      then if (Int_part u <? 0)%Z then None else Some (Z.to_nat (Int_part u))
      else None
  | None => None
  end.

Definition ofQ (a : JSNum.num) : num := option_map Q2R a.

End RNum.

(** ** The part of three.js the track generator uses *)

Module THREE.
Import RNum.

Record Vector3 : Type := { x : num; y : num; z : num }.

Definition vec (a b c : R) : Vector3 := {| x := fin a; y := fin b; z := fin c |}.

Definition subVectors (a b : Vector3) : Vector3 :=
  {| x := nsub (x a) (x b); y := nsub (y a) (y b); z := nsub (z a) (z b) |}.

Definition add (a b : Vector3) : Vector3 :=
  {| x := nadd (x a) (x b); y := nadd (y a) (y b); z := nadd (z a) (z b) |}.

Definition multiplyScalar (v : Vector3) (s : num) : Vector3 :=
  {| x := nmul (x v) s; y := nmul (y v) s; z := nmul (z v) s |}.

Definition divideScalar (v : Vector3) (s : num) : Vector3 :=
  multiplyScalar v (ndiv (fin 1) s).

Definition length (v : Vector3) : num :=
  nsqrt (nadd (nadd (nmul (x v) (x v)) (nmul (y v) (y v))) (nmul (z v) (z v))).

Definition normalize (v : Vector3) : Vector3 := divideScalar v (orOne (length v)).

Definition cross (a b : Vector3) : Vector3 :=
  {| x := nsub (nmul (y a) (z b)) (nmul (z a) (y b));
     y := nsub (nmul (z a) (x b)) (nmul (x a) (z b));
     z := nsub (nmul (x a) (y b)) (nmul (y a) (x b)) |}.

End THREE.

(** ** trackGenerator.js *)

Module TrackGenerator.
Import RNum THREE.
Local Open Scope R_scope.

(** An element of [analysisResults] as the generator reads it.  [timeData]
    is optional: the generator tests it before use. *)
Record Analysis : Type := {
  beatIntensity : num;
  bandEnergies : list num;
  timeData : option Uint8Array;
  isBlock : bool;
  blockColor : Z
}.

Definition ofFrame (f : AudioProcessor.AnalysisFrame) : Analysis :=
  {| beatIntensity := ofQ (AudioProcessor.beatIntensity f);
     bandEnergies := map ofQ (AudioProcessor.bandEnergies f);
     timeData := Some (AudioProcessor.timeData f);
     isBlock := AudioProcessor.isBlock f;
     blockColor := AudioProcessor.blockColor f |}.

Record PathPoint : Type := {
  position : Vector3;
  rotation : num;
  tilt : num
}.

Record Segment : Type := {
  startPathIndex : Z;
  endPathIndex : Z;
  audioIndex : Z;
  segmentBeatIntensity : num;
  segmentBandEnergies : list num
}.

(** The only field of a block's mesh that the generator writes. *)
Record Mesh : Type := { meshVisible : bool }.

Record Block : Type := {
  mesh : option Mesh;
  laneIndex : Z;
  segmentIndex : Z;
  color : Z;
  collected : bool;
  visible : bool
}.

Record TrackGenerator : Type := {
  lanes : R;
  segmentLength : R;
  trackWidth : R;
  visibleSegments : Z;
  curveIntensity : R;
  hilliness : R;
  trackPath : list PathPoint;
  trackSegments : list Segment;
  blocks : list Block
}.

(** The constructor. *)
Definition create : TrackGenerator :=
  {| lanes := IZR CONFIG.laneCount;
     segmentLength := Q2R CONFIG.segmentLength;
     trackWidth := Q2R CONFIG.segmentWidth;
     visibleSegments := CONFIG.visibleSegments;
     curveIntensity := Q2R CONFIG.curveIntensity;
     hilliness := Q2R CONFIG.hilliness;
     trackPath := [];
     trackSegments := [];
     blocks := [] |}.

Definition set_track (this : TrackGenerator) (path : list PathPoint)
    (segments : list Segment) : TrackGenerator :=
  {| lanes := lanes this; segmentLength := segmentLength this;
     trackWidth := trackWidth this; visibleSegments := visibleSegments this;
     curveIntensity := curveIntensity this; hilliness := hilliness this;
     trackPath := path; trackSegments := segments; blocks := blocks this |}.

Definition set_blocks (this : TrackGenerator) (bs : list Block) : TrackGenerator :=
  {| lanes := lanes this; segmentLength := segmentLength this;
     trackWidth := trackWidth this; visibleSegments := visibleSegments this;
     curveIntensity := curveIntensity this; hilliness := hilliness this;
     trackPath := trackPath this; trackSegments := trackSegments this; blocks := bs |}.

(** [a[k]] on an array of numbers: [undefined] acts as [NaN]. *)
Definition at_index (a : list num) (k : nat) : num :=
  match nth_error a k with
  | Some v => v
  | None => NaN
  end.

Definition pointsPerSegment : Z := 4.

(** The point pushed by the [i]-th round of the lead-in loop. *)
Definition leadInPoint (this : TrackGenerator) (i : Z) : PathPoint :=
  {| position := vec 0 0 (- IZR i * segmentLength this / IZR pointsPerSegment);
     rotation := fin 0;
     tilt := fin 0 |}.

Definition leadIn (this : TrackGenerator) : list PathPoint :=
  for_loop 0 10 (fun i path => path ++ [leadInPoint this i]) [].

(** The variables of [generateTrackPath] that live across the rounds of its
    main loop. *)
Record PathState : Type := {
  path : list PathPoint;
  segments : list Segment;
  currentDirection : num;
  currentTilt : num;
  targetDirection : num;
  targetTilt : num;
  currentElevation : num;
  targetElevation : num
}.

Definition originPoint : PathPoint :=
  {| position := vec 0 0 0; rotation := fin 0; tilt := fin 0 |}.

(** The sum of [Math.abs(timeData[j] - 128)] over the whole array. *)
Definition amplitudeSum (data : Uint8Array) : Z :=
  fold_left (fun sum b => (sum + Z.abs (u8 b - 128))%Z) data 0%Z.

Definition elevationTarget (this : TrackGenerator) (data : Uint8Array) : num :=
  let avgAmplitude :=
    ndiv (fin (IZR (amplitudeSum data))) (fin (INR (List.length data))) in
  nsub (nmul (nmul (ndiv avgAmplitude (fin 128)) (fin (hilliness this))) (fin 10))
       (fin 5).

(** One round of the main loop, for the frame [analysis] at index [i].  The
    path is never empty here (the lead-in comes first), so the default of
    [last] is not reached. *)
Definition pathStep (this : TrackGenerator) (i : Z) (analysis : Analysis)
    (s : PathState) : PathState :=
  let targetDirection :=
    if ngt (beatIntensity analysis) (fin (7 / 10)) then
      let directionInfluence :=
        nsub (at_index (bandEnergies analysis) 1) (at_index (bandEnergies analysis) 4) in
      nmul (nmul directionInfluence (fin (curveIntensity this))) (fin (5 / 10))
    else nmul (targetDirection s) (fin (95 / 100)) in
  let targetTilt :=
    if ngt (at_index (bandEnergies analysis) 2) (fin (7 / 10))
       || ngt (at_index (bandEnergies analysis) 3) (fin (7 / 10))
    then nmul (nsub (at_index (bandEnergies analysis) 2)
                    (at_index (bandEnergies analysis) 3))
              (fin (hilliness this))
    else nmul (targetTilt s) (fin (95 / 100)) in
  let targetElevation :=
    match timeData analysis with
    | Some data => elevationTarget this data
    | None => targetElevation s
    end in
  let currentDirection :=
    nadd (nmul (currentDirection s) (fin (9 / 10))) (nmul targetDirection (fin (1 / 10))) in
  let currentTilt :=
    nadd (nmul (currentTilt s) (fin (9 / 10))) (nmul targetTilt (fin (1 / 10))) in
  let currentElevation :=
    nadd (nmul (currentElevation s) (fin (95 / 100)))
         (nmul targetElevation (fin (5 / 100))) in
  let lastPoint := last (path s) originPoint in
  let newDirection := nadd (rotation lastPoint) currentDirection in
  let step (c : num) :=
    ndiv (nmul c (fin (segmentLength this))) (fin (IZR pointsPerSegment)) in
  let newX := nadd (x (position lastPoint)) (step (nsin newDirection)) in
  let newZ := nsub (z (position lastPoint)) (step (ncos newDirection)) in
  let newY := nadd (y (position lastPoint)) currentElevation in
  let path' :=
    path s ++ [ {| position := {| x := newX; y := newY; z := newZ |};
                   rotation := newDirection;
                   tilt := currentTilt |} ] in
  let segments' :=
    if (i mod pointsPerSegment =? 0)%Z then
      segments s ++
        [ {| startPathIndex := Z.of_nat (List.length path') - pointsPerSegment;
             endPathIndex := Z.of_nat (List.length path') - 1;
             audioIndex := i;
             segmentBeatIntensity := beatIntensity analysis;
             segmentBandEnergies := bandEnergies analysis |} ]
    else segments s in
  {| path := path'; segments := segments';
     currentDirection := currentDirection; currentTilt := currentTilt;
     targetDirection := targetDirection; targetTilt := targetTilt;
     currentElevation := currentElevation; targetElevation := targetElevation |}.

Fixpoint pathLoop (this : TrackGenerator) (i : Z) (analysisResults : list Analysis)
    (s : PathState) : PathState :=
  match analysisResults with
  | [] => s
  | analysis :: rest => pathLoop this (i + 1)%Z rest (pathStep this i analysis s)
  end.

Definition initialState (this : TrackGenerator) : PathState :=
  {| path := leadIn this; segments := [];
     currentDirection := fin 0; currentTilt := fin 0;
     targetDirection := fin 0; targetTilt := fin 0;
     currentElevation := fin 0; targetElevation := fin 0 |}.

Definition generateTrackPath (this : TrackGenerator) (analysisResults : list Analysis)
    : TrackGenerator :=
  let s := pathLoop this 0 analysisResults (initialState this) in
  set_track this (path s) (segments s).

(** What a call does: return a value, or throw a [TypeError] on reading a
    property of [undefined]. *)
Inductive Completion (A : Type) : Type :=
| Return (a : A)
| Throw.
Arguments Return {A} a.
Arguments Throw {A}.

Definition element {A : Type} (a : list A) (i : option nat) : option A :=
  match i with
  | Some k => nth_error a k
  | None => None
  end.

Definition indexOfZ (i : option Z) : option nat :=
  match i with
  | Some k => if (k <? 0)%Z then None else Some (Z.to_nat k)
  | None => None
  end.

Definition outOfRange (this : TrackGenerator) (segmentIndex : num) : bool :=
  nlt segmentIndex (fin 0)
  || nge segmentIndex (fin (INR (List.length (trackSegments this)))).

(** [segment.startPathIndex + Math.floor(offset * (segment.endPathIndex -
    segment.startPathIndex))] *)
Definition pointIndexOf (segment : Segment) (offset : num) : option Z :=
  option_map (fun k => (startPathIndex segment + k)%Z)
    (nfloor (nmul offset (fin (IZR (endPathIndex segment - startPathIndex segment))))).

Definition hasNext (this : TrackGenerator) (pointIndex : option Z) : bool :=
  match pointIndex with
  | Some k => (k + 1 <? Z.of_nat (List.length (trackPath this)))%Z
  | None => false
  end.

Definition getPositionOnTrack (this : TrackGenerator) (segmentIndex laneIndex offset : num)
    : Completion Vector3 :=
  if outOfRange this segmentIndex then Return (vec 0 0 0)
  else
    match element (trackSegments this) (arrayIndex segmentIndex) with
    | None => Throw
    | Some segment =>
        let pointIndex := pointIndexOf segment offset in
        match element (trackPath this) (indexOfZ pointIndex) with
        | None => Throw
        | Some point =>
            let laneWidth := ndiv (fin (trackWidth this)) (fin (lanes this)) in
            let laneOffset :=
              nadd (ndiv (fin (- trackWidth this)) (fin 2))
                   (nmul (nadd laneIndex (fin (5 / 10))) laneWidth) in
            let forward :=
              if hasNext this pointIndex then
                match element (trackPath this)
                        (indexOfZ (option_map (fun k => (k + 1)%Z) pointIndex)) with
                | Some nextPoint =>
                    Return (normalize (subVectors (position nextPoint) (position point)))
                | None => Throw
                end
              else Return (vec 0 0 (-1)) in
            match forward with
            | Throw => Throw
            | Return forward =>
                let right := normalize (cross (vec 0 1 0) forward) in
                Return (add (add (position point) (multiplyScalar right laneOffset))
                            (vec 0 (5 / 10) 0))
            end
        end
    end.

Definition getDirectionAtSegment (this : TrackGenerator) (segmentIndex offset : num)
    : Completion Vector3 :=
  if outOfRange this segmentIndex then Return (vec 0 0 (-1))
  else
    match element (trackSegments this) (arrayIndex segmentIndex) with
    | None => Throw
    | Some segment =>
        let pointIndex := pointIndexOf segment offset in
        match pointIndex with
        | Some k =>
            if (k + 1 >=? Z.of_nat (List.length (trackPath this)))%Z
            then Return (vec 0 0 (-1))
            else
              match element (trackPath this) (indexOfZ pointIndex),
                    element (trackPath this) (indexOfZ (Some (k + 1)%Z)) with
              | Some point, Some nextPoint =>
                  Return (normalize (subVectors (position nextPoint) (position point)))
              | _, _ => Throw
              end
        | None => Throw
        end
    end.

(** What [checkBlockCollision] returns on a hit. *)
Record Collision : Type := {
  index : Z;
  collisionColor : Z;
  collisionSegmentIndex : Z
}.

Definition hide (m : option Mesh) : option Mesh :=
  match m with
  | Some _ => Some {| meshVisible := false |}
  | None => None
  end.

Definition collect (block : Block) : Block :=
  {| mesh := hide (mesh block);
     laneIndex := laneIndex block;
     segmentIndex := segmentIndex block;
     color := color block;
     collected := true;
     visible := visible block |}.

Definition inReach (block : Block) (playerSegment playerLane : Z) : bool :=
  (Z.abs (segmentIndex block - playerSegment) <=? 1)%Z
  && (laneIndex block =? playerLane)%Z.

(** The loop of [checkBlockCollision] from index [i] on, over the blocks from
    that index; it returns the blocks as the loop leaves them. *)
Fixpoint collisionScan (i : Z) (rest : list Block) (playerSegment playerLane : Z)
    : option Collision * list Block :=
  match rest with
  | [] => (None, [])
  | block :: rest' =>
      if collected block then
        let (r, rest'') := collisionScan (i + 1)%Z rest' playerSegment playerLane in
        (r, block :: rest'')
      else if inReach block playerSegment playerLane then
        (Some {| index := i; collisionColor := color block;
                 collisionSegmentIndex := segmentIndex block |},
         collect block :: rest')
      else
        let (r, rest'') := collisionScan (i + 1)%Z rest' playerSegment playerLane in
        (r, block :: rest'')
  end.

Definition checkBlockCollision (this : TrackGenerator) (playerSegment playerLane : Z)
    : option Collision * TrackGenerator :=
  let (r, bs) := collisionScan 0 (blocks this) playerSegment playerLane in
  (r, set_blocks this bs).

Definition getTrackLength (this : TrackGenerator) : Z :=
  Z.of_nat (List.length (trackSegments this)).

(** One round of the loop of [updateTrack]: the block as the round leaves it. *)
Definition showOrHide (this : TrackGenerator) (playerSegment : Z) (block : Block) : Block :=
  let farSegment := (playerSegment + visibleSegments this)%Z in
  if (segmentIndex block >=? playerSegment - 5)%Z && (segmentIndex block <=? farSegment)%Z
  then
    match mesh block with
    | Some _ =>
        if negb (visible block) then
          {| mesh := Some {| meshVisible := true |};
             laneIndex := laneIndex block; segmentIndex := segmentIndex block;
             color := color block; collected := collected block; visible := true |}
        else block
    | None => block
    end
  else
    match mesh block with
    | Some _ =>
        if visible block then
          {| mesh := Some {| meshVisible := false |};
             laneIndex := laneIndex block; segmentIndex := segmentIndex block;
             color := color block; collected := collected block; visible := false |}
        else block
    | None => block
    end.

Definition updateTrack (this : TrackGenerator) (playerSegment : Z) : TrackGenerator :=
  set_blocks this (map (showOrHide this playerSegment) (blocks this)).

(** [clearTrack], for the arrays it resets; the meshes it disposes of belong
    to the scene. *)
Definition clearTrack (this : TrackGenerator) : TrackGenerator :=
  set_track (set_blocks this []) [] [].
(** [a <= b]: false as soon as one side is not a number. *)
Definition nle (a b : num) : bool :=
  match a, b with
  | Some u, Some v => if Rle_dec u v then true else false
  | _, _ => false
  end.

(** [this.lanes] as the whole number it holds: the constructor copies it from
    [CONFIG.game.laneCount] and nothing writes it afterwards. *)
Definition laneCount (this : TrackGenerator) : Z := Int_part (lanes this).

(** The loop of [determineLane] from band [i] on: the lane it returns, or
    nothing when it runs to the end of the bands. *)
Fixpoint laneScan (this : TrackGenerator) (i : Z) (rest : list num)
    (cumulativeEnergy randomValue : num) : option Z :=
  match rest with
  | [] => None
  | energy :: rest' =>
      let cumulativeEnergy := nadd cumulativeEnergy energy in
      if nle randomValue cumulativeEnergy then Some (Z.rem i (laneCount this))
      else laneScan this (i + 1)%Z rest' cumulativeEnergy randomValue
  end.

(** [determineLane].  [random] lists the values that [Math.random] returns,
    in the order of the calls, and [draws] counts the calls made so far; the
    new count comes back with the lane. *)
Definition determineLane (this : TrackGenerator) (bandEnergies : list num)
    (random : nat -> R) (draws : nat) : Z * nat :=
  let totalEnergy := fold_left nadd bandEnergies (fin 0) in
  let randomValue := nmul (fin (random draws)) totalEnergy in
  match laneScan this 0 bandEnergies (fin 0) randomValue with
  | Some lane => (lane, S draws)
  | None => (Int_part (random (S draws) * lanes this), S (S draws))
  end.

(** [CONFIG.visuals.blockColors[colorIndex]]; [-1], which is no colour of
    the palette, stands for [undefined]. *)
Definition paletteColor (colorIndex : Z) : Z :=
  if (colorIndex <? 0)%Z then (-1)%Z
  else match nth_error CONFIG.blockColors (Z.to_nat colorIndex) with
       | Some c => c
       | None => (-1)%Z
       end.

(** The box that [createBlock] builds and adds to the scene. *)
Record Box : Type := {
  boxPosition : Vector3;
  boxWidth : num;
  boxHeight : num;
  boxDepth : num;
  boxColor : Z
}.

(** [createBlock]: the box and the entry pushed on [this.blocks]. *)
Definition createBlock (this : TrackGenerator) (position : Vector3) (laneIndex color : Z)
    (segmentIndex : Z) (intensity : num) : Box * Block :=
  let laneWidth := ndiv (fin (trackWidth this)) (fin (lanes this)) in
  let blockWidth := nmul laneWidth (fin (8 / 10)) in
  let blockHeight := nmul (fin (15 / 10)) intensity in
  let blockDepth := nmul (fin (segmentLength this)) (fin (3 / 10)) in
  ({| boxPosition := position; boxWidth := blockWidth; boxHeight := blockHeight;
      boxDepth := blockDepth; boxColor := color |},
   {| mesh := Some {| meshVisible := true |};
      laneIndex := laneIndex; segmentIndex := segmentIndex; color := color;
      collected := false; visible := true |}).

(** What the loop of [generateTrackObjects] carries: the blocks and their
    boxes, and the number of random draws made. *)
Record Placement : Type := {
  placedBlocks : list Block;
  placedBoxes : list Box;
  draws : nat
}.

(** One round of the loop of [generateTrackObjects], for the frame
    [analysis] at index [i]. *)
Definition placeBlock (this : TrackGenerator) (random : nat -> R) (i : Z)
    (analysis : Analysis) (s : Placement) : Completion Placement :=
  if isBlock analysis then
    let segmentIndex := (i / 4)%Z in
    if (segmentIndex >=? Z.of_nat (List.length (trackSegments this)))%Z then Return s
    else
      match element (trackSegments this) (indexOfZ (Some segmentIndex)) with
      | None => Throw
      | Some segment =>
          let pathPoint :=
            element (trackPath this) (indexOfZ (Some (startPathIndex segment))) in
          let (laneIndex, draws') :=
            determineLane this (bandEnergies analysis) random (draws s) in
          let laneWidth := ndiv (fin (trackWidth this)) (fin (lanes this)) in
          let laneOffset :=
            nadd (ndiv (fin (- trackWidth this)) (fin 2))
                 (nmul (nadd (fin (IZR laneIndex)) (fin (5 / 10))) laneWidth) in
          let forward :=
            if (startPathIndex segment + 1 <? Z.of_nat (List.length (trackPath this)))%Z
            then
              match element (trackPath this)
                      (indexOfZ (Some (startPathIndex segment + 1)%Z)), pathPoint with
              | Some nextPoint, Some pathPoint =>
                  Return (normalize (subVectors (position nextPoint) (position pathPoint)))
              | _, _ => Throw
              end
            else Return (vec 0 0 (-1)) in
          match forward, pathPoint with
          | Return forward, Some pathPoint =>
              let right := normalize (cross (vec 0 1 0) forward) in
              let blockPosition :=
                add (add (position pathPoint) (multiplyScalar right laneOffset))
                    (vec 0 (15 / 10) 0) in
              let colorIndex := blockColor analysis in
              let blockColor := paletteColor colorIndex in
              let (box, block) :=
                createBlock this blockPosition laneIndex blockColor segmentIndex
                  (beatIntensity analysis) in
              Return {| placedBlocks := placedBlocks s ++ [block];
                        placedBoxes := placedBoxes s ++ [box];
                        draws := draws' |}
          | _, _ => Throw
          end
      end
  else Return s.

Fixpoint placeLoop (this : TrackGenerator) (random : nat -> R) (i : Z)
    (analysisResults : list Analysis) (s : Placement) : Completion Placement :=
  match analysisResults with
  | [] => Return s
  | analysis :: rest =>
      match placeBlock this random i analysis s with
      | Return s' => placeLoop this random (i + 1)%Z rest s'
      | Throw => Throw
      end
  end.

(** [generateTrackObjects]: the generator with its new blocks, the boxes put
    in the scene, and the number of random draws made in all. *)
Definition generateTrackObjects (this : TrackGenerator) (analysisResults : list Analysis)
    (random : nat -> R) (drawn : nat) : Completion (TrackGenerator * list Box * nat) :=
  match placeLoop this random 0 analysisResults
          {| placedBlocks := []; placedBoxes := []; draws := drawn |} with
  | Return s => Return (set_blocks this (placedBlocks s), placedBoxes s, draws s)
  | Throw => Throw
  end.
(** [for (let i = start; ...; i += step)] for a loop that makes [n] rounds
    unless a round throws. *)
Fixpoint forStep {S : Type} (n : nat) (i step : Z) (body : Z -> S -> Completion S)
    (s : S) : Completion S :=
  match n with
  | O => Return s
  | Datatypes.S n' =>
      match body i s with
      | Return s' => forStep n' (i + step)%Z step body s'
      | Throw => Throw
      end
  end.

(** The buffers handed to the track geometry. *)
Record TrackMesh : Type := {
  vertices : list num;
  normals : list num;
  uvs : list num;
  indices : list Z
}.

Definition coordinates (v : Vector3) : list num := [x v; y v; z v].

(** One round of the loop of [createTrackMesh], for segment [i].  The base
    index is [vertices.length / 3], a whole number since vertices come three
    coordinates at a time; the lane vectors that the round computes last are
    used nowhere and are left out. *)
Definition meshSegment (this : TrackGenerator) (i : Z) (segment : Segment)
    (m : TrackMesh) : Completion TrackMesh :=
  match element (trackPath this) (indexOfZ (Some (startPathIndex segment))),
        element (trackPath this) (indexOfZ (Some (endPathIndex segment))) with
  | Some startPoint, Some endPoint =>
      let direction :=
        normalize (subVectors (position endPoint) (position startPoint)) in
      let normal := vec 0 1 0 in
      let right :=
        multiplyScalar (normalize (cross direction normal))
          (ndiv (fin (trackWidth this)) (fin 2)) in
      let startLeft := subVectors (position startPoint) right in
      let startRight := add (position startPoint) right in
      let endLeft := subVectors (position endPoint) right in
      let endRight := add (position endPoint) right in
      let baseIndex := (Z.of_nat (List.length (vertices m)) / 3)%Z in
      let count := fin (INR (List.length (trackSegments this))) in
      let segmentU := ndiv (fin (IZR i)) count in
      let nextU := nadd segmentU (ndiv (fin 1) count) in
      Return
        {| vertices :=
             vertices m ++ coordinates startLeft ++ coordinates startRight
               ++ coordinates endLeft ++ coordinates endRight;
           normals :=
             normals m ++ for_loop 0 4 (fun _ l => l ++ [fin 0; fin 1; fin 0]) [];
           uvs :=
             uvs m ++ [fin 0; segmentU; fin 1; segmentU; fin 0; nextU; fin 1; nextU];
           indices :=
             indices m ++ [baseIndex; baseIndex + 1; baseIndex + 2;
                           baseIndex + 1; baseIndex + 3; baseIndex + 2]%Z |}
  | _, _ => Throw
  end.

Fixpoint meshLoop (this : TrackGenerator) (i : Z) (rest : list Segment)
    (m : TrackMesh) : Completion TrackMesh :=
  match rest with
  | [] => Return m
  | segment :: rest' =>
      match meshSegment this i segment m with
      | Return m' => meshLoop this (i + 1)%Z rest' m'
      | Throw => Throw
      end
  end.

(** A grid line from [a] to [b], a tenth above the track. *)
Definition gridLine (a b : Vector3) : list num :=
  [x a; nadd (y a) (fin (1 / 10)); z a; x b; nadd (y b) (fin (1 / 10)); z b].

(** One round of the first loop of [addTrackGrid]: the cross line at
    segment [i]. *)
Definition crossLine (this : TrackGenerator) (i : Z) (gridVertices : list num)
    : Completion (list num) :=
  let gridInterval := 5%Z in
  match element (trackSegments this) (indexOfZ (Some i)) with
  | None => Throw
  | Some segment =>
      let point := element (trackPath this) (indexOfZ (Some (startPathIndex segment))) in
      let forward :=
        if (i + gridInterval <? Z.of_nat (List.length (trackSegments this)))%Z then
          match element (trackSegments this) (indexOfZ (Some (i + gridInterval)%Z)) with
          | None => Throw
          | Some nextSegment =>
              match element (trackPath this)
                      (indexOfZ (Some (startPathIndex nextSegment))), point with
              | Some nextPoint, Some point =>
                  Return (normalize (subVectors (position nextPoint) (position point)))
              | _, _ => Throw
              end
          end
        else
          match element (trackSegments this) (indexOfZ (Some (i - gridInterval)%Z)) with
          | None => Throw
          | Some prevSegment =>
              match element (trackPath this)
                      (indexOfZ (Some (startPathIndex prevSegment))), point with
              | Some prevPoint, Some point =>
                  Return (normalize (subVectors (position point) (position prevPoint)))
              | _, _ => Throw
              end
          end in
      match forward, point with
      | Return forward, Some point =>
          let right :=
            multiplyScalar (normalize (cross (vec 0 1 0) forward))
              (ndiv (fin (trackWidth this)) (fin 2)) in
          let startLeft := subVectors (position point) right in
          let startRight := add (position point) right in
          Return (gridVertices ++ gridLine startLeft startRight)
      | _, _ => Throw
      end
  end.

(** One round of the loops of [addTrackGrid] that run along the path: the
    line from point [i] to point [i + 5], moved sideways by [offset]. *)
Definition alongLine (this : TrackGenerator) (offset : num) (i : Z)
    (gridVertices : list num) : Completion (list num) :=
  let sideInterval := 5%Z in
  match element (trackPath this) (indexOfZ (Some i)),
        element (trackPath this) (indexOfZ (Some (i + sideInterval)%Z)) with
  | Some point, Some nextPoint =>
      let direction := normalize (subVectors (position nextPoint) (position point)) in
      let right := multiplyScalar (normalize (cross (vec 0 1 0) direction)) offset in
      let start := add (position point) right in
      let finish := add (position nextPoint) right in
      Return (gridVertices ++ gridLine start finish)
  | _, _ => Throw
  end.

(** The rounds of [for (let i = 0; i < length; i += 5)] that come before
    its [if (i + 5 >= length) break]. *)
Definition roundsAlong (this : TrackGenerator) : nat :=
  Z.to_nat ((Z.of_nat (List.length (trackPath this)) - 1) / 5).

(** The whole lanes [lane] with [1 <= lane < this.lanes]. *)
Definition innerLanes (this : TrackGenerator) : nat :=
  Z.to_nat (- Int_part (- lanes this) - 1).

(** [addTrackGrid]: the vertices of the grid lines. *)
Definition addTrackGrid (this : TrackGenerator) : Completion (list num) :=
  let gridInterval := 5%Z in
  match forStep (Z.to_nat ((Z.of_nat (List.length (trackSegments this)) + 4) / 5))
          0 gridInterval (crossLine this) [] with
  | Throw => Throw
  | Return gridVertices =>
      let sideLines (side : Z) (gridVertices : list num) :=
        let sideOffset := ndiv (fin (IZR side * trackWidth this)) (fin 2) in
        forStep (roundsAlong this) 0 5 (alongLine this sideOffset) gridVertices in
      match forStep 2 (-1) 2 sideLines gridVertices with
      | Throw => Throw
      | Return gridVertices =>
          if ngt (fin (lanes this)) (fin 1) then
            let laneWidth := ndiv (fin (trackWidth this)) (fin (lanes this)) in
            forStep (innerLanes this) 1 1
              (fun lane gridVertices =>
                 let laneOffset :=
                   nadd (ndiv (fin (- trackWidth this)) (fin 2))
                        (nmul (fin (IZR lane)) laneWidth) in
                 forStep (roundsAlong this) 0 5 (alongLine this laneOffset) gridVertices)
              gridVertices
          else Return gridVertices
      end
  end.

(** [createTrackMesh]: the buffers of the track surface and of the grid. *)
Definition createTrackMesh (this : TrackGenerator) : Completion (TrackMesh * list num) :=
  match meshLoop this 0 (trackSegments this)
          {| vertices := []; normals := []; uvs := []; indices := [] |} with
  | Throw => Throw
  | Return m =>
      match addTrackGrid this with
      | Throw => Throw
      | Return gridVertices => Return (m, gridVertices)
      end
  end.

(** What [generateTrack] returns. *)
Record TrackInfo : Type := {
  totalSegments : Z;
  totalBlocks : Z;
  trackLength : num
}.

(** [generateTrack]: its result, the generator as the call leaves it, and
    the number of random draws made. *)
Definition generateTrack (this : TrackGenerator) (analysisResults : list Analysis)
    (random : nat -> R) (drawn : nat) : Completion (TrackInfo * TrackGenerator * nat) :=
  let this := clearTrack this in
  let this := generateTrackPath this analysisResults in
  match createTrackMesh this with
  | Throw => Throw
  | Return _ =>
      match generateTrackObjects this analysisResults random drawn with
      | Throw => Throw
      | Return (this, _, drawn) =>
          Return
            ({| totalSegments := Z.of_nat (List.length (trackSegments this));
                totalBlocks := Z.of_nat (List.length (blocks this));
                trackLength :=
                  nmul (fin (INR (List.length (trackSegments this))))
                       (fin (segmentLength this)) |},
             this, drawn)
      end
  end.

End TrackGenerator.

(** ** Reference definitions for the feature extractor *)

Module BandSpec.
Import JSNum.
Local Open Scope Q_scope.

(** A magnitude normalized to the unit interval. *)
Definition normalized (b : byte) : Q := inject_Z (u8 b) / 255.

(** The bins [lo], ..., [hi] of a spectrum, both ends included. *)
Definition bins (lo hi : Z) (spectrum : Uint8Array) : list byte :=
  firstn (Z.to_nat (hi - lo + 1)) (skipn (Z.to_nat lo) spectrum).

Definition total (l : list Q) : Q := fold_right Qplus 0 l.

Definition mean (l : list Q) : Q := total l / inject_Z (Z.of_nat (length l)).

(** The average a band stands for when [index] turns a fractional bin
    position into a bin index. *)
Definition bandMean (index : Q -> Z) (rate : Q) (spectrum : Uint8Array)
    (band : CONFIG.Band) : Q :=
  let nyquist := rate / 2 in
  let size := inject_Z (Z.of_nat (length spectrum)) in
  mean (map normalized
          (bins (index (CONFIG.min band / nyquist * size))
                (index (CONFIG.max band / nyquist * size)) spectrum)).

Definition bandMeans (index : Q -> Z) (bands : list CONFIG.Band) (rate : Q)
    (spectrum : Uint8Array) : list num :=
  map (fun band => fin (bandMean index rate spectrum band)) bands.

(** Every bin of every band exists in the spectrum. *)
Definition binsInside (bands : list CONFIG.Band) (rate : Q) (spectrum : Uint8Array) : Prop :=
  Forall (fun band =>
            0 <= CONFIG.min band /\ CONFIG.min band <= CONFIG.max band /\
            (floor (CONFIG.max band / (rate / 2) * inject_Z (Z.of_nat (length spectrum)))
             < Z.of_nat (length spectrum))%Z)
         bands.

(** A spectrum with all its energy in bin 0. *)
Definition spike : Uint8Array := Byte.xff :: repeat Byte.x00 1023.

(** A silent 1024-bin snapshot. *)
Definition silent : Uint8Array := repeat Byte.x00 1024.

(** A processor that has decoded ten seconds of audio, one that has decoded
    nothing, and an offline context that honours every suspension and only
    ever sees silence. *)
Definition tenSeconds : AudioProcessor.AudioBuffer :=
  {| AudioProcessor.duration := 10; AudioProcessor.bufferSampleRate := 44100;
     AudioProcessor.numberOfChannels := 2; AudioProcessor.bufferLength := 441000 |}.

Definition loaded : AudioProcessor.Processor :=
  {| AudioProcessor.sampleRate := 44100;
     AudioProcessor.audioBuffer := Some tenSeconds;
     AudioProcessor.analysisResults := [];
     AudioProcessor.analysisDone := false |}.

Definition idle : AudioProcessor.Processor :=
  {| AudioProcessor.sampleRate := 44100;
     AudioProcessor.audioBuffer := None;
     AudioProcessor.analysisResults := [];
     AudioProcessor.analysisDone := false |}.

(** A processor whose audio context runs at 22050 Hz. *)
Definition lowRate : AudioProcessor.Processor :=
  {| AudioProcessor.sampleRate := 22050;
     AudioProcessor.audioBuffer := None;
     AudioProcessor.analysisResults := [];
     AudioProcessor.analysisDone := false |}.

Definition silence (t : Q) : option (Uint8Array * Uint8Array) := Some (silent, silent).

(** The analysis at [r] points per second suspends rendering at [1 / r],
    [2 / r], and so on: the context honours the first [n] of these
    suspensions. *)
Definition honoured (suspend : Q -> option (Uint8Array * Uint8Array)) (r : Q) (n : Z)
    : Prop :=
  forall k t, (0 < k <= n)%Z -> t == inject_Z k / r -> suspend t <> None.

(** The context renders [d] seconds: as the Web Audio API has it, it rejects
    a suspension at or past the end of rendering. *)
Definition rendersFor (suspend : Q -> option (Uint8Array * Uint8Array)) (d : Q) : Prop :=
  forall t, d <= t -> suspend t = None.

(** The offline context of [d] seconds of silence: it honours a suspension
    before the end of rendering and rejects one at the end, or later. *)
Definition rendering (d : Q) (t : Q) : option (Uint8Array * Uint8Array) :=
  if Qle_bool d t then None else Some (silent, silent).

(** A processor that has decoded one second of audio. *)
Definition oneSecond : AudioProcessor.AudioBuffer :=
  {| AudioProcessor.duration := 1; AudioProcessor.bufferSampleRate := 44100;
     AudioProcessor.numberOfChannels := 2; AudioProcessor.bufferLength := 44100 |}.

Definition short : AudioProcessor.Processor :=
  {| AudioProcessor.sampleRate := 44100;
     AudioProcessor.audioBuffer := Some oneSecond;
     AudioProcessor.analysisResults := [];
     AudioProcessor.analysisDone := false |}.

End BandSpec.

(** ** Reference definitions for the track path *)

Module PathSpec.
Import RNum THREE TrackGenerator.
Local Open Scope R_scope.

(** The forward step: [segmentLength / pointsPerSegment]. *)
Definition stepLength (this : TrackGenerator) : R :=
  segmentLength this / IZR pointsPerSegment.

(** The Euclidean distance between the positions of two path points. *)
Definition distance (p q : PathPoint) : num :=
  THREE.length (subVectors (position q) (position p)).

(** The same distance seen from above, in the plane of [x] and [z]. *)
Definition horizontalDistance (p q : PathPoint) : num :=
  let dx := nsub (x (position q)) (x (position p)) in
  let dz := nsub (z (position q)) (z (position p)) in
  nsqrt (nadd (nmul dx dx) (nmul dz dz)).

(** [p] and [q] follow each other in the path. *)
Definition adjacent (l : list PathPoint) (p q : PathPoint) : Prop :=
  exists i, nth_error l i = Some p /\ nth_error l (S i) = Some q.

(** Every two adjacent points are one forward step apart. *)
Definition evenlySpaced (this : TrackGenerator) : Prop :=
  forall p q, adjacent (trackPath this) p q -> distance p q = fin (stepLength this).

(** The [k]-th point of a path that runs straight down the negative [z]
    axis: heading zero, no sideways offset, [k] steps from the origin. *)
Definition onAxis (this : TrackGenerator) (k : nat) (p : PathPoint) : Prop :=
  rotation p = fin 0
  /\ x (position p) = fin 0
  /\ z (position p) = fin (- INR k * stepLength this).

(** Seen from above, [q] lies one forward step away from [p] (when the
    coordinates involved are finite). *)
Definition planarStep (this : TrackGenerator) (p q : PathPoint) : Prop :=
  forall x1 z1 x2 z2,
    x (position p) = Some x1 -> z (position p) = Some z1 ->
    x (position q) = Some x2 -> z (position q) = Some z2 ->
    (x2 - x1) * (x2 - x1) + (z2 - z1) * (z2 - z1) = stepLength this * stepLength this.

(** The loop state while nothing has bent the track yet. *)
Definition unbent (this : TrackGenerator) (s : PathState) : Prop :=
  currentDirection s = fin 0
  /\ targetDirection s = fin 0
  /\ path s <> []
  /\ forall k p, nth_error (path s) k = Some p -> onAxis this k p.

(** A frame the heading can be computed from: its band energies 1 to 4,
    the ones the generator reads, are numbers. *)
Definition energiesKnown (a : Analysis) : Prop :=
  forall k, (1 <= k <= 4)%nat -> exists e, nth_error (bandEnergies a) k = Some (fin e).

(** A frame the height can be computed from: its waveform, when it has one,
    is not empty. *)
Definition waveformKnown (a : Analysis) : Prop := timeData a <> Some [].

(** A point whose heading and place on the map are numbers. *)
Definition charted (p : PathPoint) : Prop :=
  exists r x0 z0,
    rotation p = fin r /\ x (position p) = fin x0 /\ z (position p) = fin z0.

(** The mean of [|sample - 128|] over a waveform. *)
Definition meanAmplitude (data : Uint8Array) : R :=
  IZR (fold_right Z.add 0%Z (map (fun b => Z.abs (u8 b - 128)) data))
  / INR (List.length data).

(** The elevation a frame aims at: from [-5] for a flat waveform up to
    [10 * hilliness - 5] for the loudest; without a waveform, the aim of the
    frame before. *)
Definition elevationGoal (this : TrackGenerator) (previous : R) (a : Analysis) : R :=
  match timeData a with
  | Some data => meanAmplitude data / 128 * hilliness this * 10 - 5
  | None => previous
  end.

(** The climb that each frame adds to the height of the path: the elevation,
    which each frame moves a twentieth of the way to its goal. *)
Fixpoint climbs (this : TrackGenerator) (goal elevation : R) (frames : list Analysis)
    : list R :=
  match frames with
  | [] => []
  | a :: rest =>
      let goal := elevationGoal this goal a in
      let elevation := elevation * (95 / 100) + goal * (5 / 100) in
      elevation :: climbs this goal elevation rest
  end.

(** The heights reached from [height] by a run of climbs. *)
Fixpoint risen (height : R) (climbs : list R) : list R :=
  match climbs with
  | [] => []
  | climb :: rest => (height + climb) :: risen (height + climb) rest
  end.

(** The height of every path point: the lead-in is level, and each point
    after it lies above the one before by the climb of its frame. *)
Definition heights (this : TrackGenerator) (frames : list Analysis) : list R :=
  repeat 0 10 ++ risen 0 (climbs this 0 0 frames).

(** Three points on one line. *)
Definition collinear (a b c : Vector3) : Prop :=
  cross (subVectors b a) (subVectors c a) = vec 0 0 0.

(** From index [start] on, every three points in a row are on one line. *)
Definition straightFrom (start : nat) (l : list PathPoint) : Prop :=
  forall i p q r,
    (start <= i)%nat ->
    nth_error l i = Some p -> nth_error l (S i) = Some q ->
    nth_error l (S (S i)) = Some r ->
    collinear (position p) (position q) (position r).

(** A frame of digital silence: no beat, no energy in any band, a flat
    waveform. *)
Definition quiet : Analysis :=
  {| beatIntensity := fin 0;
     bandEnergies := [fin 0; fin 0; fin 0; fin 0; fin 0; fin 0];
     timeData := Some [Byte.x80];
     isBlock := false;
     blockColor := 0 |}.

End PathSpec.

(** ** Reference definitions for the collision query *)

Module CollisionSpec.
Import TrackGenerator.

(** A block the player can still pick up from [(playerSegment, playerLane)]. *)
Definition eligible (block : Block) (playerSegment playerLane : Z) : bool :=
  negb (collected block) && inReach block playerSegment playerLane.

(** [block] is at index [i] and is the first eligible block. *)
Definition firstEligible (bs : list Block) (playerSegment playerLane : Z)
    (i : nat) (block : Block) : Prop :=
  nth_error bs i = Some block
  /\ eligible block playerSegment playerLane = true
  /\ forall j other, (j < i)%nat -> nth_error bs j = Some other ->
       eligible other playerSegment playerLane = false.

(** The blocks with the one at index [i] replaced by [block]. *)
Definition replaced (bs : list Block) (i : nat) (block : Block) : list Block :=
  firstn i bs ++ block :: skipn (S i) bs.

(** The first call of [checkBlockCollision] followed by the same call on the
    state the first one left. *)
Definition calledTwice (this : TrackGenerator) (playerSegment playerLane : Z)
    : option Collision * option Collision :=
  let (first, this1) := checkBlockCollision this playerSegment playerLane in
  let (second, _) := checkBlockCollision this1 playerSegment playerLane in
  (first, second).

Definition freshBlock (segment lane : Z) : Block :=
  {| mesh := Some {| meshVisible := true |};
     laneIndex := lane; segmentIndex := segment; color := 0xff0000;
     collected := false; visible := true |}.

(** Two blocks in the same lane, one segment apart. *)
Definition twoInReach : TrackGenerator :=
  set_blocks create [freshBlock 3 1; freshBlock 4 1].

End CollisionSpec.

(** ** scoreManager.js *)

Module ScoreManager.
Import JSNum.
Local Open Scope Z_scope.

(** [CONFIG.scoring] of config.js. *)
Module Scoring.
Definition basePoints : Q := 50.
Definition comboMultiplier : Q := 1 # 10.
Definition maxCombo : Q := 10.
Definition perfectMatch : Q := 200.
Definition colorMatch : Q := 100.
Definition miss : Z := -50.
End Scoring.

(** The handle kept in [comboTimer]: of a timeout still to fire, or of one
    that has fired. *)
Inductive Timer : Type := Pending | Fired.

(** The counters are integers: each is only ever reset, incremented, or, for
    the score, moved by a rounded amount.  The multiplier is an exact
    rational, as the numbers of [JSNum] are. *)
Record ScoreManager : Type := {
  score : Z;
  combo : Z;
  maxCombo : Z;
  currentMultiplier : Q;
  consecutiveBlocks : Z;
  comboTimer : option Timer;
  lastBlockColor : Z;
  colorMatches : Z;
  blockCollected : Z;
  perfect : Z
}.

(** The constructor. *)
Definition create : ScoreManager :=
  {| score := 0; combo := 0; maxCombo := 0; currentMultiplier := 1;
     consecutiveBlocks := 0; comboTimer := None; lastBlockColor := -1;
     colorMatches := 0; blockCollected := 0; perfect := 0 |}.

Definition resetScore (this : ScoreManager) : ScoreManager :=
  {| score := 0; combo := 0; maxCombo := 0; currentMultiplier := 1;
     consecutiveBlocks := 0; comboTimer := None; lastBlockColor := -1;
     colorMatches := 0; blockCollected := 0; perfect := 0 |}.

Definition resetCombo (this : ScoreManager) : ScoreManager :=
  {| score := score this; combo := 0; maxCombo := maxCombo this;
     currentMultiplier := 1; consecutiveBlocks := consecutiveBlocks this;
     comboTimer := comboTimer this; lastBlockColor := lastBlockColor this;
     colorMatches := 0; blockCollected := blockCollected this;
     perfect := perfect this |}.

Definition addBlock (this : ScoreManager) (blockColor : Z) : ScoreManager :=
  let blockCollected := blockCollected this + 1 in
  let points := (Scoring.basePoints * currentMultiplier this)%Q in
  let '(colorMatches, points, perfect) :=
    if lastBlockColor this =? blockColor then
      let colorMatches := colorMatches this + 1 in
      let points := (points + Scoring.colorMatch * inject_Z colorMatches)%Q in
      if colorMatches >=? 3
      then (colorMatches, (points + Scoring.perfectMatch)%Q, perfect this + 1)
      else (colorMatches, points, perfect this)
    else (0, points, perfect this) in
  let combo := combo this + 1 in
  {| score := score this + round points;
     combo := combo;
     maxCombo := if combo >? maxCombo this then combo else maxCombo this;
     currentMultiplier :=
       Qmin (1 + inject_Z combo * Scoring.comboMultiplier) Scoring.maxCombo;
     consecutiveBlocks := consecutiveBlocks this + 1;
     comboTimer := Some Pending;
     lastBlockColor := blockColor;
     colorMatches := colorMatches;
     blockCollected := blockCollected;
     perfect := perfect |}.

Definition addMiss (this : ScoreManager) : ScoreManager :=
  let score := score this + Scoring.miss in
  let score := if score <? 0 then 0 else score in
  resetCombo
    {| score := score; combo := combo this; maxCombo := maxCombo this;
       currentMultiplier := currentMultiplier this;
       consecutiveBlocks := consecutiveBlocks this;
       comboTimer := comboTimer this; lastBlockColor := lastBlockColor this;
       colorMatches := colorMatches this; blockCollected := blockCollected this;
       perfect := perfect this |}.

(** The callback armed by [addBlock] runs, two seconds after the last block:
    it can only run while its timeout is pending. *)
Definition comboTimeout (this : ScoreManager) : ScoreManager :=
  match comboTimer this with
  | Some Pending =>
      let this := resetCombo this in
      {| score := score this; combo := combo this; maxCombo := maxCombo this;
         currentMultiplier := currentMultiplier this;
         consecutiveBlocks := consecutiveBlocks this;
         comboTimer := Some Fired; lastBlockColor := lastBlockColor this;
         colorMatches := colorMatches this; blockCollected := blockCollected this;
         perfect := perfect this |}
  | _ => this
  end.

Definition getFinalScore (this : ScoreManager) : Z :=
  let finalScore := score this in
  let comboBonus := maxCombo this * 50 in
  let finalScore := finalScore + comboBonus in
  let perfectBonus := perfect this * 200 in
  let finalScore := finalScore + perfectBonus in
  round (inject_Z finalScore).

(** What the rest of the game can do to a score manager. *)
Inductive Call : Type :=
| AddBlock (blockColor : Z)
| AddMiss
| ResetCombo
| ResetScore
| ComboTimeout.

Definition call (this : ScoreManager) (c : Call) : ScoreManager :=
  match c with
  | AddBlock blockColor => addBlock this blockColor
  | AddMiss => addMiss this
  | ResetCombo => resetCombo this
  | ResetScore => resetScore this
  | ComboTimeout => comboTimeout this
  end.

(** The manager after a run of calls on a new one. *)
Definition after (calls : list Call) : ScoreManager := fold_left call calls create.

(** What every run of calls keeps true. *)
Definition consistent (this : ScoreManager) : Prop :=
  0 <= score this
  /\ 0 <= combo this <= maxCombo this
  /\ (currentMultiplier this
      == Qmin (1 + inject_Z (combo this) * Scoring.comboMultiplier) Scoring.maxCombo)%Q
  /\ 0 <= colorMatches this
  /\ 0 <= perfect this.

End ScoreManager.
(** ** Reference definitions for the track queries *)

Module TrackSpec.
Import RNum THREE TrackGenerator.

(** The segments a player at [playerSegment] sees: five behind, and
    [visibleSegments] ahead. *)
Definition inView (this : TrackGenerator) (playerSegment : Z) (block : Block) : Prop :=
  (playerSegment - 5 <= segmentIndex block <= playerSegment + visibleSegments this)%Z.

(** Two generators configured alike, whatever track each holds. *)
Definition sameSettings (a b : TrackGenerator) : Prop :=
  segmentLength a = segmentLength b
  /\ curveIntensity a = curveIntensity b
  /\ hilliness a = hilliness b.

(** Segment [k] spans the four path points that end with the point of
    frame [4 * k]. *)
Definition segmentLayout (segments : list Segment) : Prop :=
  forall k segment,
    nth_error segments k = Some segment ->
    startPathIndex segment = (7 + 4 * Z.of_nat k)%Z
    /\ endPathIndex segment = (10 + 4 * Z.of_nat k)%Z
    /\ audioIndex segment = (4 * Z.of_nat k)%Z.

End TrackSpec.

(** ** Reference definitions for the placement of blocks *)

Module PlacementSpec.
Import RNum THREE TrackGenerator.

(** The indices, from [i] on, of the frames flagged as blocks. *)
Fixpoint blockFrames (i : Z) (frames : list Analysis) : list Z :=
  match frames with
  | [] => []
  | frame :: rest =>
      if isBlock frame then i :: blockFrames (i + 1)%Z rest
      else blockFrames (i + 1)%Z rest
  end.

(** A block as [createBlock] leaves it: with a mesh, shown, not collected. *)
Definition untouched (block : Block) : Prop :=
  mesh block = Some {| meshVisible := true |}
  /\ collected block = false
  /\ visible block = true.

(** A frame flagged as a block, with all its energy in the bass band. *)
Definition kick : Analysis :=
  {| beatIntensity := fin (8 / 10);
     bandEnergies := [fin (9 / 10); fin 0; fin 0; fin 0; fin 0; fin 0];
     timeData := Some [Byte.x80];
     isBlock := true;
     blockColor := 0 |}.

(** A source of random numbers that always answers one half. *)
Definition fair (n : nat) : R := 1 / 2.

End PlacementSpec.

(** ** Reference definitions for the track mesh *)

Module MeshSpec.
Import RNum THREE TrackGenerator.

(** The buffers of a surface of [count] segments: four vertices, four
    normals, four texture points and two triangles for each, and every
    triangle corner one of the vertices. *)
Definition surface (count : nat) (m : TrackMesh) : Prop :=
  List.length (vertices m) = (12 * count)%nat
  /\ List.length (normals m) = (12 * count)%nat
  /\ List.length (uvs m) = (8 * count)%nat
  /\ List.length (indices m) = (6 * count)%nat
  /\ Forall (fun index => (0 <= index < 4 * Z.of_nat count)%Z) (indices m).

(** The lane dividers that [addTrackGrid] draws. *)
Definition dividers (this : TrackGenerator) : nat :=
  if ngt (fin (lanes this)) (fin 1) then innerLanes this else 0%nat.

(** The cross lines that [addTrackGrid] draws: one every five segments. *)
Definition crossLines (this : TrackGenerator) : nat :=
  Z.to_nat ((Z.of_nat (List.length (trackSegments this)) + 4) / 5).

End MeshSpec.
(** ** Reference definitions for the block colour *)

Module ColorSpec.
Import JSNum.
Local Open Scope Q_scope.

(** Band [i], of energy [m], is the loudest of [energies]: no energy that is
    a number exceeds [m], and either no energy is positive, and then [i] and
    [m] are zero, or band [i] is the first to reach [m]. *)
Definition loudest (energies : list num) (i : Z) (m : Q) : Prop :=
  (0 <= i)%Z
  /\ (forall j e, nth_error energies j = Some (fin e) -> e <= m)
  /\ ((i = 0%Z /\ m = 0)
      \/ (nth_error energies (Z.to_nat i) = Some (fin m)
          /\ 0 < m
          /\ forall j e, (j < Z.to_nat i)%nat ->
               nth_error energies j = Some (fin e) -> e < m)).

End ColorSpec.

(** ** Reference definitions for playback *)

Module PlaybackSpec.
Import AudioProcessor.

(** A processor that has just decoded ten seconds of audio and has not
    played yet. *)
Definition ready : Transport :=
  {| loadedBuffer := Some BandSpec.tenSeconds; audioSource := false;
     isPlaying := false; startTime := 0; currentTime := 0 |}.

End PlaybackSpec.

(** ** The game engine: the ship on the track *)

Module GameEngine.
Import RNum THREE TrackGenerator.
Local Open Scope R_scope.

(** [THREE.MathUtils.lerp]. *)
Definition lerp (x y t : R) : R := (1 - t) * x + t * y.

(** [Array.prototype.indexOf], searching from index [i] on: [-1] when the
    value is not there. *)
Fixpoint indexFrom (i : Z) (a : list Z) (v : Z) : Z :=
  match a with
  | [] => (-1)%Z
  | u :: rest => if (u =? v)%Z then i else indexFrom (i + 1)%Z rest v
  end.

Definition indexOf (a : list Z) (v : Z) : Z := indexFrom 0 a v.

(** The part of the engine that places the ship: the segment and the lane
    are whole numbers, set to 0 and 1 at the start and moved by whole
    steps. *)
Record GameEngine : Type := {
  trackGenerator : TrackGenerator;
  scoreManager : ScoreManager.ScoreManager;
  isPlaying : bool;
  isPaused : bool;
  playerSegment : Z;
  playerLane : Z;
  playerOffset : R;
  playerSpeed : R;
  targetSpeed : R;
  gameSpeed : R;
  deltaTime : R
}.

Definition set_lane (this : GameEngine) (lane : Z) : GameEngine :=
  {| trackGenerator := trackGenerator this; scoreManager := scoreManager this;
     isPlaying := isPlaying this; isPaused := isPaused this;
     playerSegment := playerSegment this; playerLane := lane;
     playerOffset := playerOffset this; playerSpeed := playerSpeed this;
     targetSpeed := targetSpeed this; gameSpeed := gameSpeed this;
     deltaTime := deltaTime this |}.

Definition set_ship (this : GameEngine) (speed : R) (segment : Z) (offset : R)
    : GameEngine :=
  {| trackGenerator := trackGenerator this; scoreManager := scoreManager this;
     isPlaying := isPlaying this; isPaused := isPaused this;
     playerSegment := segment; playerLane := playerLane this;
     playerOffset := offset; playerSpeed := speed;
     targetSpeed := targetSpeed this; gameSpeed := gameSpeed this;
     deltaTime := deltaTime this |}.

Definition set_game (this : GameEngine) (track : TrackGenerator)
    (score : ScoreManager.ScoreManager) : GameEngine :=
  {| trackGenerator := track; scoreManager := score;
     isPlaying := isPlaying this; isPaused := isPaused this;
     playerSegment := playerSegment this; playerLane := playerLane this;
     playerOffset := playerOffset this; playerSpeed := playerSpeed this;
     targetSpeed := targetSpeed this; gameSpeed := gameSpeed this;
     deltaTime := deltaTime this |}.

(** [changeLane]. *)
Definition changeLane (this : GameEngine) (direction : Z) : GameEngine :=
  let newLane := (playerLane this + direction)%Z in
  if (newLane >=? 0)%Z && nlt (fin (IZR newLane)) (fin (lanes (trackGenerator this)))
  then set_lane this newLane
  else this.

(** [updateShipPosition], up to the two queries on the track: the engine as
    the call leaves it, and the position and the direction handed to the
    ship. *)
Definition updateShipPosition (this : GameEngine)
    : Completion (GameEngine * Vector3 * Vector3) :=
  let track := trackGenerator this in
  let playerSpeed := lerp (playerSpeed this) (targetSpeed this) (deltaTime this * 2) in
  let playerOffset := playerOffset this + playerSpeed * deltaTime this * gameSpeed this in
  let '(playerSegment, playerOffset) :=
    if Rge_dec playerOffset 1 then
      let playerOffset := playerOffset - 1 in
      let playerSegment := (playerSegment this + 1)%Z in
      if (playerSegment >=? getTrackLength track)%Z
      then ((getTrackLength track - 1)%Z, 99 / 100)
      else (playerSegment, playerOffset)
    else (playerSegment this, playerOffset) in
  match getPositionOnTrack track (fin (IZR playerSegment)) (fin (IZR (playerLane this)))
          (fin playerOffset) with
  | Throw => Throw
  | Return position =>
      match getDirectionAtSegment track (fin (IZR playerSegment)) (fin playerOffset) with
      | Throw => Throw
      | Return direction =>
          Return (set_ship this playerSpeed playerSegment playerOffset, position, direction)
      end
  end.

(** [checkCollisions], for the track and the score. *)
Definition checkCollisions (this : GameEngine) : GameEngine :=
  let (collision, track) :=
    checkBlockCollision (trackGenerator this) (playerSegment this) (playerLane this) in
  match collision with
  | Some collision =>
      let colorIndex := indexOf CONFIG.blockColors (collisionColor collision) in
      set_game this track (ScoreManager.addBlock (scoreManager this) colorIndex)
  | None => set_game this track (scoreManager this)
  end.

End GameEngine.

(** ** The input handler of shaderManager.js *)

Module InputHandler.
Import RNum TrackGenerator GameEngine.
Local Open Scope Z_scope.

(** Times are those of [Date.now()], in whole milliseconds. *)
Record InputHandler : Type := {
  lastLaneChange : Z;
  laneChangeDelay : Z
}.

Definition create : InputHandler := {| lastLaneChange := 0; laneChangeDelay := 200 |}.

(** [handleLaneChange], called when [Date.now()] is [now]. *)
Definition handleLaneChange (this : InputHandler) (gameEngine : GameEngine)
    (now direction : Z) : InputHandler * GameEngine :=
  if now - lastLaneChange this <? laneChangeDelay this then (this, gameEngine)
  else
    let this := {| lastLaneChange := now; laneChangeDelay := laneChangeDelay this |} in
    if isPlaying gameEngine && negb (isPaused gameEngine)
    then (this, changeLane gameEngine (- direction))
    else (this, gameEngine).

End InputHandler.

(** ** Reference definitions for the game engine *)

Module GameSpec.
Import RNum THREE TrackGenerator GameEngine InputHandler.
Local Open Scope R_scope.

(** How far along its segment one frame moves the ship. *)
Definition stride (this : GameEngine) : R :=
  lerp (playerSpeed this) (targetSpeed this) (deltaTime this * 2)
  * deltaTime this * gameSpeed this.

(** A key press or a swipe: when it comes, and its direction. *)
Record Press : Type := { at_time : Z; direction : Z }.

Definition press (state : InputHandler * GameEngine) (p : Press)
    : InputHandler * GameEngine :=
  handleLaneChange (fst state) (snd state) (at_time p) (direction p).

(** The handler and the engine after a run of presses. *)
Definition pressed (handler : InputHandler) (gameEngine : GameEngine)
    (presses : list Press) : InputHandler * GameEngine :=
  fold_left press presses (handler, gameEngine).

(** A game under way on [track], the ship at the start. *)
Definition started (track : TrackGenerator) : GameEngine :=
  {| trackGenerator := track; scoreManager := ScoreManager.create;
     isPlaying := true; isPaused := false;
     playerSegment := 0; playerLane := 1; playerOffset := 0;
     playerSpeed := 1; targetSpeed := 1; gameSpeed := 1; deltaTime := 1 / 60 |}.

End GameSpec.

(** * Properties *)

(** ** The analysis pipeline *)

Section Pipeline.
Import JSNum AudioProcessor BandSpec.
Local Open Scope Q_scope.

Lemma resolution_positive (d r : Q) (k : Z) :
  0 <= d -> (0 <= k)%Z -> (k < Qfloor (d * r))%Z -> 0 < r.
Proof.
  intros Hd Hk Hlt.
  assert (H1 : inject_Z 1 <= inject_Z (Qfloor (d * r))) by (rewrite <- Zle_Qle; lia).
  pose proof (Qfloor_le (d * r)) as H2.
  assert (H3 : 1 <= d * r) by (eapply Qle_trans; [exact H1 | exact H2]).
  destruct (Qlt_le_dec 0 r) as [Hr | Hr]; [exact Hr | exfalso].
  assert (H4 : d * r <= 0).
  { setoid_replace 0 with (d * 0) by ring.
    rewrite (Qmult_comm d r), (Qmult_comm d 0).
    apply Qmult_le_compat_r; assumption. }
  apply (Qlt_irrefl 0). eapply Qlt_le_trans; [| exact H4].
  eapply Qlt_le_trans; [| exact H3]. reflexivity.
Qed.

Lemma next_time (d r t : Q) (k : Z) :
  0 <= d -> (0 <= k)%Z -> (k < Qfloor (d * r))%Z ->
  t == inject_Z k / r ->
  Qmin (t + 1 / r) d == inject_Z (k + 1) / r.
Proof.
  intros Hd Hk Hlt Ht.
  pose proof (resolution_positive d r k Hd Hk Hlt) as Hr.
  assert (Hne : ~ r == 0) by (intro E; rewrite E in Hr; discriminate).
  assert (Hsum : t + 1 / r == inject_Z (k + 1) / r).
  { rewrite Ht, inject_Z_plus. field. exact Hne. }
  rewrite Hsum. apply Q.min_l.
  apply Qle_shift_div_r; [exact Hr |].
  eapply Qle_trans; [| apply Qfloor_le].
  rewrite <- Zle_Qle. lia.
Qed.

(** The rounds of [processChunk] on a context that honours the suspensions
    of the analysis: from point [k] at time [k / r] it appends one frame per
    remaining point, each stamped with its own time, and then resolves. *)
Lemma processChunk_runs (suspend : Q -> option (Uint8Array * Uint8Array))
    (d r : Q) (Hd : 0 <= d) (Hsuspend : honoured suspend r (Qfloor (d * r))) :
  forall (n fuel : nat) (this : Processor) (k : Z) (t : Q),
    (0 <= k)%Z ->
    n = Z.to_nat (Qfloor (d * r) - k) ->
    (n < fuel)%nat ->
    t == inject_Z k / r ->
    exists this' new,
      processChunk suspend fuel (Qfloor (d * r)) (1 / r) d this k t
        = Some (Resolved (analysisResults this'), this')
      /\ analysisResults this' = analysisResults this ++ new
      /\ analysisDone this' = true
      /\ length new = n
      /\ forall i f, nth_error new i = Some f ->
           time f == inject_Z (k + Z.of_nat i) / r.
Proof.
  induction n as [| n IH]; intros fuel this k t Hk Hn Hfuel Ht;
    (destruct fuel as [| fuel]; [lia |]); cbn [processChunk].
  - assert (Hge : (k >=? Qfloor (d * r))%Z = true) by (apply Z.geb_le; lia).
    rewrite Hge.
    exists (set_analysisDone this true), []. repeat split.
    + simpl. now rewrite app_nil_r.
    + intros [| i] f; discriminate.
  - assert (Hlt : (k < Qfloor (d * r))%Z) by lia.
    assert (Hge : (k >=? Qfloor (d * r))%Z = false) by (rewrite Z.geb_leb; apply Z.leb_gt; lia).
    rewrite Hge.
    pose proof (next_time d r t k Hd Hk Hlt Ht) as Hnext.
    destruct (suspend (Qmin (t + 1 / r) d)) as [[fd td] |] eqn:Hs.
    2:{ exfalso. apply (Hsuspend (k + 1)%Z (Qmin (t + 1 / r) d)); [lia | exact Hnext | exact Hs]. }
    match goal with
    | |- context [processChunk _ _ _ _ _ ?th _ _] => set (this1 := th)
    end.
    destruct (IH fuel this1 (k + 1)%Z (Qmin (t + 1 / r) d))
      as (this' & new & Hrun & Hres & Hdone & Hlen & Htimes).
    + lia.
    + lia.
    + lia.
    + exact Hnext.
    + exists this'.
      match type of Hres with
      | _ = analysisResults this1 ++ _ =>
          subst this1; simpl in Hres; rewrite <- app_assoc in Hres; simpl in Hres
      end.
      eexists. split; [exact Hrun |]. split; [exact Hres |].
      split; [exact Hdone |]. split; [simpl; now rewrite Hlen |].
      intros [| i] f Hf; simpl in Hf.
      * inversion Hf; subst f; simpl. now rewrite Z.add_0_r.
      * specialize (Htimes i f Hf).
        rewrite Htimes.
        replace (k + 1 + Z.of_nat i)%Z with (k + Z.of_nat (S i))%Z by lia.
        reflexivity.
Qed.

(** A whole run of [analyzeAudio] on a loaded processor, when the context
    honours each of the [floor (d * r)] suspensions: the promise is resolved
    with that many frames, the frame at index [i] stamped [i / r]. *)
Lemma analyzeAudio_resolves
    (suspend : Q -> option (Uint8Array * Uint8Array)) (this : Processor)
    (buffer : AudioBuffer) (resolution : Q) (fuel : nat) :
  audioBuffer this = Some buffer ->
  0 <= duration buffer ->
  honoured suspend resolution (floor (duration buffer * resolution)) ->
  (Z.to_nat (floor (duration buffer * resolution)) < fuel)%nat ->
  exists this',
    analyzeAudio suspend fuel this resolution
      = Some (Resolved (analysisResults this'), this')
    /\ analysisDone this' = true
    /\ length (analysisResults this') = Z.to_nat (floor (duration buffer * resolution))
    /\ forall i frame,
         nth_error (analysisResults this') i = Some frame ->
         time frame == inject_Z (Z.of_nat i) / resolution.
Proof.
  intros Hbuf Hd Hsuspend Hfuel. unfold analyzeAudio. rewrite Hbuf. unfold floor in *.
  destruct (processChunk_runs suspend (duration buffer) resolution Hd Hsuspend
              (Z.to_nat (Qfloor (duration buffer * resolution))) fuel
              (set_analysisResults this []) 0%Z 0)
    as (this' & new & Hrun & Hres & Hdone & Hlen & Htimes).
  - lia.
  - now rewrite Z.sub_0_r.
  - exact Hfuel.
  - unfold Qdiv. now rewrite Qmult_0_l.
  - exists this'. cbn [analysisResults set_analysisResults app] in Hres.
    split; [exact Hrun |]. split; [exact Hdone |]. rewrite Hres.
    split; [exact Hlen |].
    intros i frame Hframe. now rewrite (Htimes i frame Hframe), Z.add_0_l.
Qed.

(** When [d * r] is whole, the last suspension falls on the end of
    rendering. *)
Lemma last_suspension (d r t : Q) (k : Z) :
  0 <= d -> (0 <= k)%Z -> (k + 1 = Qfloor (d * r))%Z ->
  inject_Z (Qfloor (d * r)) == d * r ->
  t == inject_Z k / r ->
  d <= Qmin (t + 1 / r) d.
Proof.
  intros Hd Hk Hlast Hwhole Ht.
  assert (Hlt : (k < Qfloor (d * r))%Z) by lia.
  pose proof (resolution_positive d r k Hd Hk Hlt) as Hr.
  assert (Hne : ~ r == 0) by (intro E; rewrite E in Hr; discriminate).
  rewrite (next_time d r t k Hd Hk Hlt Ht), Hlast, Hwhole.
  apply Qle_shift_div_l; [exact Hr | apply Qle_refl].
Qed.

(** The rounds of [processChunk] when [d * r] is whole and the context
    rejects a suspension at the end of rendering: from point [k] at time
    [k / r], with [n + 1] points to go, it never resolves; it stops at a
    suspension that is not honoured, the last one if none before, and leaves
    the promise pending. *)
Lemma processChunk_stuck (suspend : Q -> option (Uint8Array * Uint8Array))
    (d r : Q) (Hd : 0 <= d)
    (Hwhole : inject_Z (Qfloor (d * r)) == d * r)
    (Hend : rendersFor suspend d) :
  forall (n fuel : nat) (this : Processor) (k : Z) (t : Q),
    (0 <= k)%Z ->
    S n = Z.to_nat (Qfloor (d * r) - k) ->
    t == inject_Z k / r ->
    (forall frames this',
        processChunk suspend fuel (Qfloor (d * r)) (1 / r) d this k t
        <> Some (Resolved frames, this'))
    /\ ((n < fuel)%nat ->
        exists this' new,
          processChunk suspend fuel (Qfloor (d * r)) (1 / r) d this k t
            = Some (Pending, this')
          /\ analysisResults this' = analysisResults this ++ new
          /\ analysisDone this' = analysisDone this
          /\ (length new <= n)%nat
          /\ (forall i f, nth_error new i = Some f ->
                time f == inject_Z (k + Z.of_nat i) / r)
          /\ (honoured suspend r (Qfloor (d * r) - 1) -> length new = n)).
Proof.
  induction n as [| n IH]; intros fuel this k t Hk Hn Ht;
    (destruct fuel as [| fuel];
     [split; [intros frames this'; discriminate | lia] |]); cbn [processChunk];
    (assert (Hge : (k >=? Qfloor (d * r))%Z = false)
       by (rewrite Z.geb_leb; apply Z.leb_gt; lia));
    rewrite Hge.
  - assert (Hlast : (k + 1 = Qfloor (d * r))%Z) by lia.
    rewrite (Hend _ (last_suspension d r t k Hd Hk Hlast Hwhole Ht)).
    split; [intros frames this'; discriminate |]. intros _.
    exists this, []. rewrite app_nil_r. repeat split.
    + cbn [length]. lia.
    + intros [| i] f; discriminate.
  - assert (Hlt : (k < Qfloor (d * r))%Z) by lia.
    pose proof (next_time d r t k Hd Hk Hlt Ht) as Hnext.
    destruct (suspend (Qmin (t + 1 / r) d)) as [[fd td] |] eqn:Hs.
    + match goal with
      | |- context [processChunk _ _ _ _ _ ?th _ _] => set (this1 := th)
      end.
      destruct (IH fuel this1 (k + 1)%Z (Qmin (t + 1 / r) d)) as [Hnever Hpending];
        [lia | lia | exact Hnext |].
      split; [exact Hnever |]. intro Hfuel.
      destruct Hpending as (this' & new & Hrun & Hres & Hdone & Hlen & Htimes & Hall);
        [lia |].
      exists this'.
      subst this1. cbn [analysisResults analysisDone set_analysisResults] in Hres, Hdone.
      rewrite <- app_assoc in Hres. cbn [app] in Hres.
      eexists. split; [exact Hrun |]. split; [exact Hres |].
      split; [exact Hdone |]. split; [cbn [length]; lia |]. split.
      * intros [| i] f Hf; cbn [nth_error] in Hf.
        -- injection Hf as <-. cbn [time]. now rewrite Z.add_0_r.
        -- rewrite (Htimes i f Hf).
           replace (k + 1 + Z.of_nat i)%Z with (k + Z.of_nat (S i))%Z by lia.
           reflexivity.
      * intro Hhonoured. cbn [length]. now rewrite (Hall Hhonoured).
    + split; [intros frames this'; discriminate |]. intros _.
      exists this, []. rewrite app_nil_r. repeat split.
      * cbn [length]. lia.
      * intros [| i] f; discriminate.
      * intro Hhonoured. exfalso.
        apply (Hhonoured (k + 1)%Z (Qmin (t + 1 / r) d)); [lia | exact Hnext | exact Hs].
Qed.

(** C1, as the code has it.  The suspension for point [i] is asked at
    [(i + 1) / r], not at [i / r].  So when [d * r] is a whole number, one or
    more, the last suspension falls on the end of rendering, which the
    offline context rejects: then [analyzeAudio(r)] never resolves, whatever
    the fuel.  Its promise is left pending, [analysisDone] is not set, and
    fewer than [floor (d * r)] frames are stored, the frame at index [i]
    stamped [i / r]: one frame short when every earlier suspension is
    honoured. *)
Theorem analysis_stays_pending
    (suspend : Q -> option (Uint8Array * Uint8Array)) (this : Processor)
    (buffer : AudioBuffer) (resolution : Q) :
  audioBuffer this = Some buffer ->
  0 <= duration buffer ->
  (0 < floor (duration buffer * resolution))%Z ->
  inject_Z (floor (duration buffer * resolution)) == duration buffer * resolution ->
  rendersFor suspend (duration buffer) ->
  (forall fuel frames this',
      analyzeAudio suspend fuel this resolution <> Some (Resolved frames, this'))
  /\ (forall fuel,
        (Z.to_nat (floor (duration buffer * resolution)) <= fuel)%nat ->
        exists this',
          analyzeAudio suspend fuel this resolution = Some (Pending, this')
          /\ analysisDone this' = analysisDone this
          /\ (length (analysisResults this')
              < Z.to_nat (floor (duration buffer * resolution)))%nat
          /\ (forall i frame,
                nth_error (analysisResults this') i = Some frame ->
                time frame == inject_Z (Z.of_nat i) / resolution)
          /\ (honoured suspend resolution (floor (duration buffer * resolution) - 1) ->
              length (analysisResults this')
              = Z.to_nat (floor (duration buffer * resolution) - 1))).
Proof.
  intros Hbuf Hd Hpoints Hwhole Hend. unfold analyzeAudio. rewrite Hbuf.
  unfold floor in *. cbv zeta.
  set (n := Z.to_nat (Qfloor (duration buffer * resolution) - 1)).
  assert (Hn : S n = Z.to_nat (Qfloor (duration buffer * resolution) - 0)) by lia.
  assert (Ht : 0 == inject_Z 0 / resolution) by (unfold Qdiv; now rewrite Qmult_0_l).
  split.
  - intros fuel frames this'.
    apply (proj1 (processChunk_stuck suspend (duration buffer) resolution Hd Hwhole Hend
                    n fuel (set_analysisResults this []) 0%Z 0 (Z.le_refl 0) Hn Ht)).
  - intros fuel Hfuel.
    destruct (proj2 (processChunk_stuck suspend (duration buffer) resolution Hd Hwhole Hend
                       n fuel (set_analysisResults this []) 0%Z 0 (Z.le_refl 0) Hn Ht))
      as (this' & new & Hrun & Hres & Hdone & Hlen & Htimes & Hall); [lia |].
    cbn [analysisResults analysisDone set_analysisResults app] in Hres, Hdone.
    exists this'. rewrite Hres. split; [exact Hrun |]. split; [exact Hdone |].
    split; [lia |]. split.
    + intros i frame Hframe. now rewrite (Htimes i frame Hframe), Z.add_0_l.
    + intro Hhonoured. now rewrite (Hall Hhonoured).
Qed.

(** C8.  Without a decoded buffer [analyzeAudio] rejects at once, whatever
    the fuel, with the no-audio error, and the processor, [analysisResults]
    and [analysisDone] included, is what it was. *)
Theorem analysis_without_buffer
    (suspend : Q -> option (Uint8Array * Uint8Array)) (this : Processor)
    (resolution : Q) (fuel : nat) :
  audioBuffer this = None ->
  exists this',
    analyzeAudio suspend fuel this resolution = Some (Rejected noAudioBuffer, this')
    /\ this' = this
    /\ analysisResults this' = analysisResults this
    /\ analysisDone this' = analysisDone this.
Proof.
  intro Hnone. exists this. unfold analyzeAudio. rewrite Hnone. repeat split.
Qed.

Lemma rendering_ends (d : Q) : rendersFor (rendering d) d.
Proof.
  intros t Ht. unfold rendering. now rewrite (proj2 (Qle_bool_iff d t) Ht).
Qed.

(** One second at four points per second: the fourth suspension is asked at
    one second, the end of rendering. *)
Lemma analysis_stays_pending_witness :
  (forall fuel frames this',
      analyzeAudio (rendering 1) fuel short 4 <> Some (Resolved frames, this'))
  /\ (forall fuel,
        (Z.to_nat (floor (duration oneSecond * 4)) <= fuel)%nat ->
        exists this',
          analyzeAudio (rendering 1) fuel short 4 = Some (Pending, this')
          /\ analysisDone this' = analysisDone short
          /\ (length (analysisResults this') < Z.to_nat (floor (duration oneSecond * 4)))%nat
          /\ (forall i frame,
                nth_error (analysisResults this') i = Some frame ->
                time frame == inject_Z (Z.of_nat i) / 4)
          /\ (honoured (rendering 1) 4 (floor (duration oneSecond * 4) - 1) ->
              length (analysisResults this')
              = Z.to_nat (floor (duration oneSecond * 4) - 1))).
Proof.
  apply (analysis_stays_pending (rendering 1) short oneSecond 4).
  - reflexivity.
  - unfold Qle; simpl; lia.
  - reflexivity.
  - reflexivity.
  - apply rendering_ends.
Defined.

(** A processor that has loaded nothing. *)
Lemma analysis_without_buffer_witness :
  exists this',
    analyzeAudio silence 0 idle 10 = Some (Rejected noAudioBuffer, this')
    /\ this' = idle
    /\ analysisResults this' = analysisResults idle
    /\ analysisDone this' = analysisDone idle.
Proof. apply (analysis_without_buffer silence idle 10 0). reflexivity. Defined.

End Pipeline.

(** ** The feature extractor *)

Section Features.
Import JSNum AudioProcessor BandSpec.
Local Open Scope Q_scope.

Lemma get_inside (a : Uint8Array) (i : Z) (b : byte) :
  (0 <= i)%Z -> nth_error a (Z.to_nat i) = Some b ->
  get a i = fin (inject_Z (u8 b)).
Proof.
  intros Hi Hb. unfold get.
  assert (E : (i <? 0)%Z = false) by (apply Z.ltb_ge; exact Hi).
  now rewrite E, Hb.
Qed.

Lemma firstn_skipn_cons {A : Type} (l : list A) (i n : nat) (b : A) :
  nth_error l i = Some b ->
  firstn (S n) (skipn i l) = b :: firstn n (skipn (S i) l).
Proof.
  revert i. induction l as [| a l IH]; intros [| i] H; simpl in *; try discriminate.
  - now inversion H.
  - rewrite <- (IH i H). reflexivity.
Qed.

(** The accumulation loop of [calculateBandEnergies] adds up the normalized
    bins it walks over. *)
Lemma energy_loop (spectrum : Uint8Array) :
  forall (n : nat) (i : Z) (acc : Q),
    (0 <= i)%Z -> (Z.to_nat i + n <= length spectrum)%nat ->
    exists q,
      for_range n i (fun i energy => nadd energy (ndiv (get spectrum i) (fin 255))) (fin acc)
        = fin q
      /\ q == acc + total (map normalized (firstn n (skipn (Z.to_nat i) spectrum))).
Proof.
  induction n as [| n IH]; intros i acc Hi Hlen.
  - exists acc. split; [reflexivity |]. simpl. ring.
  - destruct (nth_error spectrum (Z.to_nat i)) as [b |] eqn:Hb.
    2:{ apply nth_error_None in Hb. lia. }
    cbn [for_range]. rewrite (get_inside _ _ _ Hi Hb).
    destruct (IH (i + 1)%Z (acc + normalized b)) as (q & Hq & Hsum); [lia | lia |].
    exists q. split.
    + exact Hq.
    + rewrite Hsum. replace (Z.to_nat (i + 1)) with (S (Z.to_nat i)) by lia.
      rewrite (firstn_skipn_cons _ _ _ _ Hb). simpl. ring.
Qed.

Lemma bins_length (lo hi : Z) (spectrum : Uint8Array) :
  (0 <= lo <= hi)%Z -> (hi < Z.of_nat (length spectrum))%Z ->
  length (bins lo hi spectrum) = Z.to_nat (hi - lo + 1).
Proof.
  intros H1 H2. unfold bins. rewrite length_firstn, length_skipn. lia.
Qed.

Lemma floor_nonneg (q : Q) : 0 <= q -> (0 <= floor q)%Z.
Proof.
  intro H. change 0%Z with (Qfloor 0). now apply Qfloor_resp_le.
Qed.

Lemma bandEnergy_mean (rate : Q) (spectrum : Uint8Array) (band : CONFIG.Band) :
  0 < rate ->
  0 <= CONFIG.min band -> CONFIG.min band <= CONFIG.max band ->
  (floor (CONFIG.max band / (rate / 2) * inject_Z (Z.of_nat (length spectrum)))
   < Z.of_nat (length spectrum))%Z ->
  num_eq (bandEnergy rate spectrum band) (fin (bandMean floor rate spectrum band)).
Proof.
  intros Hrate Hmin Hle Hmax.
  unfold bandEnergy, bandMean, array_length.
  set (size := inject_Z (Z.of_nat (length spectrum))) in *.
  assert (Hsize : 0 <= size) by (unfold size; rewrite <- (Zle_Qle 0); lia).
  assert (Hny : 0 < rate / 2) by (apply Qlt_shift_div_l; [reflexivity | now rewrite Qmult_0_l]).
  assert (Hscale : forall a b, a <= b -> a / (rate / 2) * size <= b / (rate / 2) * size).
  { intros a b Hab. apply Qmult_le_compat_r; [| exact Hsize].
    apply Qmult_le_compat_r; [exact Hab |]. apply Qlt_le_weak, Qinv_lt_0_compat, Hny. }
  set (lo := floor (CONFIG.min band / (rate / 2) * size)) in *.
  set (hi := floor (CONFIG.max band / (rate / 2) * size)) in *.
  assert (Hlo : (0 <= lo)%Z).
  { apply floor_nonneg.
    setoid_replace 0 with (0 / (rate / 2) * size) by (unfold Qdiv; ring).
    now apply Hscale. }
  assert (Hlohi : (lo <= hi)%Z) by (apply Qfloor_resp_le, Hscale, Hle).
  unfold for_loop.
  destruct (energy_loop spectrum (Z.to_nat (hi + 1 - lo)) lo 0 Hlo) as (q & Hq & Hsum);
    [lia |].
  rewrite Hq. unfold ndiv, fin.
  assert (Hcount : Qeq_bool (inject_Z (hi - lo + 1)) 0 = false).
  { apply not_true_is_false. intro E. apply Qeq_bool_eq in E.
    change 0 with (inject_Z 0) in E. apply (proj1 (inject_Z_injective _ _)) in E. lia. }
  rewrite Hcount. simpl.
  unfold mean. rewrite length_map, bins_length by lia.
  rewrite Z2Nat.id by lia. rewrite Hsum. unfold bins.
  replace (hi + 1 - lo)%Z with (hi - lo + 1)%Z by lia.
  rewrite Qplus_0_l. reflexivity.
Qed.

(** C4, as the code has it.  With a positive sample rate and every bin of
    every band inside the spectrum, [calculateBandEnergies] yields one entry
    per band, in the order of the bands, and the entry of a band is the mean
    of the normalized magnitudes of the bins from [floor (min / nyquist * n)]
    to [floor (max / nyquist * n)], both included. *)
Theorem band_energies_average_floor_bins
    (bands : list CONFIG.Band) (rate : Q) (spectrum : Uint8Array) :
  0 < rate ->
  binsInside bands rate spectrum ->
  length (calculateBandEnergiesOver bands rate spectrum) = length bands
  /\ Forall2 num_eq (calculateBandEnergiesOver bands rate spectrum)
                    (bandMeans floor bands rate spectrum).
Proof.
  intros Hrate Hin. unfold calculateBandEnergiesOver, bandMeans.
  split; [apply length_map |].
  induction Hin as [| band bands (Hmin & Hle & Hmax) _ IH]; cbn [map]; constructor.
  - now apply bandEnergy_mean.
  - exact IH.
Qed.

(** C4, as stated, fails: at 44100 Hz the band from 20 Hz to 60 Hz covers
    the bins 0 to 2, not the bins 1 to 3 that rounding would give, so a
    spectrum with all its energy in bin 0 tells the two apart. *)
Lemma round_bins_differ :
  ~ Forall2 num_eq (calculateBandEnergies idle spike)
                   (bandMeans round CONFIG.frequencyBands (sampleRate idle) spike).
Proof.
  intro H. unfold calculateBandEnergies, calculateBandEnergiesOver, bandMeans in H.
  cbn [sampleRate idle CONFIG.frequencyBands map] in H.
  inversion H as [| a b l l' Hhead _]; subst.
  vm_compute in Hhead. discriminate.
Qed.

Lemma u8_bounds (b : byte) : (0 <= u8 b <= 255)%Z.
Proof. unfold u8. pose proof (Byte.to_N_bounded b). lia. Qed.

Lemma normalized_unit (b : byte) : 0 <= normalized b /\ normalized b <= 1.
Proof.
  unfold normalized. destruct (u8_bounds b) as [Hlo Hhi]. split.
  - apply Qle_shift_div_l; [reflexivity |]. rewrite Qmult_0_l.
    change 0 with (inject_Z 0). now rewrite <- Zle_Qle.
  - apply Qle_shift_div_r; [reflexivity |]. rewrite Qmult_1_l.
    change 255 with (inject_Z 255). now rewrite <- Zle_Qle.
Qed.

Lemma total_bounds (l : list Q) :
  Forall (fun q => 0 <= q /\ q <= 1) l ->
  0 <= total l /\ total l <= inject_Z (Z.of_nat (length l)).
Proof.
  induction 1 as [| q l [Hlo Hhi] _ [IHlo IHhi]]; cbn [total fold_right length].
  - split; apply Qle_refl.
  - fold (total l). rewrite Nat2Z.inj_succ, <- Z.add_1_l, inject_Z_plus. split.
    + setoid_replace 0 with (0 + 0) by ring. now apply Qplus_le_compat.
    + now apply Qplus_le_compat.
Qed.

Lemma mean_unit (l : list Q) :
  l <> [] -> Forall (fun q => 0 <= q /\ q <= 1) l -> 0 <= mean l /\ mean l <= 1.
Proof.
  intros Hne Hall. destruct (total_bounds l Hall) as [Hlo Hhi]. unfold mean.
  assert (Hpos : 0 < inject_Z (Z.of_nat (length l))).
  { change 0 with (inject_Z 0). rewrite <- Zlt_Qlt. destruct l; [congruence | simpl; lia]. }
  split.
  - apply Qle_shift_div_l; [exact Hpos |]. now rewrite Qmult_0_l.
  - apply Qle_shift_div_r; [exact Hpos |]. now rewrite Qmult_1_l.
Qed.

Lemma in_range_num_eq (lo hi q : Q) (a : num) :
  num_eq a (fin q) -> lo <= q /\ q <= hi -> in_range lo hi a.
Proof.
  destruct a as [x |]; simpl; [| tauto]. intros E [Hlo Hhi]. rewrite E. now split.
Qed.

(** With every bin of every band inside the spectrum, each band energy is a
    number of the unit interval. *)
Lemma band_energies_unit_interval
    (bands : list CONFIG.Band) (rate : Q) (spectrum : Uint8Array) :
  0 < rate ->
  binsInside bands rate spectrum ->
  Forall (in_range 0 1) (calculateBandEnergiesOver bands rate spectrum).
Proof.
  intros Hrate Hin. unfold calculateBandEnergiesOver.
  induction Hin as [| band bands (Hmin & Hle & Hmax) _ IH]; cbn [map]; constructor;
    [| exact IH].
  apply in_range_num_eq with (q := bandMean floor rate spectrum band).
  - now apply bandEnergy_mean.
  - unfold bandMean. apply mean_unit.
    + set (size := inject_Z (Z.of_nat (length spectrum))) in *.
      assert (Hsize : 0 <= size) by (unfold size; rewrite <- (Zle_Qle 0); lia).
      assert (Hny : 0 < rate / 2)
        by (apply Qlt_shift_div_l; [reflexivity | now rewrite Qmult_0_l]).
      assert (Hscale : forall a b, a <= b -> a / (rate / 2) * size <= b / (rate / 2) * size).
      { intros a b Hab. apply Qmult_le_compat_r; [| exact Hsize].
        apply Qmult_le_compat_r; [exact Hab |].
        apply Qlt_le_weak, Qinv_lt_0_compat, Hny. }
      assert (Hlo : (0 <= floor (CONFIG.min band / (rate / 2) * size))%Z).
      { apply floor_nonneg.
        setoid_replace 0 with (0 / (rate / 2) * size) by (unfold Qdiv; ring).
        now apply Hscale. }
      assert (Hlohi : (floor (CONFIG.min band / (rate / 2) * size)
                       <= floor (CONFIG.max band / (rate / 2) * size))%Z)
        by (apply Qfloor_resp_le, Hscale, Hle).
      intro E. apply (f_equal (@length Q)) in E.
      rewrite length_map, bins_length in E by lia. cbn [length] in E. lia.
    + apply Forall_forall. intros q Hq. apply in_map_iff in Hq.
      destruct Hq as (b & <- & _). apply normalized_unit.
Qed.

(** A loop that adds one magnitude-sized term per round. *)
Lemma bounded_loop (v : Z -> num) :
  forall (n : nat) (i : Z) (acc : Q),
    (forall j, (i <= j < i + Z.of_nat n)%Z -> exists q, v j = fin q /\ 0 <= q /\ q <= 255) ->
    exists q,
      for_range n i (fun i a => nadd a (v i)) (fin acc) = fin q
      /\ acc <= q /\ q <= acc + 255 * inject_Z (Z.of_nat n).
Proof.
  induction n as [| n IH]; intros i acc Hv.
  - exists acc. split; [reflexivity |]. split; [apply Qle_refl |].
    simpl. rewrite Qmult_0_r, Qplus_0_r. apply Qle_refl.
  - destruct (Hv i) as (q0 & Hq0 & Hlo & Hhi); [lia |].
    cbn [for_range]. rewrite Hq0. cbn [nadd lift2 fin].
    destruct (IH (i + 1)%Z (acc + q0)) as (q & Hq & Hql & Hqh).
    { intros j Hj. apply Hv. lia. }
    exists q. split; [exact Hq |]. split.
    + eapply Qle_trans; [| exact Hql].
      setoid_replace acc with (acc + 0) at 1 by ring.
      apply Qplus_le_compat; [apply Qle_refl | exact Hlo].
    + eapply Qle_trans; [exact Hqh |].
      rewrite Nat2Z.inj_succ, <- Z.add_1_l, inject_Z_plus.
      setoid_replace (acc + 255 * (inject_Z 1 + inject_Z (Z.of_nat n)))
        with (acc + 255 + 255 * inject_Z (Z.of_nat n)) by ring.
      apply Qplus_le_compat; [| apply Qle_refl].
      apply Qplus_le_compat; [apply Qle_refl | exact Hhi].
Qed.

Lemma get_magnitude (a : Uint8Array) (i : Z) :
  (0 <= i < Z.of_nat (length a))%Z ->
  exists q, get a i = fin q /\ 0 <= q /\ q <= 255.
Proof.
  intros [Hlo Hhi].
  destruct (nth_error a (Z.to_nat i)) as [b |] eqn:Hb.
  2:{ apply nth_error_None in Hb. lia. }
  exists (inject_Z (u8 b)). split; [now apply get_inside |].
  destruct (u8_bounds b). split.
  - change 0 with (inject_Z 0). now rewrite <- Zle_Qle.
  - change 255 with (inject_Z 255). now rewrite <- Zle_Qle.
Qed.

Lemma ratio_unit (q n : Q) : 0 < n -> 0 <= q -> q <= n -> 0 <= q / n /\ q / n <= 1.
Proof.
  intros Hn Hlo Hhi. split.
  - apply Qle_shift_div_l; [exact Hn |]. now rewrite Qmult_0_l.
  - apply Qle_shift_div_r; [exact Hn |]. now rewrite Qmult_1_l.
Qed.

Lemma positive_not_zero (n : Q) : 0 < n -> Qeq_bool n 0 = false.
Proof.
  intro Hn. apply not_true_is_false. intro E. apply Qeq_bool_eq in E.
  rewrite E in Hn. discriminate.
Qed.

(** With the bass bins inside the spectrum, at least one of them, and a
    waveform that is not empty, the beat intensity is a number of the unit
    interval. *)
Lemma detect_beat_unit_interval (rate : Q) (frequencyData timeData : Uint8Array) :
  (0 < floor (150 / (rate / 2) * array_length frequencyData)
     <= Z.of_nat (length frequencyData))%Z ->
  timeData <> [] ->
  in_range 0 1 (detectBeatAt rate frequencyData timeData).
Proof.
  intros [Hpos Hmax] Hne. unfold detectBeatAt.
  set (maxIndex := floor (150 / (rate / 2) * array_length frequencyData)) in *.
  unfold for_loop.
  destruct (bounded_loop (get frequencyData) (Z.to_nat (maxIndex - 0)) 0 0)
    as (e & He & Helo & Hehi).
  { intros j Hj. apply get_magnitude. lia. }
  destruct (bounded_loop
              (fun i => nabs (nsub (get timeData i) (get timeData (i - 1))))
              (Z.to_nat (Z.of_nat (length timeData) - 1)) 1 0)
    as (t & Ht & Htlo & Hthi).
  { intros j Hj.
    destruct (get_magnitude timeData j) as (a & Ha & Ha0 & Ha1); [lia |].
    destruct (get_magnitude timeData (j - 1)) as (b & Hb & Hb0 & Hb1); [lia |].
    rewrite Ha, Hb. exists (Qabs (a - b)). split; [reflexivity |].
    split; [apply Qabs_nonneg |].
    apply Qabs_Qle_condition. split.
    - apply Qle_minus_iff.
      setoid_replace (a - b + - - 255) with (a + (255 - b)) by ring.
      setoid_replace 0 with (0 + 0) by ring.
      apply Qplus_le_compat; [exact Ha0 |].
      apply -> Qle_minus_iff. exact Hb1.
    - apply Qle_minus_iff.
      setoid_replace (255 + - (a - b)) with ((255 - a) + b) by ring.
      setoid_replace 0 with (0 + 0) by ring.
      apply Qplus_le_compat; [| exact Hb0].
      apply -> Qle_minus_iff. exact Ha1. }
  rewrite He, Ht.
  assert (Hlen : (0 < Z.of_nat (length timeData))%Z)
    by (destruct timeData; [congruence | simpl; lia]).
  assert (Hn1 : 0 < inject_Z maxIndex * 255).
  { setoid_replace 0 with (0 * 255) by ring.
    apply Qmult_lt_compat_r; [reflexivity |].
    change 0 with (inject_Z 0). now rewrite <- Zlt_Qlt. }
  assert (Hn2 : 0 < 255 * array_length timeData).
  { setoid_replace 0 with (255 * 0) by ring. rewrite !(Qmult_comm 255).
    apply Qmult_lt_compat_r; [reflexivity |].
    unfold array_length. change 0 with (inject_Z 0). now rewrite <- Zlt_Qlt. }
  unfold ndiv, fin. rewrite (positive_not_zero _ Hn1), (positive_not_zero _ Hn2).
  rewrite Z.sub_0_r, Z2Nat.id in Hehi by lia.
  rewrite Z2Nat.id in Hthi by lia.
  rewrite Qplus_0_l in Hehi, Hthi.
  destruct (ratio_unit e (inject_Z maxIndex * 255) Hn1 Helo) as [E0 E1].
  { now rewrite Qmult_comm. }
  destruct (ratio_unit t (255 * array_length timeData) Hn2 Htlo) as [T0 T1].
  { eapply Qle_trans; [exact Hthi |].
    rewrite !(Qmult_comm 255). apply Qmult_le_compat_r; [| discriminate].
    unfold array_length. rewrite <- Zle_Qle. lia. }
  cbn [nmul nadd nmin lift2 in_range].
  set (E := e / (inject_Z maxIndex * 255)) in *.
  set (T := t / (255 * array_length timeData)) in *.
  assert (Hsum : 0 <= E * (7 # 10) + T * (3 # 10)).
  { setoid_replace 0 with (0 * (7 # 10) + 0 * (3 # 10)) by ring.
    apply Qplus_le_compat; apply Qmult_le_compat_r; try assumption; discriminate. }
  split.
  - apply Q.min_glb; [discriminate | exact Hsum].
  - apply Q.le_min_l.
Qed.

(** C5, where the code leaves the unit interval.  At a sample rate of
    22050 Hz the band that ends at 20000 Hz reads bins past the end of a
    1024-bin spectrum and its energy is [NaN]; on empty arrays [detectBeat]
    divides zero by zero and is [NaN] too. *)
Theorem energies_not_numbers :
  nth_error (calculateBandEnergies lowRate silent) 5 = Some NaN
  /\ detectBeat idle [] [] = NaN.
Proof. split; vm_compute; reflexivity. Qed.

(** The configured bands at 44100 Hz. *)
Lemma band_energies_average_floor_bins_witness :
  length (calculateBandEnergiesOver CONFIG.frequencyBands 44100 spike)
  = length CONFIG.frequencyBands
  /\ Forall2 num_eq (calculateBandEnergiesOver CONFIG.frequencyBands 44100 spike)
                    (bandMeans floor CONFIG.frequencyBands 44100 spike).
Proof.
  apply (band_energies_average_floor_bins CONFIG.frequencyBands 44100 spike).
  - reflexivity.
  - unfold binsInside, CONFIG.frequencyBands.
    repeat (apply Forall_cons; [repeat split; vm_compute; congruence |]).
    apply Forall_nil.
Defined.

End Features.

(** ** The track path *)

Section Path.
Import RNum THREE TrackGenerator PathSpec.
Local Open Scope R_scope.

Lemma leadIn_length (this : TrackGenerator) : List.length (leadIn this) = 10%nat.
Proof. reflexivity. Qed.

Lemma pathStep_path_length this i a s :
  List.length (path (pathStep this i a s)) = S (List.length (path s)).
Proof. unfold pathStep; simpl. rewrite length_app; simpl. lia. Qed.

Lemma pathStep_segments_length this i a s :
  (0 <= i)%Z ->
  Z.of_nat (List.length (segments (pathStep this i a s)))
  = (Z.of_nat (List.length (segments s)) + ((i + 4) / 4 - (i + 3) / 4))%Z.
Proof.
  intro Hi. unfold pathStep; cbn [segments]. unfold pointsPerSegment.
  destruct (i mod 4 =? 0)%Z eqn:E.
  - apply Z.eqb_eq in E. rewrite length_app; simpl.
    Z.div_mod_to_equations. lia.
  - apply Z.eqb_neq in E. Z.div_mod_to_equations. lia.
Qed.

Lemma pathLoop_lengths this :
  forall frames i s,
    (0 <= i)%Z ->
    List.length (path (pathLoop this i frames s))
      = (List.length (path s) + List.length frames)%nat
    /\ Z.of_nat (List.length (segments (pathLoop this i frames s)))
       = (Z.of_nat (List.length (segments s))
          + ((i + Z.of_nat (List.length frames) + 3) / 4 - (i + 3) / 4))%Z.
Proof.
  induction frames as [| a frames IH]; intros i s Hi; cbn [pathLoop List.length].
  - split; [lia |]. replace (i + Z.of_nat 0 + 3)%Z with (i + 3)%Z by lia. lia.
  - destruct (IH (i + 1)%Z (pathStep this i a s)) as [Hp Hs]; [lia |].
    rewrite Hp, Hs, pathStep_path_length, pathStep_segments_length by exact Hi.
    split; [lia |].
    replace (i + 1 + Z.of_nat (List.length frames) + 3)%Z
      with (i + Z.of_nat (S (List.length frames)) + 3)%Z by lia.
    replace (i + 1 + 3)%Z with (i + 4)%Z by lia.
    lia.
Qed.

Lemma generated_lengths this frames :
  List.length (trackPath (generateTrackPath this frames)) = (10 + List.length frames)%nat
  /\ List.length (trackSegments (generateTrackPath this frames))
     = ((List.length frames + 3) / 4)%nat.
Proof.
  unfold generateTrackPath; cbn [trackPath trackSegments set_track].
  destruct (pathLoop_lengths this frames 0 (initialState this)) as [Hp Hs]; [lia |].
  split; [rewrite Hp; reflexivity |].
  apply Nat2Z.inj. rewrite Hs. cbn [initialState segments List.length].
  rewrite Nat2Z.inj_div, Nat2Z.inj_add.
  change (Z.of_nat 3) with 3%Z. change (Z.of_nat 4) with 4%Z.
  change (Z.of_nat 0) with 0%Z. change ((0 + 3) / 4)%Z with 0%Z.
  now rewrite Z.add_0_l, Z.sub_0_r.
Qed.

(** C10.  The path holds the ten lead-in points and one point per frame. *)
Theorem path_point_count this frames :
  List.length (trackPath (generateTrackPath this frames)) = (10 + List.length frames)%nat.
Proof. apply generated_lengths. Qed.

(** C2, as the code has it.  A segment is pushed for every frame whose
    index is a multiple of [pointsPerSegment], so [n] frames give
    [ceil (n / 4)] segments, written here [(n + 3) / 4]. *)
Theorem segment_count this frames :
  List.length (trackSegments (generateTrackPath this frames))
  = ((List.length frames + 3) / 4)%nat.
Proof. apply generated_lengths. Qed.

(** C2, as stated, fails: one frame already gives one segment, and
    [floor (1 / 4)] is zero. *)
Lemma segment_count_not_floor :
  List.length (trackSegments (generateTrackPath create [quiet]))
  <> (List.length [quiet] / 4)%nat.
Proof.
  rewrite (proj2 (generated_lengths create [quiet])). cbn. discriminate.
Qed.

Lemma four_nonzero : IZR pointsPerSegment <> 0.
Proof. unfold pointsPerSegment. lra. Qed.

Lemma ndiv_four (u : R) :
  ndiv (Some u) (Some (IZR pointsPerSegment)) = Some (u / IZR pointsPerSegment).
Proof.
  unfold ndiv. destruct (Req_dec_T (IZR pointsPerSegment) 0) as [E | _]; [| reflexivity].
  now destruct (four_nonzero E).
Qed.

Lemma ngt_false (u v : R) : u <= v -> ngt (fin u) (fin v) = false.
Proof. intro H. unfold ngt, fin. destruct (Rgt_dec u v); [lra | reflexivity]. Qed.

Lemma last_nth_error {A : Type} (l : list A) (d : A) :
  l <> [] -> nth_error l (List.length l - 1) = Some (last l d).
Proof.
  induction l as [| a l IH]; intro H; [congruence |].
  destruct l as [| b l]; [reflexivity |].
  replace (List.length (a :: b :: l) - 1)%nat with (S (List.length (b :: l) - 1))
    by (simpl; lia).
  cbn [nth_error]. rewrite IH by discriminate. reflexivity.
Qed.

(** The point that one round of the main loop appends. *)
Lemma pathStep_point this i a s :
  exists q,
    path (pathStep this i a s) = path s ++ [q]
    /\ rotation q
       = nadd (rotation (last (path s) originPoint)) (currentDirection (pathStep this i a s))
    /\ tilt q = currentTilt (pathStep this i a s)
    /\ x (position q)
       = nadd (x (position (last (path s) originPoint)))
              (ndiv (nmul (nsin (rotation q)) (fin (segmentLength this)))
                    (fin (IZR pointsPerSegment)))
    /\ y (position q)
       = nadd (y (position (last (path s) originPoint)))
              (currentElevation (pathStep this i a s))
    /\ z (position q)
       = nsub (z (position (last (path s) originPoint)))
              (ndiv (nmul (ncos (rotation q)) (fin (segmentLength this)))
                    (fin (IZR pointsPerSegment))).
Proof. eexists. repeat split. Qed.

Lemma pathLoop_extends this :
  forall frames i s, exists new, path (pathLoop this i frames s) = path s ++ new.
Proof.
  induction frames as [| a frames IH]; intros i s; cbn [pathLoop].
  - exists []. now rewrite app_nil_r.
  - destruct (IH (i + 1)%Z (pathStep this i a s)) as [new Hnew].
    destruct (pathStep_point this i a s) as (q & Hq & _).
    rewrite Hnew, Hq, <- app_assoc. now eexists.
Qed.

Lemma leadIn_points this :
  leadIn this = map (fun i => leadInPoint this (Z.of_nat i)) (seq 0 10).
Proof. reflexivity. Qed.

Lemma leadIn_nth this i p :
  nth_error (leadIn this) i = Some p -> (i < 10)%nat /\ p = leadInPoint this (Z.of_nat i).
Proof.
  intro H.
  assert (Hi : (i < List.length (leadIn this))%nat) by (apply nth_error_Some; congruence).
  change (List.length (leadIn this)) with 10%nat in Hi.
  split; [exact Hi |].
  rewrite leadIn_points, nth_error_map, nth_error_seq in H.
  destruct (Nat.ltb_spec i 10) as [_ | Hge]; [| lia].
  simpl in H. now inversion H.
Qed.

Lemma leadInPoint_onAxis this k : onAxis this k (leadInPoint this (Z.of_nat k)).
Proof.
  unfold onAxis, leadInPoint, stepLength; cbn. repeat split.
  rewrite <- INR_IZR_INZ. unfold fin. f_equal. pose proof four_nonzero. field. assumption.
Qed.

Lemma initialState_unbent this : unbent this (initialState this).
Proof.
  unfold unbent; cbn [initialState currentDirection targetDirection path].
  refine (conj eq_refl (conj eq_refl (conj _ _))).
  - discriminate.
  - intros k p H. apply leadIn_nth in H. destruct H as [_ ->]. apply leadInPoint_onAxis.
Qed.

Lemma pathStep_unbent this i a s :
  beatIntensity a = fin 0 -> unbent this s -> unbent this (pathStep this i a s).
Proof.
  intros Hbeat (Hcd & Htd & Hne & Hpts).
  assert (Htd' : targetDirection (pathStep this i a s) = fin 0).
  { unfold pathStep; cbn [targetDirection]. rewrite Hbeat, ngt_false by lra.
    rewrite Htd. unfold nmul, lift2, fin. f_equal. lra. }
  assert (Hcd' : currentDirection (pathStep this i a s) = fin 0).
  { change (currentDirection (pathStep this i a s))
      with (nadd (nmul (currentDirection s) (fin (9 / 10)))
                 (nmul (targetDirection (pathStep this i a s)) (fin (1 / 10)))).
    rewrite Hcd, Htd'. unfold nadd, nmul, lift2, fin. f_equal. lra. }
  destruct (pathStep_point this i a s) as (q & Hpath & Hrot & _ & Hx & _ & Hz).
  pose proof (last_nth_error (path s) originPoint Hne) as Hlast.
  destruct (Hpts _ _ Hlast) as (Lrot & Lx & Lz).
  assert (Hrot0 : rotation q = fin 0).
  { rewrite Hrot, Lrot, Hcd'. unfold nadd, lift2, fin. f_equal. lra. }
  refine (conj Hcd' (conj Htd' (conj _ _))).
  - rewrite Hpath. now destruct (path s).
  - intros k p Hk. rewrite Hpath in Hk.
    destruct (Nat.lt_ge_cases k (List.length (path s))) as [Hlt | Hge].
    + rewrite nth_error_app1 in Hk by exact Hlt. now apply Hpts.
    + rewrite nth_error_app2 in Hk by exact Hge.
      destruct (k - List.length (path s))%nat as [| m] eqn:E;
        [| destruct m; discriminate].
      cbn in Hk. inversion Hk; subst p.
      assert (Ek : k = S (List.length (path s) - 1)).
      { destruct (path s); [congruence | simpl in *; lia]. }
      pose proof four_nonzero as H4.
      refine (conj Hrot0 (conj _ _)).
      * rewrite Hx, Hrot0, Lx.
        unfold nsin, nmul, nadd, lift2, option_map, fin.
        rewrite sin_0, ndiv_four. f_equal. now field.
      * rewrite Hz, Hrot0, Lz.
        unfold ncos, nmul, nsub, lift2, option_map, fin.
        rewrite cos_0, ndiv_four. f_equal. rewrite Ek, S_INR. unfold stepLength.
        now field.
Qed.

Lemma pathLoop_unbent this :
  forall frames i s,
    Forall (fun a => beatIntensity a = fin 0) frames ->
    unbent this s -> unbent this (pathLoop this i frames s).
Proof.
  induction frames as [| a frames IH]; intros i s Hall Hs; cbn [pathLoop].
  - exact Hs.
  - inversion Hall; subst. apply IH; [assumption |]. now apply pathStep_unbent.
Qed.

Lemma adjacent_snoc (l : list PathPoint) (r p q : PathPoint) :
  l <> [] -> adjacent (l ++ [r]) p q ->
  adjacent l p q \/ (p = last l originPoint /\ q = r).
Proof.
  intros Hne (i & Hp & Hq).
  destruct (Nat.lt_ge_cases (S i) (List.length l)) as [Hlt | Hge].
  - left. exists i. rewrite nth_error_app1 in Hp, Hq by lia. now split.
  - right.
    assert (Hi : (S i < List.length (l ++ [r]))%nat) by (apply nth_error_Some; congruence).
    rewrite length_app in Hi; simpl in Hi.
    assert (Ei : i = (List.length l - 1)%nat) by lia.
    rewrite nth_error_app1 in Hp by (destruct l; [congruence | simpl in *; lia]).
    rewrite nth_error_app2 in Hq by lia.
    replace (S i - List.length l)%nat with 0%nat in Hq by lia. simpl in Hq.
    rewrite Ei, (last_nth_error l originPoint Hne) in Hp.
    split; congruence.
Qed.

Lemma pathStep_planar this i a s q :
  path (pathStep this i a s) = path s ++ [q] ->
  planarStep this (last (path s) originPoint) q.
Proof.
  intro Hpath.
  destruct (pathStep_point this i a s) as (q' & Hpath' & _ & _ & Hx & _ & Hz).
  rewrite Hpath in Hpath'. apply app_inj_tail in Hpath'. destruct Hpath' as [_ <-].
  intros x1 z1 x2 z2 Hx1 Hz1 Hx2 Hz2.
  rewrite Hx1, Hx2 in Hx. rewrite Hz1, Hz2 in Hz.
  destruct (rotation q) as [theta |]; [| discriminate].
  unfold nsin, ncos, nmul, nadd, nsub, lift2, option_map, fin in Hx, Hz.
  rewrite ndiv_four in Hx, Hz. inversion Hx; inversion Hz; subst x2 z2.
  pose proof (sin2_cos2 theta) as Hunit. unfold Rsqr in Hunit.
  pose proof four_nonzero as H4. unfold stepLength.
  transitivity ((sin theta * sin theta + cos theta * cos theta)
                * (segmentLength this / IZR pointsPerSegment
                   * (segmentLength this / IZR pointsPerSegment))).
  - now field.
  - rewrite Hunit. ring.
Qed.

Lemma leadIn_planar this p q : adjacent (leadIn this) p q -> planarStep this p q.
Proof.
  intros (i & Hp & Hq).
  apply leadIn_nth in Hp. apply leadIn_nth in Hq.
  destruct Hp as [_ ->]. destruct Hq as [_ ->].
  pose proof (leadInPoint_onAxis this i) as P. unfold onAxis in P.
  pose proof (leadInPoint_onAxis this (S i)) as Q. unfold onAxis in Q.
  destruct P as (_ & Px & Pz). destruct Q as (_ & Qx & Qz). rewrite S_INR in Qz.
  intros x1 z1 x2 z2 Hx1 Hz1 Hx2 Hz2.
  rewrite Px in Hx1. rewrite Pz in Hz1. rewrite Qx in Hx2. rewrite Qz in Hz2.
  unfold fin in *.
  injection Hx1 as <-. injection Hz1 as <-. injection Hx2 as <-. injection Hz2 as <-.
  ring.
Qed.

Lemma pathLoop_planar this :
  forall frames i s,
    path s <> [] ->
    (forall p q, adjacent (path s) p q -> planarStep this p q) ->
    forall p q, adjacent (path (pathLoop this i frames s)) p q -> planarStep this p q.
Proof.
  induction frames as [| a frames IH]; intros i s Hne Hs; cbn [pathLoop].
  - exact Hs.
  - destruct (pathStep_point this i a s) as (r & Hr & _).
    apply IH.
    + rewrite Hr. now destruct (path s).
    + intros p q Hadj. rewrite Hr in Hadj.
      destruct (adjacent_snoc _ _ _ _ Hne Hadj) as [Hold | [-> ->]].
      * now apply Hs.
      * now apply (pathStep_planar this i a s).
Qed.

Lemma generated_planar this frames p q :
  adjacent (trackPath (generateTrackPath this frames)) p q -> planarStep this p q.
Proof.
  unfold generateTrackPath; cbn [trackPath set_track].
  apply pathLoop_planar.
  - discriminate.
  - apply leadIn_planar.
Qed.

Lemma planar_distance this p q :
  planarStep this p q -> 0 <= segmentLength this ->
  horizontalDistance p q <> NaN ->
  horizontalDistance p q = fin (stepLength this).
Proof.
  intros Hstep Hlen Hfin. unfold horizontalDistance in *.
  destruct (x (position p)) as [x1 |] eqn:Ex1, (x (position q)) as [x2 |] eqn:Ex2;
    try (exfalso; apply Hfin; reflexivity).
  destruct (z (position p)) as [z1 |] eqn:Ez1, (z (position q)) as [z2 |] eqn:Ez2;
    try (exfalso; apply Hfin; reflexivity).
  specialize (Hstep x1 z1 x2 z2 Ex1 Ez1 Ex2 Ez2).
  unfold nsub, nmul, nadd, lift2, nsqrt, fin. rewrite Hstep.
  assert (Hs : 0 <= stepLength this).
  { unfold stepLength, pointsPerSegment. lra. }
  destruct (Rlt_dec (stepLength this * stepLength this) 0) as [Hneg | _]; [nra |].
  now rewrite sqrt_square.
Qed.

Lemma spatial_distance this p q d :
  planarStep this p q -> distance p q = fin d ->
  exists dy,
    nsub (y (position q)) (y (position p)) = fin dy
    /\ d = sqrt (stepLength this * stepLength this + dy * dy).
Proof.
  intros Hstep Hd. unfold distance, THREE.length, subVectors in Hd; cbn [x y z] in Hd.
  destruct (x (position p)) as [x1 |] eqn:Ex1, (x (position q)) as [x2 |] eqn:Ex2;
    try discriminate.
  destruct (y (position p)) as [y1 |] eqn:Ey1, (y (position q)) as [y2 |] eqn:Ey2;
    try discriminate.
  destruct (z (position p)) as [z1 |] eqn:Ez1, (z (position q)) as [z2 |] eqn:Ez2;
    try discriminate.
  specialize (Hstep x1 z1 x2 z2 Ex1 Ez1 Ex2 Ez2).
  exists (y2 - y1). split; [reflexivity |].
  unfold nsub, nmul, nadd, lift2, nsqrt, fin in Hd.
  destruct (Rlt_dec _ 0) as [_ | _] in Hd; [discriminate |].
  inversion Hd. f_equal. lra.
Qed.

Lemma quiet_target this : elevationTarget this [Byte.x80] = fin (-5).
Proof.
  unfold elevationTarget.
  change (amplitudeSum [Byte.x80]) with 0%Z.
  change (INR (List.length [Byte.x80])) with 1.
  unfold ndiv, nmul, nsub, lift2, fin.
  destruct (Req_dec_T 1 0) as [E | _]; [lra |].
  destruct (Req_dec_T 128 0) as [E | _]; [lra |].
  f_equal. field.
Qed.

Lemma quiet_elevation this i s e :
  currentElevation s = fin e ->
  currentElevation (pathStep this i quiet s) = fin (e * (95 / 100) - 5 * (5 / 100)).
Proof.
  intro He.
  change (currentElevation (pathStep this i quiet s))
    with (nadd (nmul (currentElevation s) (fin (95 / 100)))
               (nmul (elevationTarget this [Byte.x80]) (fin (5 / 100)))).
  rewrite He, quiet_target. unfold nadd, nmul, lift2, fin. f_equal. lra.
Qed.

(** C3, as stated, fails: on two frames of silence the elevation has
    started to sink, so the two points generated from them are further apart
    than one forward step. *)
Lemma uneven_spacing : ~ evenlySpaced (generateTrackPath create [quiet; quiet]).
Proof.
  intro Heven.
  set (s1 := pathStep create 0 quiet (initialState create)).
  set (s2 := pathStep create (0 + 1) quiet s1).
  destruct (pathStep_point create 0 quiet (initialState create))
    as (q1 & Hp1 & _ & _ & _ & Hy1 & _).
  destruct (pathStep_point create (0 + 1) quiet s1) as (q2 & Hp2 & _ & _ & _ & Hy2 & _).
  fold s1 in Hp1, Hy1. fold s2 in Hp2, Hy2.
  assert (He1 : currentElevation s1 = fin (0 * (95 / 100) - 5 * (5 / 100)))
    by (apply quiet_elevation; reflexivity).
  assert (He2 : currentElevation s2
                = fin ((0 * (95 / 100) - 5 * (5 / 100)) * (95 / 100) - 5 * (5 / 100)))
    by (apply quiet_elevation; exact He1).
  assert (Hlast1 : last (path s1) originPoint = q1) by (rewrite Hp1; apply last_last).
  rewrite Hlast1 in Hy2.
  change (y (position (last (path (initialState create)) originPoint))) with (fin 0) in Hy1.
  rewrite He1 in Hy1. rewrite Hy1, He2 in Hy2.
  assert (Hadj : adjacent (trackPath (generateTrackPath create [quiet; quiet])) q1 q2).
  { change (trackPath (generateTrackPath create [quiet; quiet])) with (path s2).
    rewrite Hp2, Hp1. exists 10%nat. split; reflexivity. }
  pose proof (Heven q1 q2 Hadj) as Hd.
  destruct (spatial_distance create q1 q2 _ (generated_planar _ _ _ _ Hadj) Hd)
    as (dy & Hdy & Hsqrt).
  rewrite Hy1, Hy2 in Hdy. unfold nadd, nsub, lift2, fin in Hdy.
  injection Hdy as Hdy.
  assert (Hsq : stepLength create * stepLength create
                = stepLength create * stepLength create + dy * dy).
  { rewrite Hsqrt at 1 2. rewrite sqrt_sqrt; [reflexivity | nra]. }
  nra.
Qed.

Lemma create_segmentLength : segmentLength create = 50.
Proof. unfold create, segmentLength, CONFIG.segmentLength, Q2R; simpl. field. Qed.

Lemma amplitudeSum_total (data : Uint8Array) :
  amplitudeSum data = fold_right Z.add 0%Z (map (fun b => Z.abs (u8 b - 128)) data).
Proof.
  unfold amplitudeSum.
  assert (H : forall acc,
             fold_left (fun sum b => (sum + Z.abs (u8 b - 128))%Z) data acc
             = (acc + fold_right Z.add 0 (map (fun b => Z.abs (u8 b - 128)) data))%Z).
  { induction data as [| b data IH]; intro acc; cbn [fold_left map fold_right]; [lia |].
    rewrite IH. lia. }
  rewrite H. lia.
Qed.

(** The elevation target of the code is the goal of the reference. *)
Lemma elevationTarget_mean this (data : Uint8Array) :
  data <> [] ->
  elevationTarget this data = fin (meanAmplitude data / 128 * hilliness this * 10 - 5).
Proof.
  intro Hne. unfold elevationTarget, meanAmplitude. rewrite amplitudeSum_total.
  assert (Hlen : INR (List.length data) <> 0).
  { destruct data; [congruence |]. apply not_0_INR. discriminate. }
  unfold ndiv, nmul, nsub, lift2, fin.
  destruct (Req_dec_T (INR (List.length data)) 0) as [E | _]; [contradiction |].
  destruct (Req_dec_T 128 0) as [E | _]; [lra |].
  reflexivity.
Qed.

Lemma pathStep_elevation this i a s (goal elevation : R) :
  waveformKnown a ->
  targetElevation s = fin goal -> currentElevation s = fin elevation ->
  targetElevation (pathStep this i a s) = fin (elevationGoal this goal a)
  /\ currentElevation (pathStep this i a s)
     = fin (elevation * (95 / 100) + elevationGoal this goal a * (5 / 100)).
Proof.
  intros Hwave Hgoal Hel.
  assert (Ht : targetElevation (pathStep this i a s) = fin (elevationGoal this goal a)).
  { unfold pathStep; cbn [targetElevation]. unfold elevationGoal, waveformKnown in *.
    destruct (timeData a) as [data |]; [| exact Hgoal].
    apply elevationTarget_mean. intros ->. now apply Hwave. }
  split; [exact Ht |].
  change (currentElevation (pathStep this i a s))
    with (nadd (nmul (currentElevation s) (fin (95 / 100)))
               (nmul (targetElevation (pathStep this i a s)) (fin (5 / 100)))).
  rewrite Hel, Ht. reflexivity.
Qed.

(** The heights of the points that the main loop appends. *)
Lemma pathLoop_heights this :
  forall frames i s (goal elevation height : R),
    Forall waveformKnown frames ->
    targetElevation s = fin goal -> currentElevation s = fin elevation ->
    path s <> [] ->
    y (position (last (path s) originPoint)) = fin height ->
    exists new,
      path (pathLoop this i frames s) = path s ++ new
      /\ map (fun p => y (position p)) new
         = map fin (risen height (climbs this goal elevation frames)).
Proof.
  induction frames as [| a frames IH]; intros i s goal elevation height Hall Hg He Hne Hy;
    cbn [pathLoop climbs]; cbv zeta.
  - exists []. now rewrite app_nil_r.
  - inversion Hall as [| a' l Ha Hrest]; subst a' l.
    destruct (pathStep_elevation this i a s goal elevation Ha Hg He) as [Hg' He'].
    destruct (pathStep_point this i a s) as (q & Hq & _ & _ & _ & Hyq & _).
    rewrite Hy, He' in Hyq.
    destruct (IH (i + 1)%Z (pathStep this i a s) _ _
                (height + (elevation * (95 / 100) + elevationGoal this goal a * (5 / 100)))
                Hrest Hg' He') as (new & Hnew & Hmap).
    + rewrite Hq. now destruct (path s).
    + rewrite Hq, last_last. exact Hyq.
    + exists (q :: new). rewrite Hnew, Hq, <- app_assoc. split; [reflexivity |].
      cbn [map risen]. rewrite Hyq, Hmap. reflexivity.
Qed.

(** The height of every point of a generated path. *)
Lemma generated_heights this frames :
  Forall waveformKnown frames ->
  forall i p,
    nth_error (trackPath (generateTrackPath this frames)) i = Some p ->
    y (position p) = fin (nth i (heights this frames) 0).
Proof.
  intros Hall i p Hp. unfold generateTrackPath in Hp; cbn [trackPath set_track] in Hp.
  destruct (pathLoop_heights this frames 0 (initialState this) 0 0 0 Hall)
    as (new & Hnew & Hmap); try reflexivity; [discriminate |].
  rewrite Hnew in Hp. cbn [initialState path] in Hp. unfold heights.
  destruct (Nat.lt_ge_cases i 10) as [Hlt | Hge].
  - rewrite nth_error_app1 in Hp by (rewrite leadIn_length; exact Hlt).
    apply leadIn_nth in Hp. destruct Hp as [_ ->].
    rewrite app_nth1 by (rewrite repeat_length; exact Hlt).
    now rewrite nth_repeat.
  - rewrite nth_error_app2 in Hp by (rewrite leadIn_length; exact Hge).
    rewrite leadIn_length in Hp.
    rewrite app_nth2 by (rewrite repeat_length; exact Hge). rewrite repeat_length.
    apply (map_nth_error (fun p => y (position p))) in Hp. rewrite Hmap in Hp.
    rewrite nth_error_map in Hp.
    destruct (nth_error (risen 0 (climbs this 0 0 frames)) (i - 10)) as [h |] eqn:Hh;
      [| discriminate].
    cbn [option_map] in Hp. injection Hp as <-.
    now rewrite (nth_error_nth _ _ 0 Hh).
Qed.

(** Inside the lead-in the reference heights are zero. *)
Lemma heights_leadIn this frames i : (i < 10)%nat -> nth i (heights this frames) 0 = 0.
Proof.
  intro Hi. unfold heights. rewrite app_nth1 by (rewrite repeat_length; exact Hi).
  apply nth_repeat.
Qed.

(** One round of the main loop keeps the heading and the map position
    numbers. *)
Lemma pathStep_charted this i a s :
  energiesKnown a ->
  (exists cd, currentDirection s = fin cd) ->
  (exists td, targetDirection s = fin td) ->
  charted (last (path s) originPoint) ->
  (exists cd, currentDirection (pathStep this i a s) = fin cd)
  /\ (exists td, targetDirection (pathStep this i a s) = fin td)
  /\ exists q, path (pathStep this i a s) = path s ++ [q] /\ charted q.
Proof.
  intros Ha (cd & Hcd) (td & Htd) (r & x0 & z0 & Hr & Hx & Hz).
  assert (Htd' : exists td', targetDirection (pathStep this i a s) = fin td').
  { unfold pathStep; cbn [targetDirection].
    destruct (ngt (beatIntensity a) (fin (7 / 10))).
    - unfold at_index.
      destruct (Ha 1%nat) as (e1 & ->); [lia |]. destruct (Ha 4%nat) as (e4 & ->); [lia |].
      eexists. reflexivity.
    - rewrite Htd. eexists. reflexivity. }
  destruct Htd' as (td' & Htd').
  assert (Hcd' : exists cd', currentDirection (pathStep this i a s) = fin cd').
  { change (currentDirection (pathStep this i a s))
      with (nadd (nmul (currentDirection s) (fin (9 / 10)))
                 (nmul (targetDirection (pathStep this i a s)) (fin (1 / 10)))).
    rewrite Hcd, Htd'. eexists. reflexivity. }
  destruct Hcd' as (cd' & Hcd').
  split; [now exists cd' |]. split; [now exists td' |].
  destruct (pathStep_point this i a s) as (q & Hq & Hrot & _ & Hxq & _ & Hzq).
  exists q. split; [exact Hq |].
  rewrite Hr, Hcd' in Hrot.
  rewrite Hrot, Hx in Hxq. rewrite Hrot, Hz in Hzq.
  unfold nadd, nsub, nmul, nsin, ncos, lift2, option_map, fin in Hxq, Hzq.
  rewrite ndiv_four in Hxq, Hzq.
  do 3 eexists. split; [exact Hrot |]. split; [exact Hxq | exact Hzq].
Qed.

Lemma pathLoop_charted this :
  forall frames i s,
    Forall energiesKnown frames ->
    (exists cd, currentDirection s = fin cd) ->
    (exists td, targetDirection s = fin td) ->
    path s <> [] ->
    (forall k p, nth_error (path s) k = Some p -> charted p) ->
    forall k p, nth_error (path (pathLoop this i frames s)) k = Some p -> charted p.
Proof.
  induction frames as [| a frames IH]; intros i s Hall Hcd Htd Hne Hpts; cbn [pathLoop].
  - exact Hpts.
  - inversion Hall as [| a' l Ha Hrest]; subst a' l.
    destruct (pathStep_charted this i a s Ha Hcd Htd) as (Hcd' & Htd' & q & Hq & Hcharted).
    { apply (Hpts (List.length (path s) - 1)%nat). now apply last_nth_error. }
    apply IH; try assumption.
    + rewrite Hq. now destruct (path s).
    + intros k p Hk. rewrite Hq in Hk.
      destruct (Nat.lt_ge_cases k (List.length (path s))) as [Hlt | Hge].
      * rewrite nth_error_app1 in Hk by exact Hlt. now apply (Hpts k).
      * rewrite nth_error_app2 in Hk by exact Hge.
        destruct (k - List.length (path s))%nat as [| m]; [| destruct m; discriminate].
        cbn [nth_error] in Hk. now injection Hk as <-.
Qed.

(** Every point of a path generated from frames whose band energies are
    numbers has a heading and a map position that are numbers. *)
Lemma generated_charted this frames :
  Forall energiesKnown frames ->
  forall k p, nth_error (trackPath (generateTrackPath this frames)) k = Some p -> charted p.
Proof.
  intros Hall. unfold generateTrackPath; cbn [trackPath set_track].
  apply pathLoop_charted; try assumption.
  - now exists 0.
  - now exists 0.
  - discriminate.
  - intros k p Hk. cbn [initialState path] in Hk. apply leadIn_nth in Hk.
    destruct Hk as [_ ->]. do 3 eexists. repeat split.
Qed.

(** Two adjacent charted points are one step apart on the map. *)
Lemma charted_distance this p q :
  planarStep this p q -> 0 <= segmentLength this -> charted p -> charted q ->
  horizontalDistance p q = fin (stepLength this).
Proof.
  intros Hstep Hlen (_ & x1 & z1 & _ & Hx1 & Hz1) (_ & x2 & z2 & _ & Hx2 & Hz2).
  apply planar_distance; try assumption.
  unfold horizontalDistance. rewrite Hx1, Hz1, Hx2, Hz2.
  unfold nsub, nmul, nadd, lift2, nsqrt, fin.
  rewrite (Hstep x1 z1 x2 z2 Hx1 Hz1 Hx2 Hz2).
  destruct (Rlt_dec (stepLength this * stepLength this) 0) as [Hneg | _]; [nra | discriminate].
Qed.

(** The distance in space of two charted points, one step apart on the map,
    whose heights are numbers. *)
Lemma charted_space this p q (h1 h2 : R) :
  planarStep this p q -> charted p -> charted q ->
  y (position p) = fin h1 -> y (position q) = fin h2 ->
  distance p q
  = fin (sqrt (stepLength this * stepLength this + (h2 - h1) * (h2 - h1))).
Proof.
  intros Hstep (_ & x1 & z1 & _ & Hx1 & Hz1) (_ & x2 & z2 & _ & Hx2 & Hz2) Hy1 Hy2.
  unfold distance, THREE.length, subVectors; cbn [x y z].
  rewrite Hx1, Hz1, Hx2, Hz2, Hy1, Hy2.
  unfold nsub, nmul, nadd, lift2, nsqrt, fin.
  replace ((x2 - x1) * (x2 - x1) + (h2 - h1) * (h2 - h1) + (z2 - z1) * (z2 - z1))
    with (stepLength this * stepLength this + (h2 - h1) * (h2 - h1))
    by (rewrite <- (Hstep x1 z1 x2 z2 Hx1 Hz1 Hx2 Hz2); ring).
  destruct (Rlt_dec (stepLength this * stepLength this + (h2 - h1) * (h2 - h1)) 0)
    as [Hneg | _]; [| reflexivity].
  pose proof (Rle_0_sqr (stepLength this)) as Hs.
  pose proof (Rle_0_sqr (h2 - h1)) as Hh. unfold Rsqr in Hs, Hh. lra.
Qed.

Lemma quiet_goal this (goal : R) : elevationGoal this goal quiet = -5.
Proof.
  unfold elevationGoal, quiet; cbn [timeData]. unfold meanAmplitude.
  change (fold_right Z.add 0%Z (map (fun b => Z.abs (u8 b - 128)) [Byte.x80])) with 0%Z.
  change (INR (List.length [Byte.x80])) with 1. unfold Rdiv. ring.
Qed.

Lemma quiet_waveform : waveformKnown quiet.
Proof. discriminate. Qed.

Lemma quiet_energies : energiesKnown quiet.
Proof.
  intros k Hk. destruct k as [| [| [| [| [| k]]]]]; try lia; eexists; reflexivity.
Qed.

(** The heights of the three points generated from three frames of
    silence. *)
Lemma quiet_heights this :
  nth 10 (heights this [quiet; quiet; quiet]) 0 = - (1 / 4)
  /\ nth 11 (heights this [quiet; quiet; quiet]) 0 = - (59 / 80)
  /\ nth 12 (heights this [quiet; quiet; quiet]) 0 = - (2321 / 1600).
Proof.
  unfold heights. cbn [repeat app nth climbs risen]. cbv zeta.
  rewrite !quiet_goal. repeat split; lra.
Qed.

(** C6, as the code has it.  The first ten points are the lead-in: heading
    zero, tilt zero, on the negative [z] axis one step apart.  And when every
    frame has beat intensity zero, the path is straight on the map: every
    point keeps heading zero and stays above that axis, one step further at
    each index.  Its height is not level: it is the sum of the climbs that
    the waveforms of the frames give so far. *)
Theorem quiet_path_straight_on_map this frames :
  (forall i p,
      (i < 10)%nat ->
      nth_error (trackPath (generateTrackPath this frames)) i = Some p ->
      rotation p = fin 0 /\ tilt p = fin 0
      /\ position p = vec 0 0 (- INR i * stepLength this))
  /\ (Forall (fun a => beatIntensity a = fin 0) frames ->
      forall i p,
        nth_error (trackPath (generateTrackPath this frames)) i = Some p ->
        rotation p = fin 0
        /\ x (position p) = fin 0
        /\ z (position p) = fin (- INR i * stepLength this)
        /\ (Forall waveformKnown frames ->
            y (position p) = fin (nth i (heights this frames) 0))).
Proof.
  split.
  - intros i p Hi Hp. unfold generateTrackPath in Hp; cbn [trackPath set_track] in Hp.
    destruct (pathLoop_extends this frames 0 (initialState this)) as [new Hnew].
    rewrite Hnew in Hp. cbn [initialState path] in Hp.
    rewrite nth_error_app1 in Hp by (rewrite leadIn_length; exact Hi).
    apply leadIn_nth in Hp. destruct Hp as [_ ->].
    destruct (leadInPoint_onAxis this i) as (_ & _ & Hz).
    repeat split. unfold leadInPoint in *; cbn [position z] in *. unfold vec.
    unfold vec in Hz; cbn [z] in Hz. now rewrite Hz.
  - intros Hall i p Hp.
    assert (Hunbent : unbent this (pathLoop this 0 frames (initialState this)))
      by (apply pathLoop_unbent; [exact Hall | apply initialState_unbent]).
    destruct Hunbent as (_ & _ & _ & Hpts).
    destruct (Hpts i p Hp) as (Hrot & Hx & Hz).
    refine (conj Hrot (conj Hx (conj Hz _))).
    intro Hwave. now apply generated_heights.
Qed.

(** C6, as stated, fails: on three frames of silence the three points
    generated from them, all beyond the lead-in, are not on one line, as the
    path sinks faster and faster. *)
Lemma quiet_path_not_straight :
  ~ straightFrom 10 (trackPath (generateTrackPath create [quiet; quiet; quiet])).
Proof.
  intro Hstraight.
  set (track := generateTrackPath create [quiet; quiet; quiet]) in *.
  assert (Hlen : List.length (trackPath track) = 13%nat)
    by (unfold track; now rewrite (proj1 (generated_lengths _ _))).
  assert (Hquiet : Forall (fun a => beatIntensity a = fin 0) [quiet; quiet; quiet])
    by (repeat constructor).
  assert (Hwave : Forall waveformKnown [quiet; quiet; quiet])
    by (repeat constructor; apply quiet_waveform).
  assert (Hunbent : unbent create (pathLoop create 0 [quiet; quiet; quiet] (initialState create)))
    by (apply pathLoop_unbent; [exact Hquiet | apply initialState_unbent]).
  destruct Hunbent as (_ & _ & _ & Hpts).
  destruct (quiet_heights create) as (H10 & H11 & H12).
  destruct (nth_error (trackPath track) 10) as [p |] eqn:Hp;
    [| apply nth_error_None in Hp; lia].
  destruct (nth_error (trackPath track) 11) as [q |] eqn:Hq;
    [| apply nth_error_None in Hq; lia].
  destruct (nth_error (trackPath track) 12) as [r |] eqn:Hr;
    [| apply nth_error_None in Hr; lia].
  pose proof (Hstraight 10%nat p q r (Nat.le_refl 10) Hp Hq Hr) as Hline.
  destruct (Hpts _ _ Hp) as (_ & _ & Hzp).
  destruct (Hpts _ _ Hq) as (_ & _ & Hzq).
  destruct (Hpts _ _ Hr) as (_ & _ & Hzr).
  pose proof (generated_heights create _ Hwave _ _ Hp) as Hyp.
  pose proof (generated_heights create _ Hwave _ _ Hq) as Hyq.
  pose proof (generated_heights create _ Hwave _ _ Hr) as Hyr.
  rewrite H10 in Hyp. rewrite H11 in Hyq. rewrite H12 in Hyr.
  unfold collinear, cross, subVectors, vec in Hline; cbn [x y z] in Hline.
  rewrite Hzp, Hzq, Hzr, Hyp, Hyq, Hyr in Hline.
  unfold nsub, nmul, lift2, fin in Hline.
  injection Hline as Hx _ _.
  unfold stepLength, pointsPerSegment in Hx. rewrite create_segmentLength in Hx.
  change (INR 10) with (IZR 10) in Hx. change (INR 11) with (IZR 11) in Hx.
  change (INR 12) with (IZR 12) in Hx. lra.
Qed.

(** C3, as the code has it.  For two adjacent points of a path generated
    from frames whose band energies are numbers: on the map they are exactly
    one forward step apart.  When the waveforms are known too, the second
    point lies [dy] above the first, [dy] being the climb of its frame; their
    distance in space is [sqrt (step^2 + dy^2)]; and inside the lead-in [dy]
    is zero and the distance is one step. *)
Theorem path_continuity this frames i p q :
  0 <= segmentLength this ->
  Forall energiesKnown frames ->
  nth_error (trackPath (generateTrackPath this frames)) i = Some p ->
  nth_error (trackPath (generateTrackPath this frames)) (S i) = Some q ->
  horizontalDistance p q = fin (stepLength this)
  /\ (Forall waveformKnown frames ->
      let dy := nth (S i) (heights this frames) 0 - nth i (heights this frames) 0 in
      nsub (y (position q)) (y (position p)) = fin dy
      /\ distance p q = fin (sqrt (stepLength this * stepLength this + dy * dy))
      /\ ((S i < 10)%nat -> dy = 0 /\ distance p q = fin (stepLength this))).
Proof.
  intros Hlen Henergies Hp Hq.
  assert (Hadj : adjacent (trackPath (generateTrackPath this frames)) p q)
    by (exists i; now split).
  pose proof (generated_planar this frames p q Hadj) as Hstep.
  pose proof (generated_charted this frames Henergies i p Hp) as Hcp.
  pose proof (generated_charted this frames Henergies (S i) q Hq) as Hcq.
  split; [now apply charted_distance |].
  intros Hwave. cbv zeta.
  pose proof (generated_heights this frames Hwave i p Hp) as Hyp.
  pose proof (generated_heights this frames Hwave (S i) q Hq) as Hyq.
  pose proof (charted_space this p q _ _ Hstep Hcp Hcq Hyp Hyq) as Hdist.
  split; [now rewrite Hyp, Hyq |]. split; [exact Hdist |].
  intro Hlead. rewrite Hdist.
  rewrite (heights_leadIn this frames (S i)) by exact Hlead.
  rewrite (heights_leadIn this frames i) by lia.
  split; [lra |]. unfold fin. f_equal.
  replace (stepLength this * stepLength this + (0 - 0) * (0 - 0))
    with (stepLength this * stepLength this) by ring.
  apply sqrt_square. unfold stepLength, pointsPerSegment. lra.
Qed.

(** The two points generated from two frames of silence. *)
Lemma path_continuity_witness :
  exists p q,
    nth_error (trackPath (generateTrackPath create [quiet; quiet])) 10 = Some p
    /\ nth_error (trackPath (generateTrackPath create [quiet; quiet])) 11 = Some q
    /\ horizontalDistance p q = fin (stepLength create)
    /\ (Forall waveformKnown [quiet; quiet] ->
        let dy := nth 11 (heights create [quiet; quiet]) 0
                  - nth 10 (heights create [quiet; quiet]) 0 in
        nsub (y (position q)) (y (position p)) = fin dy
        /\ distance p q = fin (sqrt (stepLength create * stepLength create + dy * dy))
        /\ ((11 < 10)%nat -> dy = 0 /\ distance p q = fin (stepLength create))).
Proof.
  do 2 eexists. split; [reflexivity |]. split; [reflexivity |].
  apply (path_continuity create [quiet; quiet] 10).
  - rewrite create_segmentLength. lra.
  - repeat constructor; apply quiet_energies.
  - reflexivity.
  - reflexivity.
Defined.

(** The second point generated from two quiet frames. *)
Lemma quiet_path_straight_on_map_witness :
  exists p,
    nth_error (trackPath (generateTrackPath create [quiet; quiet])) 11 = Some p
    /\ rotation p = fin 0
    /\ x (position p) = fin 0
    /\ z (position p) = fin (- INR 11 * stepLength create)
    /\ (Forall waveformKnown [quiet; quiet] ->
        y (position p) = fin (nth 11 (heights create [quiet; quiet]) 0)).
Proof.
  eexists. split; [reflexivity |].
  apply (proj2 (quiet_path_straight_on_map create [quiet; quiet])).
  - repeat constructor.
  - reflexivity.
Defined.

End Path.

(** ** Collisions *)

Section Collisions.
Import TrackGenerator CollisionSpec.
Local Open Scope Z_scope.

Lemma replaced_nth (bs : list Block) (i j : nat) (b old : Block) :
  nth_error bs i = Some old ->
  nth_error (replaced bs i b) j = if Nat.eqb j i then Some b else nth_error bs j.
Proof.
  intro Hold. unfold replaced.
  assert (Hi : (i < List.length bs)%nat) by (apply nth_error_Some; congruence).
  assert (Hlen : List.length (firstn i bs) = i) by (rewrite length_firstn; lia).
  destruct (Nat.eqb_spec j i) as [-> | Hne].
  - rewrite nth_error_app2 by lia. rewrite Hlen, Nat.sub_diag. reflexivity.
  - destruct (Nat.lt_ge_cases j i) as [Hlt | Hge].
    + rewrite nth_error_app1 by lia. rewrite nth_error_firstn.
      destruct (Nat.ltb_spec j i); [reflexivity | lia].
    + rewrite nth_error_app2 by lia. rewrite Hlen.
      destruct (j - i)%nat as [| m] eqn:E; [lia |]. cbn [nth_error].
      rewrite nth_error_skipn. f_equal. lia.
Qed.

Lemma collect_not_eligible b seg lane : eligible (collect b) seg lane = false.
Proof. reflexivity. Qed.

(** What the scanning loop returns and how it leaves the blocks. *)
Lemma collisionScan_spec (seg lane : Z) :
  forall (rest : list Block) (start : Z),
    match collisionScan start rest seg lane with
    | (Some c, rest') =>
        exists i b,
          index c = start + Z.of_nat i
          /\ firstEligible rest seg lane i b
          /\ collisionColor c = color b
          /\ collisionSegmentIndex c = segmentIndex b
          /\ rest' = replaced rest i (collect b)
    | (None, rest') =>
        rest' = rest
        /\ forall j b, nth_error rest j = Some b -> eligible b seg lane = false
    end.
Proof.
  induction rest as [| block rest IH]; intro start; cbn [collisionScan].
  - split; [reflexivity |]. intros [| j] b H; discriminate.
  - assert (Hskip :
      eligible block seg lane = false ->
      match (let (r, rest'') := collisionScan (start + 1) rest seg lane in
             (r, block :: rest'')) with
      | (Some c, rest') =>
          exists i b,
            index c = start + Z.of_nat i
            /\ firstEligible (block :: rest) seg lane i b
            /\ collisionColor c = color b
            /\ collisionSegmentIndex c = segmentIndex b
            /\ rest' = replaced (block :: rest) i (collect b)
      | (None, rest') =>
          rest' = block :: rest
          /\ forall j b, nth_error (block :: rest) j = Some b -> eligible b seg lane = false
      end).
    { intro Hno. specialize (IH (start + 1)).
      destruct (collisionScan (start + 1) rest seg lane) as [[c |] rest''].
      - destruct IH as (i & b & Hidx & (Hnth & Hel & Hfirst) & Hcol & Hseg & Hrest).
        exists (S i), b. repeat split; try assumption.
        + lia.
        + intros [| j] other Hj Hother; cbn [nth_error] in Hother.
          * now inversion Hother; subst.
          * apply (Hfirst j); [lia | exact Hother].
        + now rewrite Hrest.
      - destruct IH as [-> Hall]. split; [reflexivity |].
        intros [| j] b Hb; cbn [nth_error] in Hb.
        + now inversion Hb; subst.
        + now apply (Hall j). }
    destruct (collected block) eqn:Hc.
    + apply Hskip. unfold eligible. now rewrite Hc.
    + destruct (inReach block seg lane) eqn:Hr.
      * exists 0%nat, block. repeat split; cbn.
        -- lia.
        -- unfold eligible. now rewrite Hc, Hr.
        -- intros j other Hj. lia.
      * apply Hskip. unfold eligible. now rewrite Hc, Hr.
Qed.

Lemma set_blocks_same this : set_blocks this (blocks this) = this.
Proof. now destruct this. Qed.

(** C7, as the code has it.  A hit is the first block that is not yet
    collected, at most one segment away and in the player's lane; the call
    marks that block collected and hides its mesh, and leaves every other
    block alone.  The same call on the state it left never returns that block
    again: it returns a block further down the list, or nothing, and nothing
    whenever no other block was eligible.  A miss changes nothing. *)
Theorem collision_returns_first_uncollected this seg lane :
  match checkBlockCollision this seg lane with
  | (Some c, this') =>
      exists i b,
        index c = Z.of_nat i
        /\ firstEligible (blocks this) seg lane i b
        /\ collisionColor c = color b
        /\ collisionSegmentIndex c = segmentIndex b
        /\ this' = set_blocks this (replaced (blocks this) i (collect b))
        /\ (exists b',
              nth_error (blocks this') i = Some b'
              /\ collected b' = true
              /\ forall m, mesh b' = Some m -> meshVisible m = false)
        /\ (forall c', fst (checkBlockCollision this' seg lane) = Some c' ->
              index c < index c')
        /\ ((forall j other, j <> i -> nth_error (blocks this) j = Some other ->
               eligible other seg lane = false) ->
            fst (checkBlockCollision this' seg lane) = None)
  | (None, this') =>
      this' = this
      /\ forall j b, nth_error (blocks this) j = Some b -> eligible b seg lane = false
  end.
Proof.
  unfold checkBlockCollision.
  pose proof (collisionScan_spec seg lane (blocks this) 0) as H.
  destruct (collisionScan 0 (blocks this) seg lane) as [[c |] bs].
  - destruct H as (i & b & Hidx & Hfirst & Hcol & Hseg & ->).
    pose proof Hfirst as (Hnth & Hel & Hbefore).
    exists i, b.
    assert (Hnew : forall j, nth_error (replaced (blocks this) i (collect b)) j
                    = if Nat.eqb j i then Some (collect b) else nth_error (blocks this) j)
      by (intro j; now apply replaced_nth with (old := b)).
    pose proof (collisionScan_spec seg lane (replaced (blocks this) i (collect b)) 0) as H2.
    cbn [blocks set_blocks].
    destruct (collisionScan 0 (replaced (blocks this) i (collect b)) seg lane)
      as [[c2 |] bs2]; cbn [fst].
    + destruct H2 as (i2 & b2 & Hidx2 & (Hnth2 & Hel2 & _) & _).
      rewrite Hnew in Hnth2.
      assert (Hi2 : (i < i2)%nat).
      { destruct (Nat.eqb_spec i2 i) as [-> | Hne].
        - inversion Hnth2; subst b2. rewrite collect_not_eligible in Hel2. discriminate.
        - destruct (Nat.lt_ge_cases i2 i) as [Hlt | Hge]; [| lia].
          rewrite (Hbefore i2 b2 Hlt Hnth2) in Hel2. discriminate. }
      repeat split; try assumption; try lia.
      * exists (collect b). rewrite Hnew, Nat.eqb_refl. repeat split.
        intros m Hm. cbn [collect mesh] in Hm. unfold hide in Hm.
        destruct (mesh b); inversion Hm; reflexivity.
      * intros c' Hc'. inversion Hc'; subst c'. lia.
      * intro Honly. destruct (Nat.eqb_spec i2 i) as [-> | Hne]; [lia |].
        rewrite (Honly i2 b2 Hne Hnth2) in Hel2. discriminate.
    + repeat split; try assumption; try lia.
      * exists (collect b). rewrite Hnew, Nat.eqb_refl. repeat split.
        intros m Hm. cbn [collect mesh] in Hm. unfold hide in Hm.
        destruct (mesh b); inversion Hm; reflexivity.
      * intros c' Hc'. discriminate.
  - destruct H as [-> Hall]. split; [apply set_blocks_same | exact Hall].
Qed.

(** C7, as stated, fails: with two uncollected blocks within reach in
    the player's lane, the second identical call collects the second one. *)
Lemma second_call_hits_again :
  calledTwice twoInReach 3 1
  = (Some {| index := 0; collisionColor := 0xff0000; collisionSegmentIndex := 3 |},
     Some {| index := 1; collisionColor := 0xff0000; collisionSegmentIndex := 4 |}).
Proof. reflexivity. Qed.

End Collisions.

(** ** Position and direction queries *)

Section Queries.
Import RNum THREE TrackGenerator PathSpec.
Local Open Scope R_scope.

(** C9.  For a segment index below zero or not below the number of
    segments, [getPositionOnTrack] returns the origin and
    [getDirectionAtSegment] the default forward axis; neither throws. *)
Theorem out_of_range_defaults this (segmentIndex : R) (laneIndex offset : num) :
  segmentIndex < 0 \/ segmentIndex >= INR (List.length (trackSegments this)) ->
  getPositionOnTrack this (fin segmentIndex) laneIndex offset = Return (vec 0 0 0)
  /\ getDirectionAtSegment this (fin segmentIndex) offset = Return (vec 0 0 (-1)).
Proof.
  intro Hout.
  assert (H : outOfRange this (fin segmentIndex) = true).
  { unfold outOfRange, nlt, nge, ngt, fin.
    destruct (Rgt_dec 0 segmentIndex) as [_ | Hn]; [reflexivity |].
    destruct (Rge_dec segmentIndex (INR (List.length (trackSegments this)))) as [_ | Hm];
      [reflexivity |].
    exfalso. destruct Hout; [apply Hn | apply Hm]; lra. }
  unfold getPositionOnTrack, getDirectionAtSegment. now rewrite H.
Qed.

(** The index just past the only segment of a one-frame track. *)
Lemma out_of_range_defaults_witness :
  getPositionOnTrack (generateTrackPath create [quiet]) (fin 1) (fin 1) (fin 0)
  = Return (vec 0 0 0)
  /\ getDirectionAtSegment (generateTrackPath create [quiet]) (fin 1) (fin 0)
     = Return (vec 0 0 (-1)).
Proof.
  apply (out_of_range_defaults (generateTrackPath create [quiet]) 1 (fin 1) (fin 0)).
  right. rewrite (proj2 (generated_lengths create [quiet])). simpl. lra.
Defined.

End Queries.

(** ** From audio to track *)

Section Game.
Import JSNum AudioProcessor.
Local Open Scope Q_scope.

(** The track built from a finished analysis, as the game engine chains the
    two: its path has the lead-in and one point per analysis point. *)
Lemma track_after_analysis
    (suspend : Q -> option (Uint8Array * Uint8Array)) (this : Processor)
    (buffer : AudioBuffer) (resolution : Q) (fuel : nat)
    (generator : TrackGenerator.TrackGenerator) :
  audioBuffer this = Some buffer ->
  0 <= duration buffer ->
  BandSpec.honoured suspend resolution (floor (duration buffer * resolution)) ->
  (Z.to_nat (floor (duration buffer * resolution)) < fuel)%nat ->
  exists frames this',
    analyzeAudio suspend fuel this resolution = Some (Resolved frames, this')
    /\ length (TrackGenerator.trackPath
                 (TrackGenerator.generateTrackPath generator
                    (map TrackGenerator.ofFrame frames)))
       = (10 + Z.to_nat (floor (duration buffer * resolution)))%nat.
Proof.
  intros Hbuf Hd Hsuspend Hfuel.
  destruct (analyzeAudio_resolves suspend this buffer resolution fuel Hbuf Hd Hsuspend Hfuel)
    as (this' & Hrun & _ & Hlen & _).
  exists (analysisResults this'), this'. split; [exact Hrun |].
  rewrite (proj1 (generated_lengths generator _)), length_map, Hlen. reflexivity.
Qed.

End Game.

(** ** Scoring *)

Section Score.
Import JSNum ScoreManager.
Local Open Scope Z_scope.

Lemma round_integer (q : Q) (z : Z) : (q == inject_Z z)%Q -> round q = z.
Proof.
  intro E. unfold round.
  assert (H : (q + (1 # 2) == inject_Z z + (1 # 2))%Q) by (now rewrite E).
  rewrite (Qfloor_comp _ _ H).
  pose proof (Qfloor_le (inject_Z z + (1 # 2))) as Hle.
  pose proof (Qlt_floor (inject_Z z + (1 # 2))) as Hlt.
  set (f := Qfloor (inject_Z z + (1 # 2))) in *.
  assert (H1 : (inject_Z f < inject_Z (z + 1))%Q).
  { eapply Qle_lt_trans; [exact Hle |]. rewrite inject_Z_plus.
    apply Qplus_lt_r. reflexivity. }
  assert (H2 : (inject_Z z < inject_Z (f + 1))%Q).
  { eapply Qle_lt_trans; [| exact Hlt].
    setoid_replace (inject_Z z) with (inject_Z z + 0)%Q at 1 by ring.
    apply Qplus_le_r. discriminate. }
  rewrite <- Zlt_Qlt in H1, H2. lia.
Qed.

Lemma round_at_least (q : Q) (z : Z) : (inject_Z z <= q)%Q -> z <= round q.
Proof.
  intro H. unfold round. rewrite <- (Qfloor_Z z). apply Qfloor_resp_le.
  eapply Qle_trans; [exact H |].
  setoid_replace q with (q + 0)%Q at 1 by ring. apply Qplus_le_r. discriminate.
Qed.

Lemma multiplier_of_combo (k : Z) :
  0 <= k ->
  (1 <= Qmin (1 + inject_Z k * Scoring.comboMultiplier) Scoring.maxCombo)%Q
  /\ (Qmin (1 + inject_Z k * Scoring.comboMultiplier) Scoring.maxCombo <= 10)%Q.
Proof.
  intro Hk. split.
  - apply Q.min_glb; [| discriminate].
    setoid_replace 1%Q with (1 + 0)%Q at 1 by ring. apply Qplus_le_r.
    apply Qmult_le_0_compat; [| discriminate].
    change 0%Q with (inject_Z 0). now rewrite <- Zle_Qle.
  - apply Q.le_min_r.
Qed.

Lemma create_consistent : consistent create.
Proof. unfold consistent; cbn. repeat split; try lia; reflexivity. Qed.

Lemma resetCombo_consistent this : consistent this -> consistent (resetCombo this).
Proof.
  intros (Hs & Hc & Hm & Hcm & Hp). unfold consistent; cbn.
  repeat split; try lia; reflexivity.
Qed.

(** What a block is worth is never less than the base points. *)
Lemma block_points this blockColor :
  consistent this ->
  score this + 50 <= score (addBlock this blockColor).
Proof.
  intros (Hs & Hc & Hm & Hcm & Hp).
  destruct (multiplier_of_combo (combo this)) as [Hlo _]; [lia |].
  rewrite <- Hm in Hlo.
  assert (Hbase : (inject_Z 50 <= Scoring.basePoints * currentMultiplier this)%Q).
  { change (inject_Z 50) with (Scoring.basePoints * 1)%Q.
    rewrite !(Qmult_comm Scoring.basePoints).
    apply Qmult_le_compat_r; [exact Hlo | discriminate]. }
  assert (Hbonus : (0 <= Scoring.colorMatch * inject_Z (colorMatches this + 1))%Q).
  { apply Qmult_le_0_compat; [discriminate |].
    change 0%Q with (inject_Z 0). rewrite <- Zle_Qle. lia. }
  unfold addBlock.
  destruct (lastBlockColor this =? blockColor);
    [destruct (colorMatches this + 1 >=? 3) |]; cbn [score];
    apply Z.add_le_mono_l, round_at_least.
  - eapply Qle_trans; [exact Hbase |].
    rewrite <- Qplus_assoc.
    setoid_replace (Scoring.basePoints * currentMultiplier this)%Q
      with (Scoring.basePoints * currentMultiplier this + 0)%Q at 1 by ring.
    apply Qplus_le_r.
    setoid_replace 0%Q with (0 + 0)%Q by ring.
    apply Qplus_le_compat; [exact Hbonus | discriminate].
  - eapply Qle_trans; [exact Hbase |].
    setoid_replace (Scoring.basePoints * currentMultiplier this)%Q
      with (Scoring.basePoints * currentMultiplier this + 0)%Q at 1 by ring.
    apply Qplus_le_r. exact Hbonus.
  - exact Hbase.
Qed.

Lemma addBlock_consistent this blockColor :
  consistent this -> consistent (addBlock this blockColor).
Proof.
  intro H. pose proof (block_points this blockColor H) as Hpoints.
  destruct H as (Hs & Hc & Hm & Hcm & Hp).
  unfold consistent. split; [lia |].
  unfold addBlock in *.
  destruct (lastBlockColor this =? blockColor);
    [destruct (Z.geb_spec (colorMatches this + 1) 3) |];
    cbn [score combo maxCombo currentMultiplier colorMatches perfect] in *;
    (destruct (Z.gtb_spec (combo this + 1) (maxCombo this));
     repeat split; try lia; reflexivity).
Qed.

Lemma addMiss_consistent this : consistent this -> consistent (addMiss this).
Proof.
  intros (Hs & Hc & Hm & Hcm & Hp). unfold consistent, addMiss; cbn.
  destruct (Z.ltb_spec (score this + Scoring.miss) 0);
    repeat split; try lia; reflexivity.
Qed.

Lemma call_consistent this c : consistent this -> consistent (call this c).
Proof.
  intro H. destruct c; cbn [call].
  - now apply addBlock_consistent.
  - now apply addMiss_consistent.
  - now apply resetCombo_consistent.
  - apply create_consistent.
  - unfold comboTimeout. destruct (comboTimer this) as [[|] |]; try exact H.
    apply (resetCombo_consistent this) in H.
    destruct H as (Hs & Hc & Hm & Hcm & Hp). unfold consistent; cbn in *.
    repeat split; try lia; reflexivity.
Qed.

Lemma run_consistent (calls : list Call) :
  forall this, consistent this -> consistent (fold_left call calls this).
Proof.
  induction calls as [| c calls IH]; intros this H; cbn [fold_left].
  - exact H.
  - apply IH, call_consistent, H.
Qed.

Lemma after_consistent (calls : list Call) : consistent (after calls).
Proof. apply run_consistent, create_consistent. Qed.
End Score.

Section ScoreProperties.
Import JSNum ScoreManager.
Local Open Scope Z_scope.

(** X1.  Whatever the calls made on a new score manager, the score is never
    negative. *)
Theorem score_never_negative (calls : list Call) : 0 <= score (after calls).
Proof. apply after_consistent. Qed.

(** X2.  Whatever the calls, the combo never exceeds the best combo, and the
    multiplier is [min (1 + combo / 10) 10], a number between 1 and 10. *)
Theorem combo_and_multiplier (calls : list Call) :
  0 <= combo (after calls) <= maxCombo (after calls)
  /\ (currentMultiplier (after calls)
      == Qmin (1 + inject_Z (combo (after calls)) / 10) 10)%Q
  /\ (1 <= currentMultiplier (after calls))%Q
  /\ (currentMultiplier (after calls) <= 10)%Q.
Proof.
  destruct (after_consistent calls) as (_ & Hc & Hm & _).
  destruct (multiplier_of_combo (combo (after calls))) as [Hlo Hhi]; [lia |].
  rewrite <- Hm in Hlo, Hhi. repeat split; try lia; assumption.
Qed.

(** X3.  Every collected block raises the score by at least the 50 base
    points. *)
Theorem block_worth_at_least_base (calls : list Call) (blockColor : Z) :
  score (after calls) + 50 <= score (after (calls ++ [AddBlock blockColor])).
Proof.
  unfold after. rewrite fold_left_app. cbn [fold_left call].
  apply block_points, after_consistent.
Qed.

(** X4.  A block whose colour differs from the previous one is worth
    [50 + 5 * combo] points while the combo is at most 90, and 500 points
    from then on. *)
Theorem block_value_without_match (calls : list Call) (blockColor : Z) :
  lastBlockColor (after calls) <> blockColor ->
  score (after (calls ++ [AddBlock blockColor]))
  = score (after calls)
    + (if combo (after calls) <=? 90 then 50 + 5 * combo (after calls) else 500).
Proof.
  intro Hcolor. unfold after. rewrite fold_left_app. cbn [fold_left call].
  fold (after calls).
  destruct (after_consistent calls) as (_ & Hc & Hm & _).
  unfold addBlock.
  destruct (Z.eqb_spec (lastBlockColor (after calls)) blockColor) as [E | _];
    [contradiction |].
  cbn [score]. f_equal. apply round_integer. rewrite Hm.
  destruct (Z.leb_spec (combo (after calls)) 90) as [Hle | Hgt].
  - rewrite Q.min_l.
    + rewrite inject_Z_plus, inject_Z_mult. unfold Scoring.basePoints, Scoring.comboMultiplier.
      change (inject_Z 50) with 50%Q. change (inject_Z 5) with 5%Q. ring.
    + unfold Scoring.comboMultiplier, Scoring.maxCombo.
      setoid_replace 10%Q with (1 + inject_Z 90 * (1 # 10))%Q by reflexivity.
      apply Qplus_le_r. apply Qmult_le_compat_r; [| discriminate].
      now rewrite <- Zle_Qle.
  - rewrite Q.min_r.
    + reflexivity.
    + unfold Scoring.comboMultiplier, Scoring.maxCombo.
      setoid_replace 10%Q with (1 + inject_Z 90 * (1 # 10))%Q by reflexivity.
      apply Qplus_le_r. apply Qmult_le_compat_r; [| discriminate].
      rewrite <- Zle_Qle. lia.
Qed.

(** A second block, of another colour than the first. *)
Lemma block_value_without_match_witness :
  score (after ([AddBlock 0] ++ [AddBlock 1]))
  = score (after [AddBlock 0])
    + (if combo (after [AddBlock 0]) <=? 90
       then 50 + 5 * combo (after [AddBlock 0]) else 500).
Proof.
  apply (block_value_without_match [AddBlock 0] 1).
  intro H. vm_compute in H. discriminate H.
Defined.

Lemma streak_step (n : nat) (blockColor : Z) (this : ScoreManager) :
  fold_left call (repeat (AddBlock blockColor) (S n)) this
  = addBlock (fold_left call (repeat (AddBlock blockColor) n) this) blockColor.
Proof.
  replace (S n) with (n + 1)%nat by lia.
  rewrite repeat_app, fold_left_app. reflexivity.
Qed.

(** X5.  In an unbroken run of blocks of one colour, started after a block
    of another colour (or none), the colour-match counter is one less than
    the length of the run, and a perfect match is counted for the fourth
    block and each later one, not for the third. *)
Theorem perfect_needs_four (this : ScoreManager) (blockColor : Z) (n : nat) :
  lastBlockColor this <> blockColor ->
  let run := fold_left call (repeat (AddBlock blockColor) (S n)) this in
  lastBlockColor run = blockColor
  /\ colorMatches run = Z.of_nat n
  /\ perfect run = perfect this + Z.max 0 (Z.of_nat n - 2).
Proof.
  intro Hcolor. cbv zeta. induction n as [| n IH].
  - cbn [repeat fold_left call]. unfold addBlock.
    destruct (Z.eqb_spec (lastBlockColor this) blockColor) as [E | _];
      [contradiction |].
    cbn. repeat split. lia.
  - rewrite streak_step. destruct IH as (Hlast & Hmatches & Hperfect).
    set (run := fold_left call (repeat (AddBlock blockColor) (S n)) this) in *.
    unfold addBlock. rewrite Hlast, Z.eqb_refl, Hmatches.
    destruct (Z.geb_spec (Z.of_nat n + 1) 3);
      cbn [lastBlockColor colorMatches perfect]; repeat split; lia.
Qed.

(** Four blocks of one colour on a new score manager. *)
Lemma perfect_needs_four_witness :
  let run := fold_left call (repeat (AddBlock 2) 4) create in
  lastBlockColor run = 2
  /\ colorMatches run = Z.of_nat 3
  /\ perfect run = perfect create + Z.max 0 (Z.of_nat 3 - 2).
Proof.
  apply (perfect_needs_four create 2 3).
  intro H. vm_compute in H. discriminate H.
Defined.

(** X6.  The final score is the score plus 50 points per step of the best
    combo and 200 per perfect match; after any run of calls it is at least
    the score. *)
Theorem final_score_bonuses (calls : list Call) :
  getFinalScore (after calls)
  = score (after calls) + 50 * maxCombo (after calls) + 200 * perfect (after calls)
  /\ score (after calls) <= getFinalScore (after calls).
Proof.
  destruct (after_consistent calls) as (_ & Hc & _ & _ & Hp).
  assert (E : getFinalScore (after calls)
              = score (after calls) + 50 * maxCombo (after calls)
                + 200 * perfect (after calls)).
  { unfold getFinalScore. rewrite (round_integer _ _ (Qeq_refl _)). lia. }
  split; [exact E | lia].
Qed.
End ScoreProperties.

(** ** Block visibility *)

Section Visibility.
Import TrackGenerator TrackSpec.
Local Open Scope Z_scope.

Lemma inView_test this playerSegment block :
  (segmentIndex block >=? playerSegment - 5)
  && (segmentIndex block <=? playerSegment + visibleSegments this) = true
  <-> inView this playerSegment block.
Proof.
  unfold inView. rewrite andb_true_iff, Z.geb_le, Z.leb_le. lia.
Qed.

(** What one round of the loop does to a block that has a mesh. *)
Lemma showOrHide_mesh this playerSegment block m :
  mesh block = Some m ->
  let block' := showOrHide this playerSegment block in
  (visible block' = true <-> inView this playerSegment block)
  /\ (exists m', mesh block' = Some m'
        /\ (visible block <> visible block' -> meshVisible m' = visible block')
        /\ (visible block = visible block' -> m' = m))
  /\ laneIndex block' = laneIndex block
  /\ segmentIndex block' = segmentIndex block
  /\ color block' = color block
  /\ collected block' = collected block.
Proof.
  intro Hm. cbv zeta. unfold showOrHide. rewrite Hm.
  pose proof (inView_test this playerSegment block) as Htest.
  destruct ((segmentIndex block >=? playerSegment - 5)
            && (segmentIndex block <=? playerSegment + visibleSegments this));
    destruct (visible block) eqn:Hv;
    cbn [negb visible mesh laneIndex segmentIndex color collected]; rewrite ?Hv.
  - split; [tauto |]. split; [| tauto]. exists m. repeat split; congruence.
  - split; [tauto |]. split; [| tauto]. eexists. repeat split; congruence.
  - split; [split; [discriminate | intro H; apply Htest in H; discriminate] |].
    split; [| tauto]. eexists. repeat split; congruence.
  - split; [split; [discriminate | intro H; apply Htest in H; discriminate] |].
    split; [| tauto]. exists m. repeat split; congruence.
Qed.
End Visibility.

Section VisibilityProperties.
Import TrackGenerator TrackSpec CollisionSpec.
Local Open Scope Z_scope.

Lemma showOrHide_no_mesh this playerSegment block :
  mesh block = None -> showOrHide this playerSegment block = block.
Proof.
  intro Hm. unfold showOrHide. rewrite Hm.
  now destruct ((segmentIndex block >=? playerSegment - 5)
                && (segmentIndex block <=? playerSegment + visibleSegments this)).
Qed.

Lemma showOrHide_settled this playerSegment block :
  (visible block = true <-> inView this playerSegment block) ->
  showOrHide this playerSegment block = block.
Proof.
  intro Hsame. unfold showOrHide.
  pose proof (inView_test this playerSegment block) as Htest.
  destruct ((segmentIndex block >=? playerSegment - 5)
            && (segmentIndex block <=? playerSegment + visibleSegments this));
    destruct (mesh block); try reflexivity; destruct (visible block); try reflexivity.
  - assert (H : false = true) by tauto. discriminate.
  - assert (H : false = true) by tauto. discriminate.
Qed.

Lemma updateTrack_nth this playerSegment i :
  nth_error (blocks (updateTrack this playerSegment)) i
  = option_map (showOrHide this playerSegment) (nth_error (blocks this) i).
Proof. unfold updateTrack; cbn [blocks set_blocks]. apply nth_error_map. Qed.

(** X7.  [updateTrack] keeps the blocks, their order, lanes, segments,
    colours and collected flags.  A block with a mesh ends up flagged visible
    exactly when its segment is at most five behind the player and at most
    [visibleSegments] ahead.  Its mesh is touched only when the flag changes,
    and is then shown or hidden as the new flag says; so a mesh that agreed
    with the flag still does, and one that did not, as after a collision,
    still does not while the flag stays.  A block whose flag already says
    whether it is in view, and a block without a mesh, are left as they
    are. *)
Theorem updateTrack_view_window this playerSegment i block :
  nth_error (blocks this) i = Some block ->
  List.length (blocks (updateTrack this playerSegment)) = List.length (blocks this)
  /\ exists block',
       nth_error (blocks (updateTrack this playerSegment)) i = Some block'
       /\ laneIndex block' = laneIndex block
       /\ segmentIndex block' = segmentIndex block
       /\ color block' = color block
       /\ collected block' = collected block
       /\ (mesh block <> None ->
           (visible block' = true <-> inView this playerSegment block))
       /\ (mesh block <> None -> visible block' <> visible block ->
           mesh block' = Some {| meshVisible := visible block' |})
       /\ (visible block' = visible block -> mesh block' = mesh block)
       /\ (forall m, mesh block = Some m -> meshVisible m = visible block ->
           mesh block' = Some {| meshVisible := visible block' |})
       /\ (mesh block = None -> block' = block)
       /\ ((visible block = true <-> inView this playerSegment block) ->
           block' = block).
Proof.
  intro Hb. split.
  { unfold updateTrack; cbn [blocks set_blocks]. apply length_map. }
  exists (showOrHide this playerSegment block).
  rewrite updateTrack_nth, Hb. split; [reflexivity |].
  destruct (mesh block) as [m |] eqn:Hm.
  - destruct (showOrHide_mesh this playerSegment block m Hm)
      as (Hview & (m' & Hm' & Hchanged & Hsame) & Hlane & Hseg & Hcol & Hcoll).
    refine (conj Hlane (conj Hseg (conj Hcol (conj Hcoll
              (conj (fun _ => Hview) (conj _ (conj _ (conj _ (conj _ _))))))))).
    + intros _ Hflag. rewrite Hm'. f_equal.
      destruct m' as [v]. cbn [meshVisible] in Hchanged. f_equal.
      apply Hchanged. congruence.
    + intro Hflag. rewrite Hm'. f_equal. apply Hsame. congruence.
    + intros m0 Hm0 Hagree. injection Hm0 as <-. rewrite Hm'. f_equal.
      destruct (bool_dec (visible block) (visible (showOrHide this playerSegment block)))
        as [Hflag | Hflag].
      * rewrite (Hsame Hflag). destruct m as [v]. cbn [meshVisible] in Hagree.
        f_equal. congruence.
      * destruct m' as [v]. cbn [meshVisible] in Hchanged. f_equal. now apply Hchanged.
    + discriminate.
    + apply showOrHide_settled.
  - rewrite (showOrHide_no_mesh this playerSegment block Hm).
    refine (conj eq_refl (conj eq_refl (conj eq_refl (conj eq_refl
              (conj _ (conj _ (conj _ (conj _ (conj _ _))))))))).
    + congruence.
    + congruence.
    + intros _. exact Hm.
    + discriminate.
    + reflexivity.
    + reflexivity.
Qed.

(** Two blocks around segment 3, seen from segment 20: the first one is
    hidden. *)
Lemma updateTrack_view_window_witness :
  List.length (blocks (updateTrack twoInReach 20)) = List.length (blocks twoInReach)
  /\ exists block',
       nth_error (blocks (updateTrack twoInReach 20)) 0 = Some block'
       /\ laneIndex block' = laneIndex (freshBlock 3 1)
       /\ segmentIndex block' = segmentIndex (freshBlock 3 1)
       /\ color block' = color (freshBlock 3 1)
       /\ collected block' = collected (freshBlock 3 1)
       /\ (mesh (freshBlock 3 1) <> None ->
           (visible block' = true <-> inView twoInReach 20 (freshBlock 3 1)))
       /\ (mesh (freshBlock 3 1) <> None -> visible block' <> visible (freshBlock 3 1) ->
           mesh block' = Some {| meshVisible := visible block' |})
       /\ (visible block' = visible (freshBlock 3 1) -> mesh block' = mesh (freshBlock 3 1))
       /\ (forall m, mesh (freshBlock 3 1) = Some m ->
           meshVisible m = visible (freshBlock 3 1) ->
           mesh block' = Some {| meshVisible := visible block' |})
       /\ (mesh (freshBlock 3 1) = None -> block' = freshBlock 3 1)
       /\ ((visible (freshBlock 3 1) = true <-> inView twoInReach 20 (freshBlock 3 1)) ->
           block' = freshBlock 3 1).
Proof. apply (updateTrack_view_window twoInReach 20 0 (freshBlock 3 1)). reflexivity. Defined.

(** X8.  Calling [updateTrack] again for the same player segment changes
    nothing. *)
Theorem updateTrack_idempotent this playerSegment :
  updateTrack (updateTrack this playerSegment) playerSegment
  = updateTrack this playerSegment.
Proof.
  change (updateTrack (updateTrack this playerSegment) playerSegment)
    with (set_blocks this
            (map (showOrHide this playerSegment)
               (map (showOrHide this playerSegment) (blocks this)))).
  unfold updateTrack. f_equal.
  rewrite map_map. apply map_ext. intro block.
  destruct (mesh block) as [m |] eqn:Hm.
  - destruct (showOrHide_mesh this playerSegment block m Hm)
      as (Hview & _ & _ & Hseg & _).
    apply showOrHide_settled. unfold inView in *. now rewrite Hseg.
  - now rewrite !(showOrHide_no_mesh this playerSegment block Hm).
Qed.

(** X9.  Visibility does not look at the collected flag: a block with a
    mesh that leaves the player's view and comes back into it is shown
    again, collected or not. *)
Theorem block_shown_again this away back i block :
  nth_error (blocks this) i = Some block ->
  mesh block <> None ->
  ~ inView this away block ->
  inView this back block ->
  exists block',
    nth_error (blocks (updateTrack (updateTrack this away) back)) i = Some block'
    /\ mesh block' = Some {| meshVisible := true |}
    /\ visible block' = true
    /\ collected block' = collected block.
Proof.
  intros Hb Hm Haway Hback.
  destruct (mesh block) as [m |] eqn:Em; [| congruence].
  rewrite updateTrack_nth, updateTrack_nth, Hb. cbn [option_map].
  change (showOrHide (updateTrack this away) back) with (showOrHide this back).
  eexists. split; [reflexivity |].
  destruct (showOrHide_mesh this away block m Em) as (Hview & (m1 & Hm1 & _) & _ & Hseg & _ & Hcoll).
  assert (Hhidden : visible (showOrHide this away block) = false).
  { destruct (visible (showOrHide this away block)); [| reflexivity]. tauto. }
  set (hidden := showOrHide this away block) in *.
  unfold showOrHide at 1 2 3.
  assert (Htest : (segmentIndex hidden >=? back - 5)
                  && (segmentIndex hidden <=? back + visibleSegments this) = true).
  { apply inView_test. unfold inView in *. now rewrite Hseg. }
  rewrite Htest, Hm1, Hhidden. cbn. repeat split. exact Hcoll.
Qed.

(** The first of two blocks, collected, left behind and come back to. *)
Lemma block_shown_again_witness :
  exists block',
    nth_error (blocks (updateTrack
                         (updateTrack (snd (checkBlockCollision twoInReach 3 1)) 20) 3)) 0
    = Some block'
    /\ mesh block' = Some {| meshVisible := true |}
    /\ visible block' = true
    /\ collected block' = collected (collect (freshBlock 3 1)).
Proof.
  apply (block_shown_again (snd (checkBlockCollision twoInReach 3 1)) 20 3 0
           (collect (freshBlock 3 1))).
  - reflexivity.
  - discriminate.
  - unfold inView; cbn. lia.
  - unfold inView; cbn. lia.
Defined.
End VisibilityProperties.

(** ** Segments and in-range queries *)

Section Segments.
Import RNum THREE TrackGenerator PathSpec TrackSpec.
Local Open Scope R_scope.

Lemma pathStep_layout this i a s :
  (0 <= i)%Z ->
  Z.of_nat (List.length (path s)) = (10 + i)%Z ->
  Z.of_nat (List.length (segments s)) = ((i + 3) / 4)%Z ->
  segmentLayout (segments s) ->
  segmentLayout (segments (pathStep this i a s)).
Proof.
  intros Hi Hpath Hsegs Hlayout.
  unfold pathStep; cbn [segments path]. unfold pointsPerSegment.
  destruct (i mod 4 =? 0)%Z eqn:E; [| exact Hlayout].
  apply Z.eqb_eq in E.
  intros k segment Hk.
  destruct (Nat.lt_ge_cases k (List.length (segments s))) as [Hlt | Hge].
  - rewrite nth_error_app1 in Hk by exact Hlt. now apply Hlayout.
  - rewrite nth_error_app2 in Hk by exact Hge.
    destruct (k - List.length (segments s))%nat as [| m] eqn:Ek;
      [| destruct m; discriminate].
    cbn [nth_error] in Hk. injection Hk as <-.
    cbn [startPathIndex endPathIndex audioIndex].
    rewrite length_app; cbn [List.length].
    assert (Z.of_nat k = (i + 3) / 4)%Z by lia.
    assert (4 * Z.of_nat k = i)%Z by (Z.div_mod_to_equations; lia).
    repeat split; lia.
Qed.

Lemma pathLoop_layout this :
  forall frames i s,
    (0 <= i)%Z ->
    Z.of_nat (List.length (path s)) = (10 + i)%Z ->
    Z.of_nat (List.length (segments s)) = ((i + 3) / 4)%Z ->
    segmentLayout (segments s) ->
    segmentLayout (segments (pathLoop this i frames s)).
Proof.
  induction frames as [| a frames IH]; intros i s Hi Hpath Hsegs Hlayout;
    cbn [pathLoop]; [exact Hlayout |].
  apply IH.
  - lia.
  - rewrite pathStep_path_length. lia.
  - rewrite pathStep_segments_length by exact Hi. rewrite Hsegs.
    replace (i + 1 + 3)%Z with (i + 4)%Z by lia. lia.
  - now apply pathStep_layout.
Qed.

Lemma generated_layout this frames :
  segmentLayout (trackSegments (generateTrackPath this frames)).
Proof.
  unfold generateTrackPath; cbn [trackSegments set_track].
  apply pathLoop_layout; try reflexivity; try lia.
  intros [| k] segment H; discriminate.
Qed.

(** X10.  In a generated track, segment [k] starts at path index
    [7 + 4 k], ends at path index [10 + 4 k], the point of frame [4 k],
    which exists, and records that frame as its audio index. *)
Theorem segment_spans this frames k segment :
  nth_error (trackSegments (generateTrackPath this frames)) k = Some segment ->
  startPathIndex segment = (7 + 4 * Z.of_nat k)%Z
  /\ endPathIndex segment = (10 + 4 * Z.of_nat k)%Z
  /\ audioIndex segment = (4 * Z.of_nat k)%Z
  /\ (4 * k < List.length frames)%nat
  /\ (endPathIndex segment
      < Z.of_nat (List.length (trackPath (generateTrackPath this frames))))%Z.
Proof.
  intro Hk. destruct (generated_layout this frames k segment Hk) as (Hs & He & Ha).
  destruct (generated_lengths this frames) as [Hp Hn].
  assert (Hlt : (k < List.length (trackSegments (generateTrackPath this frames)))%nat)
    by (apply nth_error_Some; congruence).
  rewrite Hn in Hlt.
  assert (H4 : (4 * k < List.length frames)%nat).
  { pose proof (Nat.div_mod_eq (List.length frames + 3) 4) as Hdm.
    pose proof (Nat.mod_upper_bound (List.length frames + 3) 4) as Hmod. lia. }
  repeat split; try assumption. rewrite He, Hp. lia.
Qed.

(** The first segment of a one-frame track. *)
Lemma segment_spans_witness :
  exists segment,
    nth_error (trackSegments (generateTrackPath create [quiet])) 0 = Some segment
    /\ startPathIndex segment = (7 + 4 * Z.of_nat 0)%Z
    /\ endPathIndex segment = (10 + 4 * Z.of_nat 0)%Z
    /\ audioIndex segment = (4 * Z.of_nat 0)%Z
    /\ (4 * 0 < List.length [quiet])%nat
    /\ (endPathIndex segment
        < Z.of_nat (List.length (trackPath (generateTrackPath create [quiet]))))%Z.
Proof.
  eexists. split; [reflexivity |].
  apply (segment_spans create [quiet] 0). reflexivity.
Defined.
End Segments.

Section Queries2.
Import RNum THREE TrackGenerator PathSpec TrackSpec.
Local Open Scope R_scope.

Lemma arrayIndex_nat (k : nat) : arrayIndex (fin (INR k)) = Some k.
Proof.
  unfold arrayIndex, fin. rewrite Int_part_INR.
  destruct (Req_dec_T (INR k) (IZR (Z.of_nat k))) as [_ | Hne].
  - destruct (Z.ltb_spec (Z.of_nat k) 0); [lia |]. now rewrite Nat2Z.id.
  - destruct Hne. apply INR_IZR_INZ.
Qed.

Lemma outOfRange_inside this (k : nat) :
  (k < List.length (trackSegments this))%nat -> outOfRange this (fin (INR k)) = false.
Proof.
  intro Hk. unfold outOfRange, nlt, nge, ngt, fin.
  pose proof (pos_INR k). apply lt_INR in Hk.
  destruct (Rgt_dec 0 (INR k)); [lra |].
  destruct (Rge_dec (INR k) (INR (List.length (trackSegments this)))); [lra | reflexivity].
Qed.

(** The path point an in-range query lands on. *)
Lemma pointIndex_inside this frames k segment o :
  nth_error (trackSegments (generateTrackPath this frames)) k = Some segment ->
  0 <= o <= 1 ->
  exists idx point,
    pointIndexOf segment (fin o) = Some idx
    /\ (0 <= idx < Z.of_nat (List.length (trackPath (generateTrackPath this frames))))%Z
    /\ nth_error (trackPath (generateTrackPath this frames)) (Z.to_nat idx) = Some point.
Proof.
  intros Hk Ho.
  destruct (generated_layout this frames k segment Hk) as (Hs & He & _).
  destruct (generated_lengths this frames) as [Hp Hn].
  assert (Hlt : (k < List.length (trackSegments (generateTrackPath this frames)))%nat)
    by (apply nth_error_Some; congruence).
  rewrite Hn in Hlt.
  assert (H4 : (4 * k < List.length frames)%nat).
  { pose proof (Nat.div_mod_eq (List.length frames + 3) 4).
    pose proof (Nat.mod_upper_bound (List.length frames + 3) 4). lia. }
  unfold pointIndexOf, nfloor, nmul, lift2, fin, option_map.
  replace (endPathIndex segment - startPathIndex segment)%Z with 3%Z by lia.
  destruct (base_Int_part (o * 3)) as [Hlo Hhi].
  set (j := Int_part (o * 3)) in *.
  assert (Hj : (0 <= j <= 3)%Z).
  { assert (H3 : IZR j <= IZR 3) by lra. apply le_IZR in H3.
    assert (H1 : IZR (-1) < IZR j) by lra. apply lt_IZR in H1. lia. }
  assert (Hidx : (0 <= startPathIndex segment + j
                  < Z.of_nat (List.length (trackPath (generateTrackPath this frames))))%Z)
    by (rewrite Hp; lia).
  destruct (nth_error (trackPath (generateTrackPath this frames))
              (Z.to_nat (startPathIndex segment + j))) as [point |] eqn:Hpoint.
  - exists (startPathIndex segment + j)%Z, point. repeat split; try lia. exact Hpoint.
  - apply nth_error_None in Hpoint. lia.
Qed.

Lemma element_inside {A : Type} (l : list A) (idx : Z) :
  (0 <= idx < Z.of_nat (List.length l))%Z ->
  exists a, element l (indexOfZ (Some idx)) = Some a
            /\ nth_error l (Z.to_nat idx) = Some a.
Proof.
  intro H. unfold element, indexOfZ.
  destruct (Z.ltb_spec idx 0); [lia |].
  destruct (nth_error l (Z.to_nat idx)) as [a |] eqn:E.
  - now exists a.
  - apply nth_error_None in E. lia.
Qed.

(** What [getDirectionAtSegment] returns inside a generated track: the
    default axis at the very end of the path, else the normalized step
    between two adjacent points. *)
Lemma direction_inside this frames (k : nat) o :
  (k < List.length (trackSegments (generateTrackPath this frames)))%nat ->
  0 <= o <= 1 ->
  exists d,
    getDirectionAtSegment (generateTrackPath this frames) (fin (INR k)) (fin o) = Return d
    /\ (d = vec 0 0 (-1)
        \/ exists p q,
             adjacent (trackPath (generateTrackPath this frames)) p q
             /\ d = normalize (subVectors (position q) (position p))).
Proof.
  intros Hk Ho. set (track := generateTrackPath this frames) in *.
  unfold getDirectionAtSegment. rewrite (outOfRange_inside track k Hk), arrayIndex_nat.
  cbn [element].
  destruct (nth_error (trackSegments track) k) as [segment |] eqn:Hseg.
  2:{ apply nth_error_None in Hseg. lia. }
  destruct (pointIndex_inside this frames k segment o Hseg Ho)
    as (idx & point & Hidx & Hrange & Hpoint).
  fold track in Hrange, Hpoint. rewrite Hidx.
  destruct (Z.geb_spec (idx + 1) (Z.of_nat (List.length (trackPath track)))) as [Hend | Hnext].
  - exists (vec 0 0 (-1)). split; [reflexivity | now left].
  - destruct (element_inside (trackPath track) idx Hrange) as (p & Hp & Hp').
    destruct (element_inside (trackPath track) (idx + 1)) as (q & Hq & Hq'); [lia |].
    rewrite Hp, Hq. eexists. split; [reflexivity |]. right. exists p, q. split; [| reflexivity].
    exists (Z.to_nat idx). split; [exact Hp' |].
    replace (S (Z.to_nat idx)) with (Z.to_nat (idx + 1)) by lia. exact Hq'.
Qed.

(** What [getPositionOnTrack] does inside a generated track: it returns. *)
Lemma position_inside this frames (k : nat) (laneIndex : num) o :
  (k < List.length (trackSegments (generateTrackPath this frames)))%nat ->
  0 <= o <= 1 ->
  exists v,
    getPositionOnTrack (generateTrackPath this frames) (fin (INR k)) laneIndex (fin o)
    = Return v.
Proof.
  intros Hk Ho.
  set (track := generateTrackPath this frames) in *.
  unfold getPositionOnTrack. rewrite (outOfRange_inside track k Hk), arrayIndex_nat.
  cbn [element].
  destruct (nth_error (trackSegments track) k) as [segment |] eqn:Hseg.
  2:{ apply nth_error_None in Hseg. lia. }
  destruct (pointIndex_inside this frames k segment o Hseg Ho)
    as (idx & point & Hidx & Hrange & Hpoint).
  fold track in Hrange, Hpoint. rewrite Hidx.
  destruct (element_inside (trackPath track) idx Hrange) as (p & Hp & _).
  rewrite Hp. unfold hasNext. cbn [option_map].
  destruct (Z.ltb_spec (idx + 1) (Z.of_nat (List.length (trackPath track)))) as [Hnext | Hend].
  - destruct (element_inside (trackPath track) (idx + 1)) as (q & Hq & _); [lia |].
    rewrite Hq. now eexists.
  - now eexists.
Qed.

(** X11.  Inside a generated track, for a whole segment index below the
    number of segments and an offset between 0 and 1, whatever the lane,
    [getPositionOnTrack] and [getDirectionAtSegment] return a vector: no path
    point they read is missing. *)
Theorem in_range_queries_return this frames (k : nat) (laneIndex : num) o :
  (k < List.length (trackSegments (generateTrackPath this frames)))%nat ->
  0 <= o <= 1 ->
  (exists v,
      getPositionOnTrack (generateTrackPath this frames) (fin (INR k)) laneIndex (fin o)
      = Return v)
  /\ (exists d,
        getDirectionAtSegment (generateTrackPath this frames) (fin (INR k)) (fin o)
        = Return d).
Proof.
  intros Hk Ho. split.
  - now apply position_inside.
  - destruct (direction_inside this frames k o Hk Ho) as (d & Hd & _). now exists d.
Qed.

(** The first segment of a one-frame track, halfway. *)
Lemma in_range_queries_return_witness :
  (exists v,
      getPositionOnTrack (generateTrackPath create [quiet]) (fin (INR 0)) (fin 1) (fin (1 / 2))
      = Return v)
  /\ (exists d,
        getDirectionAtSegment (generateTrackPath create [quiet]) (fin (INR 0)) (fin (1 / 2))
        = Return d).
Proof.
  apply (in_range_queries_return create [quiet] 0 (fin 1) (1 / 2)).
  - rewrite (proj2 (generated_lengths create [quiet])). cbn. lia.
  - lra.
Defined.
End Queries2.

Section Directions.
Import RNum THREE TrackGenerator PathSpec TrackSpec.
Local Open Scope R_scope.

Lemma default_axis_unit : THREE.length (vec 0 0 (-1)) = fin 1.
Proof.
  unfold THREE.length, vec, nsqrt, nadd, nmul, lift2, fin; cbn [x y z].
  destruct (Rlt_dec (0 * 0 + 0 * 0 + -1 * -1) 0) as [H | _]; [lra |].
  f_equal. replace (0 * 0 + 0 * 0 + -1 * -1) with 1 by ring. apply sqrt_1.
Qed.

(** A vector of numbers that is not flat on the vertical axis has length
    one once normalized. *)
Lemma normalize_unit (dx dy dz : R) :
  0 < dx * dx + dz * dz ->
  THREE.length (normalize {| x := fin dx; y := fin dy; z := fin dz |}) = fin 1.
Proof.
  intro Hflat.
  set (S := dx * dx + dy * dy + dz * dz).
  assert (HS : 0 < S) by (unfold S; nra).
  assert (Hr : 0 < sqrt S) by (now apply sqrt_lt_R0).
  assert (Hlen : THREE.length {| x := fin dx; y := fin dy; z := fin dz |} = Some (sqrt S)).
  { unfold THREE.length, nsqrt, nadd, nmul, lift2, fin; cbn [x y z]. fold S.
    destruct (Rlt_dec S 0); [lra | reflexivity]. }
  unfold normalize, divideScalar. rewrite Hlen. unfold orOne, ndiv, fin.
  destruct (Req_dec_T (sqrt S) 0) as [E | _]; [lra |].
  destruct (Req_dec_T (sqrt S) 0) as [E | _]; [lra |].
  unfold multiplyScalar, THREE.length, nsqrt, nadd, nmul, lift2; cbn [x y z].
  assert (Hone : dx * (1 / sqrt S) * (dx * (1 / sqrt S))
                 + dy * (1 / sqrt S) * (dy * (1 / sqrt S))
                 + dz * (1 / sqrt S) * (dz * (1 / sqrt S)) = 1).
  { transitivity (S / (sqrt S * sqrt S)).
    - set (r := sqrt S) in *. unfold S. field. lra.
    - rewrite sqrt_sqrt by lra. field. lra. }
  rewrite Hone. destruct (Rlt_dec 1 0); [lra |].
  now rewrite sqrt_1.
Qed.

(** X12.  In a track generated, with a segment length that is not zero,
    from frames whose band energies are numbers and whose waveforms are not
    empty, the direction returned inside the track is a unit vector. *)
Theorem direction_is_unit this frames (k : nat) o :
  segmentLength this <> 0 ->
  Forall energiesKnown frames ->
  Forall waveformKnown frames ->
  (k < List.length (trackSegments (generateTrackPath this frames)))%nat ->
  0 <= o <= 1 ->
  exists d,
    getDirectionAtSegment (generateTrackPath this frames) (fin (INR k)) (fin o) = Return d
    /\ THREE.length d = fin 1.
Proof.
  intros Hlen Henergies Hwave Hk Ho.
  destruct (direction_inside this frames k o Hk Ho) as (d & Hd & Hcases).
  exists d. split; [exact Hd |].
  destruct Hcases as [-> | (p & q & Hadj & ->)]; [apply default_axis_unit |].
  pose proof (generated_planar this frames p q Hadj) as Hstep.
  destruct Hadj as (i & Hp & Hq).
  destruct (generated_charted this frames Henergies i p Hp) as (_ & x1 & z1 & _ & Hx1 & Hz1).
  destruct (generated_charted this frames Henergies (S i) q Hq)
    as (_ & x2 & z2 & _ & Hx2 & Hz2).
  pose proof (generated_heights this frames Hwave i p Hp) as Hy1.
  pose proof (generated_heights this frames Hwave (S i) q Hq) as Hy2.
  unfold subVectors. rewrite Hx1, Hz1, Hx2, Hz2, Hy1, Hy2.
  unfold nsub, lift2, fin. apply normalize_unit.
  rewrite (Hstep x1 z1 x2 z2 Hx1 Hz1 Hx2 Hz2). unfold stepLength, pointsPerSegment.
  assert (segmentLength this / 4 <> 0) by (intro E; apply Hlen; lra). nra.
Qed.

(** The start of the second segment of a five-frame track: the direction is
    the normalized step from path point 11 to path point 12, both generated
    from frames. *)
Lemma direction_is_unit_witness :
  exists d,
    getDirectionAtSegment (generateTrackPath create [quiet; quiet; quiet; quiet; quiet])
      (fin (INR 1)) (fin 0)
    = Return d
    /\ THREE.length d = fin 1.
Proof.
  apply (direction_is_unit create [quiet; quiet; quiet; quiet; quiet] 1 0).
  - rewrite create_segmentLength. lra.
  - repeat constructor; apply quiet_energies.
  - repeat constructor; apply quiet_waveform.
  - rewrite (proj2 (generated_lengths create _)). cbn. lia.
  - lra.
Defined.

Lemma leadIn_same a b : sameSettings a b -> leadIn a = leadIn b.
Proof.
  intros (Hlen & _). rewrite !leadIn_points. apply map_ext. intro i.
  unfold leadInPoint. now rewrite Hlen.
Qed.

Lemma pathStep_same a b i frame s :
  sameSettings a b -> pathStep a i frame s = pathStep b i frame s.
Proof.
  intros (Hlen & Hcurve & Hhill). unfold pathStep, elevationTarget.
  now rewrite Hlen, Hcurve, Hhill.
Qed.

Lemma pathLoop_same a b :
  sameSettings a b ->
  forall frames i s, pathLoop a i frames s = pathLoop b i frames s.
Proof.
  intro Hsame. induction frames as [| frame frames IH]; intros i s; cbn [pathLoop].
  - reflexivity.
  - now rewrite (pathStep_same a b i frame s Hsame), IH.
Qed.

(** X13.  A generated path and its segments depend on the frames and on the
    settings of the generator only: nothing of the track the generator held
    before, path, segments or blocks, goes into the new one. *)
Theorem new_track_forgets_old a b frames :
  sameSettings a b ->
  trackPath (generateTrackPath a frames) = trackPath (generateTrackPath b frames)
  /\ trackSegments (generateTrackPath a frames)
     = trackSegments (generateTrackPath b frames).
Proof.
  intro Hsame. unfold generateTrackPath; cbn [trackPath trackSegments set_track].
  unfold initialState. rewrite (leadIn_same a b Hsame), (pathLoop_same a b Hsame).
  now split.
Qed.

(** A generator that already holds a track, and a new one. *)
Lemma new_track_forgets_old_witness :
  trackPath (generateTrackPath (generateTrackPath create [quiet; quiet]) [quiet])
  = trackPath (generateTrackPath create [quiet])
  /\ trackSegments (generateTrackPath (generateTrackPath create [quiet; quiet]) [quiet])
     = trackSegments (generateTrackPath create [quiet]).
Proof.
  apply (new_track_forgets_old (generateTrackPath create [quiet; quiet]) create [quiet]).
  repeat split.
Defined.
End Directions.

(** ** Block colour and playback *)

Section Colour.
Import JSNum AudioProcessor ColorSpec.
Local Open Scope Q_scope.

Lemma ngt_spec (a b : Q) : ngt (fin a) (fin b) = true <-> b < a.
Proof.
  unfold ngt, fin. rewrite negb_true_iff. split.
  - intro H. apply Qnot_le_lt. intro Hle. apply Qle_bool_iff in Hle. congruence.
  - intro H. apply not_true_is_false. intro Hle. apply Qle_bool_iff in Hle.
    apply (Qlt_irrefl b). now apply Qlt_le_trans with a.
Qed.

Lemma loudest_snoc_silent (pre : list num) (i : Z) (m : Q) :
  loudest pre i m -> loudest (pre ++ [NaN]) i m.
Proof.
  intros (Hi & Hmax & Hfirst).
  assert (Hold : forall j e, nth_error (pre ++ [NaN]) j = Some (fin e) ->
                        nth_error pre j = Some (fin e)).
  { intros j e Hj. destruct (Nat.lt_ge_cases j (length pre)) as [Hlt | Hge].
    - now rewrite nth_error_app1 in Hj.
    - rewrite nth_error_app2 in Hj by exact Hge.
      destruct (j - length pre)%nat as [| k]; [discriminate | destruct k; discriminate]. }
  split; [exact Hi |]. split.
  - intros j e Hj. apply (Hmax j), Hold, Hj.
  - destruct Hfirst as [Hzero | (Hnth & Hpos & Hbefore)]; [now left | right].
    split; [| split; [exact Hpos |]].
    + rewrite nth_error_app1; [exact Hnth |]. apply nth_error_Some. congruence.
    + intros j e Hj He. apply (Hbefore j e Hj), Hold, He.
Qed.

Lemma loudest_snoc_lower (pre : list num) (i : Z) (m e : Q) :
  e <= m -> loudest pre i m -> loudest (pre ++ [fin e]) i m.
Proof.
  intros Hle (Hi & Hmax & Hfirst).
  assert (Hold : forall j e', nth_error (pre ++ [fin e]) j = Some (fin e') ->
                         nth_error pre j = Some (fin e') \/ (j = length pre /\ e' = e)).
  { intros j e' Hj. destruct (Nat.lt_ge_cases j (length pre)) as [Hlt | Hge].
    - left. now rewrite nth_error_app1 in Hj.
    - right. rewrite nth_error_app2 in Hj by exact Hge.
      destruct (j - length pre)%nat as [| k] eqn:E; [| destruct k; discriminate].
      cbn in Hj. unfold fin in Hj. injection Hj as <-. split; [lia | reflexivity]. }
  split; [exact Hi |]. split.
  - intros j e' Hj. destruct (Hold j e' Hj) as [H | [_ ->]]; [now apply (Hmax j) | exact Hle].
  - destruct Hfirst as [Hzero | (Hnth & Hpos & Hbefore)]; [now left | right].
    assert (Hlt : (Z.to_nat i < length pre)%nat) by (apply nth_error_Some; congruence).
    split; [| split; [exact Hpos |]].
    + now rewrite nth_error_app1.
    + intros j e' Hj He. destruct (Hold j e' He) as [H | [-> _]]; [| lia].
      now apply (Hbefore j).
Qed.

Lemma loudest_snoc_higher (pre : list num) (i : Z) (m e : Q) :
  0 <= m -> m < e -> loudest pre i m ->
  loudest (pre ++ [fin e]) (Z.of_nat (length pre)) e.
Proof.
  intros Hm Hlt (Hi & Hmax & _).
  assert (Hold : forall j e', nth_error (pre ++ [fin e]) j = Some (fin e') ->
                         nth_error pre j = Some (fin e') \/ (j = length pre /\ e' = e)).
  { intros j e' Hj. destruct (Nat.lt_ge_cases j (length pre)) as [Hl | Hge].
    - left. now rewrite nth_error_app1 in Hj.
    - right. rewrite nth_error_app2 in Hj by exact Hge.
      destruct (j - length pre)%nat as [| k] eqn:E; [| destruct k; discriminate].
      cbn in Hj. unfold fin in Hj. injection Hj as <-. split; [lia | reflexivity]. }
  split; [lia |]. split.
  - intros j e' Hj. destruct (Hold j e' Hj) as [H | [_ ->]]; [| apply Qle_refl].
    apply Qle_trans with m; [now apply (Hmax j) | now apply Qlt_le_weak].
  - right. rewrite Nat2Z.id. split; [| split].
    + rewrite nth_error_app2 by lia. now rewrite Nat.sub_diag.
    + now apply Qle_lt_trans with m.
    + intros j e' Hj He. destruct (Hold j e' He) as [H | [-> _]]; [| lia].
      apply Qle_lt_trans with m; [now apply (Hmax j) | exact Hlt].
Qed.

(** The scan of [determineBlockColor], from a point where it holds the
    loudest band of what it has read. *)
Lemma maxEnergyScan_loudest :
  forall (rest pre : list num) (i : Z) (m : Q),
    0 <= m -> loudest pre i m ->
    exists i' m',
      maxEnergyScan (Z.of_nat (length pre)) rest (i, fin m) = (i', fin m')
      /\ 0 <= m' /\ loudest (pre ++ rest) i' m'.
Proof.
  induction rest as [| e rest IH]; intros pre i m Hm Hloud; cbn [maxEnergyScan].
  - exists i, m. now rewrite app_nil_r.
  - replace (Z.of_nat (length pre) + 1)%Z with (Z.of_nat (length (pre ++ [e])))
      by (rewrite length_app; cbn; lia).
    replace (pre ++ e :: rest) with ((pre ++ [e]) ++ rest) by (now rewrite <- app_assoc).
    cbn [snd]. destruct e as [e |].
    + destruct (ngt (Some e) (fin m)) eqn:Hgt.
      * apply ngt_spec in Hgt. apply IH.
        -- apply Qle_trans with m; [exact Hm | now apply Qlt_le_weak].
        -- now apply loudest_snoc_higher with (i := i) (m := m).
      * apply IH; [exact Hm |]. apply loudest_snoc_lower; [| exact Hloud].
        apply Qnot_lt_le. intro H. apply ngt_spec in H. unfold fin in H, Hgt.
        rewrite H in Hgt. discriminate.
    + apply IH; [exact Hm |]. now apply loudest_snoc_silent.
Qed.

(** X14.  [determineBlockColor] returns an index of the six-colour palette:
    that of the loudest band, the first one in case of a tie and band 0 when
    no energy is positive, taken modulo 6; energies that are [NaN] are passed
    over. *)
Theorem block_color_of_loudest_band (bandEnergies : list num) :
  exists i m,
    maxEnergyScan 0 bandEnergies (0%Z, fin 0) = (i, fin m)
    /\ loudest bandEnergies i m
    /\ determineBlockColor bandEnergies = (i mod 6)%Z
    /\ (0 <= determineBlockColor bandEnergies < 6)%Z.
Proof.
  destruct (maxEnergyScan_loudest bandEnergies [] 0 0) as (i & m & Hscan & _ & Hloud).
  - apply Qle_refl.
  - split; [lia |]. split; [| now left]. intros [| j] e H; discriminate.
  - cbn [length app Z.of_nat] in Hscan, Hloud. exists i, m.
    split; [exact Hscan |]. split; [exact Hloud |].
    assert (E : determineBlockColor bandEnergies = (i mod 6)%Z).
    { unfold determineBlockColor. now rewrite Hscan. }
    split; [exact E |]. rewrite E. apply Z.mod_pos_bound. lia.
Qed.
End Colour.

Section Playback.
Import JSNum AudioProcessor PlaybackSpec.
Local Open Scope Q_scope.

(** X15.  [pause] does not record how far playback got: it clears
    [isPlaying] before it asks for the current time, and so stores the
    position kept from before.  After play, pause and resume, the position
    runs on from that old position, whatever the time played. *)
Theorem pause_keeps_old_position (this : Transport) (t0 t1 t2 dt : Q) :
  loadedBuffer this <> None ->
  isPlaying this = false ->
  let paused := pause t1 (play t0 this) in
  isPlaying paused = false
  /\ currentTime paused = currentTime this
  /\ getCurrentTime (t2 + dt) (resume t2 paused) == currentTime this + dt.
Proof.
  intros Hbuf Hidle. cbv zeta. unfold play.
  destruct (loadedBuffer this) as [buffer |]; [| congruence].
  rewrite Hidle. unfold pause; cbn. unfold resume; cbn. unfold getCurrentTime; cbn.
  repeat split. ring.
Qed.

(** Play at 5 s, pause at 65 s, resume at 70 s. *)
Lemma pause_keeps_old_position_witness :
  let paused := pause 65 (play 5 ready) in
  isPlaying paused = false
  /\ currentTime paused = currentTime ready
  /\ getCurrentTime (70 + 1) (resume 70 paused) == currentTime ready + 1.
Proof.
  apply (pause_keeps_old_position ready 5 65 70 1).
  - discriminate.
  - reflexivity.
Defined.

(** X16.  While playing, the position follows the clock of the audio
    context: [dt] seconds after [play] it is [dt], and [dt] seconds after
    [resume] it is the stored position plus [dt]. *)
Theorem position_follows_clock (this : Transport) (now dt : Q) :
  isPlaying this = false ->
  getCurrentTime (now + dt) (resume now this) == currentTime this + dt
  /\ (loadedBuffer this <> None ->
      getCurrentTime (now + dt) (play now this) == dt).
Proof.
  intro Hidle. split.
  - unfold resume. rewrite Hidle. unfold getCurrentTime; cbn. ring.
  - intro Hbuf. unfold play. destruct (loadedBuffer this); [| congruence].
    rewrite Hidle. unfold getCurrentTime; cbn. ring.
Qed.

Lemma position_follows_clock_witness :
  getCurrentTime (3 + 2) (resume 3 ready) == currentTime ready + 2
  /\ (loadedBuffer ready <> None -> getCurrentTime (3 + 2) (play 3 ready) == 2).
Proof. apply (position_follows_clock ready 3 2). reflexivity. Defined.
End Playback.

(** ** Placing the blocks *)

Section Placement.
Import RNum THREE TrackGenerator PathSpec TrackSpec PlacementSpec.
Local Open Scope R_scope.

(** One round of the placement loop on the track generated from the frames
    being placed. *)
Lemma placeBlock_generated this frames random (i : Z) frame s :
  (0 <= i < Z.of_nat (List.length frames))%Z ->
  let track := generateTrackPath this frames in
  exists s',
    placeBlock track random i frame s = Return s'
    /\ (isBlock frame = false -> s' = s)
    /\ (isBlock frame = true ->
        exists box block,
          placedBlocks s' = placedBlocks s ++ [block]
          /\ placedBoxes s' = placedBoxes s ++ [box]
          /\ draws s' = snd (determineLane track (bandEnergies frame) random (draws s))
          /\ laneIndex block
             = fst (determineLane track (bandEnergies frame) random (draws s))
          /\ segmentIndex block = (i / 4)%Z
          /\ color block = paletteColor (blockColor frame)
          /\ untouched block).
Proof.
  intros Hi track. unfold placeBlock.
  destruct (isBlock frame) eqn:Hblock.
  2:{ exists s. split; [reflexivity |]. split; [reflexivity | discriminate]. }
  destruct (generated_lengths this frames) as [Hp Hn]. fold track in Hp, Hn.
  assert (Hseg : (0 <= i / 4 < Z.of_nat (List.length (trackSegments track)))%Z).
  { rewrite Hn, Nat2Z.inj_div, Nat2Z.inj_add. change (Z.of_nat 3) with 3%Z.
    change (Z.of_nat 4) with 4%Z. Z.div_mod_to_equations. lia. }
  destruct (Z.geb_spec (i / 4) (Z.of_nat (List.length (trackSegments track)))); [lia |].
  destruct (element_inside (trackSegments track) (i / 4) Hseg) as (segment & Hel & Hnth).
  rewrite Hel.
  destruct (generated_layout this frames _ segment Hnth) as (Hstart & _).
  rewrite Z2Nat.id in Hstart by lia.
  assert (Hfirst : (0 <= startPathIndex segment
                    < Z.of_nat (List.length (trackPath track)))%Z).
  { rewrite Hstart, Hp. Z.div_mod_to_equations. lia. }
  assert (Hnext : (0 <= startPathIndex segment + 1
                   < Z.of_nat (List.length (trackPath track)))%Z).
  { rewrite Hstart, Hp. Z.div_mod_to_equations. lia. }
  destruct (element_inside (trackPath track) _ Hfirst) as (pathPoint & Hpoint & _).
  destruct (element_inside (trackPath track) _ Hnext) as (nextPoint & Hnextp & _).
  rewrite Hpoint, Hnextp.
  destruct (determineLane track (bandEnergies frame) random (draws s))
    as [lane drawn] eqn:Hlane.
  destruct (Z.ltb_spec (startPathIndex segment + 1)
              (Z.of_nat (List.length (trackPath track)))); [| lia].
  unfold createBlock. eexists. split; [reflexivity |].
  split; [discriminate |]. intros _. do 2 eexists.
  cbn [placedBlocks placedBoxes draws]. repeat split.
Qed.
End Placement.

Section Placement2.
Import RNum THREE TrackGenerator PathSpec TrackSpec PlacementSpec.
Local Open Scope R_scope.

(** The placement loop on the track generated from the frames being
    placed, from frame [i] on. *)
Lemma placeLoop_generated this frames random :
  let track := generateTrackPath this frames in
  forall rest (i : Z) s,
    (0 <= i)%Z -> (i + Z.of_nat (List.length rest) <= Z.of_nat (List.length frames))%Z ->
    exists s' new,
      placeLoop track random i rest s = Return s'
      /\ placedBlocks s' = placedBlocks s ++ new
      /\ List.length (placedBoxes s') = (List.length (placedBoxes s) + List.length new)%nat
      /\ map segmentIndex new = map (fun j => (j / 4)%Z) (blockFrames i rest)
      /\ map color new = map (fun a => paletteColor (blockColor a)) (filter isBlock rest)
      /\ Forall untouched new
      /\ Forall (fun block =>
                   exists energies drawn,
                     laneIndex block = fst (determineLane track energies random drawn))
                new.
Proof.
  intro track. induction rest as [| frame rest IH]; intros i s Hi Hlen;
    cbn [placeLoop blockFrames filter].
  - exists s, []. rewrite app_nil_r. repeat split; try constructor. cbn. lia.
  - cbn [List.length] in Hlen.
    destruct (placeBlock_generated this frames random i frame s) as (s1 & Hs1 & Hskip & Hput);
      [lia |].
    fold track in Hs1, Hput. rewrite Hs1.
    destruct (IH (i + 1)%Z s1) as (s' & new & Hrun & Hblocks & Hboxes & Hsegs & Hcols & Hun & Hlanes);
      [lia | lia |].
    exists s'. rewrite Hrun. destruct (isBlock frame) eqn:Hblock.
    + destruct (Hput eq_refl)
        as (box & block & Hb1 & Hx1 & _ & Hlane & Hseg & Hcol & Huntouched).
      exists (block :: new). split; [reflexivity |].
      rewrite Hblocks, Hb1, <- app_assoc. split; [reflexivity |].
      rewrite Hboxes, Hx1, length_app. cbn [List.length map]. split; [lia |].
      rewrite Hsegs, Hcols, Hseg, Hcol. repeat split; try constructor; try assumption.
      now exists (bandEnergies frame), (draws s).
    + rewrite (Hskip eq_refl) in *. exists new. repeat split; assumption.
Qed.

(** X17.  On the track generated from the same frames,
    [generateTrackObjects] does not throw and leaves the path and the
    segments alone.  It puts one block, with one box in the scene, for each
    frame flagged as a block, in the order of the frames: the block of frame
    [i] sits on segment [floor (i / 4)], which exists, has the palette colour
    of the frame, a mesh, and is shown and not collected. *)
Theorem blocks_follow_frames this frames random drawn :
  let track := generateTrackPath this frames in
  exists track' boxes drawn',
    generateTrackObjects track frames random drawn = Return (track', boxes, drawn')
    /\ trackPath track' = trackPath track
    /\ trackSegments track' = trackSegments track
    /\ List.length boxes = List.length (blocks track')
    /\ map segmentIndex (blocks track') = map (fun i => (i / 4)%Z) (blockFrames 0 frames)
    /\ map color (blocks track')
       = map (fun a => paletteColor (blockColor a)) (filter isBlock frames)
    /\ Forall untouched (blocks track')
    /\ Forall (fun block =>
                 (0 <= segmentIndex block < Z.of_nat (List.length (trackSegments track)))%Z)
              (blocks track').
Proof.
  intro track. unfold generateTrackObjects.
  destruct (placeLoop_generated this frames random frames 0
              {| placedBlocks := []; placedBoxes := []; draws := drawn |})
    as (s' & new & Hrun & Hblocks & Hboxes & Hsegs & Hcols & Hun & _); [lia | lia |].
  fold track in Hrun. rewrite Hrun. cbn [placedBlocks placedBoxes app List.length] in *.
  do 3 eexists. split; [reflexivity |]. cbn [trackPath trackSegments blocks set_blocks].
  rewrite Hblocks. repeat split; try assumption.
  assert (Hall : forall rest i,
             (0 <= i)%Z ->
             (i + Z.of_nat (List.length rest) <= Z.of_nat (List.length frames))%Z ->
             Forall (fun j => (0 <= j / 4 < Z.of_nat (List.length (trackSegments track)))%Z)
                    (blockFrames i rest)).
  { destruct (generated_lengths this frames) as [_ Hn]. fold track in Hn.
    induction rest as [| frame rest IH]; intros i Hi Hlen; cbn [blockFrames];
      [constructor |].
    cbn [List.length] in Hlen.
    assert (Hrest : Forall
              (fun j => (0 <= j / 4 < Z.of_nat (List.length (trackSegments track)))%Z)
              (blockFrames (i + 1) rest)) by (apply IH; lia).
    destruct (isBlock frame); [constructor |]; try exact Hrest.
    rewrite Hn, Nat2Z.inj_div, Nat2Z.inj_add. change (Z.of_nat 3) with 3%Z.
    change (Z.of_nat 4) with 4%Z. Z.div_mod_to_equations. lia. }
  specialize (Hall frames 0%Z ltac:(lia) ltac:(lia)).
  apply Forall_forall. intros block Hin.
  apply (in_map segmentIndex) in Hin. rewrite Hsegs in Hin.
  apply in_map_iff in Hin. destruct Hin as (j & <- & Hj).
  rewrite Forall_forall in Hall. now apply Hall.
Qed.

Lemma Int_part_IZR (n : Z) : Int_part (IZR n) = n.
Proof. symmetry. apply Int_part_spec. lra. Qed.

Lemma laneScan_range this (n : Z) :
  laneCount this = n -> (0 < n)%Z ->
  forall rest (i : Z) cumulative randomValue lane,
    (0 <= i)%Z ->
    laneScan this i rest cumulative randomValue = Some lane ->
    (0 <= lane < n)%Z.
Proof.
  intros Hcount Hn. induction rest as [| energy rest IH];
    intros i cumulative randomValue lane Hi Hscan; cbn [laneScan] in Hscan.
  - discriminate.
  - destruct (nle randomValue (nadd cumulative energy)).
    + injection Hscan as <-. rewrite Hcount. now apply Z.rem_bound_pos.
    + eapply IH; [| exact Hscan]. lia.
Qed.

(** The lane drawn for a generator with [n] lanes, from random numbers of
    the unit interval, is one of the [n] lanes. *)
Lemma determineLane_range this (n : Z) energies random drawn :
  lanes this = IZR n -> (0 < n)%Z ->
  (forall k, 0 <= random k < 1) ->
  (0 <= fst (determineLane this energies random drawn) < n)%Z.
Proof.
  intros Hlanes Hn Hrandom. unfold determineLane.
  assert (Hcount : laneCount this = n).
  { unfold laneCount. rewrite Hlanes. apply Int_part_IZR. }
  destruct (laneScan this 0 energies (fin 0)
              (nmul (fin (random drawn)) (fold_left nadd energies (fin 0))))
    as [lane |] eqn:Hscan; cbn [fst].
  - apply (laneScan_range this n Hcount Hn _ _ _ _ lane (Z.le_refl 0) Hscan).
  - rewrite Hlanes. destruct (Hrandom (S drawn)) as [Hlo Hhi].
    destruct (base_Int_part (random (S drawn) * IZR n)) as [Hfl Hfu].
    set (f := Int_part (random (S drawn) * IZR n)) in *.
    assert (Hpos : 0 < IZR n) by (now apply IZR_lt).
    assert (H1 : IZR (-1) < IZR f) by nra.
    assert (H2 : IZR f < IZR n) by nra.
    apply lt_IZR in H1. apply lt_IZR in H2. lia.
Qed.

(** X18.  With a whole, positive number of lanes and random numbers of the
    unit interval, every block placed on a generated track is in one of the
    lanes. *)
Theorem blocks_in_lanes this (n : Z) frames random drawn :
  lanes this = IZR n -> (0 < n)%Z ->
  (forall k, 0 <= random k < 1) ->
  exists track' boxes drawn',
    generateTrackObjects (generateTrackPath this frames) frames random drawn
    = Return (track', boxes, drawn')
    /\ Forall (fun block => (0 <= laneIndex block < n)%Z) (blocks track').
Proof.
  intros Hlanes Hn Hrandom. unfold generateTrackObjects.
  destruct (placeLoop_generated this frames random frames 0
              {| placedBlocks := []; placedBoxes := []; draws := drawn |})
    as (s' & new & Hloop & Hblocks & _ & _ & _ & _ & Hlane); [lia | lia |].
  rewrite Hloop. do 3 eexists. split; [reflexivity |].
  cbn [blocks set_blocks]. rewrite Hblocks. cbn [placedBlocks app].
  eapply Forall_impl; [| exact Hlane].
  intros block (energies & d & ->).
  apply determineLane_range; assumption.
Qed.

(** One kick on three lanes, with a random source stuck at one half. *)
Lemma blocks_in_lanes_witness :
  exists track' boxes drawn',
    generateTrackObjects (generateTrackPath create [kick]) [kick] fair 0
    = Return (track', boxes, drawn')
    /\ Forall (fun block => (0 <= laneIndex block < 3)%Z) (blocks track').
Proof.
  apply (blocks_in_lanes create 3 [kick] fair 0).
  - reflexivity.
  - lia.
  - intro k. unfold fair. lra.
Defined.
End Placement2.

Section Lanes.
Import RNum THREE TrackGenerator PathSpec TrackSpec PlacementSpec.
Local Open Scope R_scope.

Lemma sum_from_nan (energies : list num) : fold_left nadd energies NaN = NaN.
Proof. induction energies as [| e energies IH]; [reflexivity | exact IH]. Qed.

Lemma sum_with_nan (energies : list num) (acc : num) :
  In NaN energies -> fold_left nadd energies acc = NaN.
Proof.
  revert acc. induction energies as [| e energies IH]; intros acc Hin; [destruct Hin |].
  cbn [fold_left]. destruct Hin as [-> | Hin].
  - destruct acc; apply sum_from_nan.
  - now apply IH.
Qed.

Lemma sum_of_zeros (energies : list num) (acc : R) :
  Forall (eq (fin 0)) energies -> acc = 0 ->
  exists t, fold_left nadd energies (fin acc) = fin t /\ t = 0.
Proof.
  revert acc. induction energies as [| e energies IH]; intros acc Hall Hacc.
  - now exists acc.
  - inversion Hall as [| e' l He Hrest]; subst e' l. rewrite <- He. cbn [fold_left].
    apply IH; [exact Hrest | lra].
Qed.

Lemma laneScan_nan this i rest cumulative :
  laneScan this i rest cumulative NaN = None.
Proof.
  revert i cumulative. induction rest as [| e rest IH]; intros i cumulative;
    cbn [laneScan]; [reflexivity |].
  unfold nle. destruct (nadd cumulative e); apply IH.
Qed.

(** X19.  The edges of the lane draw, for a whole, positive number of
    lanes.  When every band energy is zero the lane is lane 0, whatever the
    random number; when an energy is [NaN], or there is no band at all, no
    band is picked and the lane is [floor (random * lanes)], from a second
    random number. *)
Theorem lane_draw_edges this (n : Z) (energies : list num) random drawn :
  lanes this = IZR n -> (0 < n)%Z ->
  (energies <> [] -> Forall (eq (fin 0)) energies ->
   determineLane this energies random drawn = (0%Z, S drawn))
  /\ (In NaN energies \/ energies = [] ->
      determineLane this energies random drawn
      = (Int_part (random (S drawn) * IZR n), S (S drawn))).
Proof.
  intros Hlanes Hn. split.
  - intros Hne Hzero. unfold determineLane.
    destruct (sum_of_zeros energies 0 Hzero eq_refl) as (t & -> & ->).
    destruct energies as [| e rest]; [congruence |].
    inversion Hzero as [| e' l He _]; subst e' l. rewrite <- He.
    cbn [laneScan]. unfold nle, nmul, nadd, lift2, fin.
    destruct (Rle_dec (random drawn * 0) (0 + 0)) as [_ | Hno]; [reflexivity | lra].
  - rewrite <- Hlanes. intros [Hnan | ->]; unfold determineLane.
    + rewrite (sum_with_nan energies (fin 0) Hnan).
      replace (nmul (fin (random drawn)) NaN) with NaN by reflexivity.
      now rewrite laneScan_nan.
    + reflexivity.
Qed.

(** Three lanes and a silent frame. *)
Lemma lane_draw_edges_witness :
  (bandEnergies quiet <> [] -> Forall (eq (fin 0)) (bandEnergies quiet) ->
   determineLane create (bandEnergies quiet) fair 0 = (0%Z, 1%nat))
  /\ (In NaN (bandEnergies quiet) \/ bandEnergies quiet = [] ->
      determineLane create (bandEnergies quiet) fair 0
      = (Int_part (fair 1 * IZR 3), 2%nat)).
Proof.
  apply (lane_draw_edges create 3 (bandEnergies quiet) fair 0).
  - reflexivity.
  - lia.
Defined.

Lemma laneScan_over_zeros this (count : nat) rest (randomValue : R) :
  0 < randomValue ->
  forall (i : Z) (c : R),
    c = 0 ->
    exists c',
      c' = 0
      /\ laneScan this i (repeat (fin 0) count ++ rest) (fin c) (fin randomValue)
         = laneScan this (i + Z.of_nat count) rest (fin c') (fin randomValue).
Proof.
  intro Hpos. induction count as [| count IH]; intros i c Hc.
  - exists c. split; [exact Hc |]. cbn. now rewrite Z.add_0_r.
  - cbn [repeat app laneScan]. unfold nle, nadd, lift2, fin.
    destruct (Rle_dec randomValue (c + 0)) as [Hle | _]; [lra |].
    destruct (IH (i + 1)%Z (c + 0)) as (c' & Hc' & Hscan); [lra |].
    exists c'. split; [exact Hc' |]. unfold fin in Hscan. rewrite Hscan.
    f_equal. lia.
Qed.

(** X20.  With a whole, positive number of lanes: when one band alone has
    energy, and the random number is above zero and at most one, the lane is
    that band's, its index modulo the number of lanes. *)
Theorem single_band_picks_its_lane this (n : Z) (band after : nat) (e : R) random drawn :
  lanes this = IZR n -> (0 < n)%Z ->
  0 < e -> 0 < random drawn <= 1 ->
  determineLane this (repeat (fin 0) band ++ fin e :: repeat (fin 0) after) random drawn
  = (Z.rem (Z.of_nat band) n, S drawn).
Proof.
  intros Hlanes Hn He Hrandom. unfold determineLane.
  assert (Hcount : laneCount this = n).
  { unfold laneCount. rewrite Hlanes. apply Int_part_IZR. }
  assert (Htotal : exists t,
             fold_left nadd (repeat (fin 0) band ++ fin e :: repeat (fin 0) after) (fin 0)
             = fin t /\ t = e).
  { rewrite fold_left_app.
    destruct (sum_of_zeros (repeat (fin 0) band) 0) as (t0 & -> & ->);
      [apply Forall_forall; intros x Hx; now apply repeat_spec in Hx | reflexivity |].
    cbn [fold_left]. unfold nadd at 2, lift2, fin.
    assert (Hgen : forall acc, exists t,
               fold_left nadd (repeat (Some 0) after) (Some acc) = Some t /\ t = acc).
    { induction after as [| k IH]; intro acc; cbn [repeat fold_left].
      - now exists acc.
      - unfold nadd at 2, lift2. destruct (IH (acc + 0)) as (t & Ht & Hv).
        exists t. split; [exact Ht | lra]. }
    destruct (Hgen (0 + e)) as (t & Ht & Hv). exists t. split; [exact Ht | lra]. }
  destruct Htotal as (t & -> & ->). unfold nmul, lift2, fin.
  assert (Hpos : 0 < random drawn * e) by nra.
  destruct (laneScan_over_zeros this band (Some e :: repeat (Some 0) after)
              (random drawn * e) Hpos 0 0 eq_refl) as (c' & Hc' & Hscan).
  unfold fin in Hscan.
  match goal with
  | |- match ?scan with Some _ => _ | None => _ end = _ =>
      replace scan with
        (laneScan this (0 + Z.of_nat band) (Some e :: repeat (Some 0) after)
           (Some c') (Some (random drawn * e)))
        by (symmetry; exact Hscan)
  end.
  cbn [laneScan]. unfold nle, nadd, lift2.
  destruct (Rle_dec (random drawn * e) (c' + e)) as [_ | Hno]; [| nra].
  now rewrite Z.add_0_l, Hcount.
Qed.

(** A frame whose energy is all in the second band, on three lanes. *)
Lemma single_band_picks_its_lane_witness :
  determineLane create (repeat (fin 0) 1 ++ fin (9 / 10) :: repeat (fin 0) 4) fair 0
  = (Z.rem (Z.of_nat 1) 3, 1%nat).
Proof.
  apply (single_band_picks_its_lane create 3 1 4 (9 / 10) fair 0).
  - reflexivity.
  - lia.
  - lra.
  - unfold fair. lra.
Defined.
End Lanes.

(** ** The track mesh and its grid *)

Section Mesh.
Import RNum THREE TrackGenerator PathSpec TrackSpec PlacementSpec MeshSpec.
Local Open Scope R_scope.

Lemma forStep_invariant {T : Type} (body : Z -> T -> Completion T) (step : Z) :
  forall (n : nat) (I : nat -> T -> Prop) (i : Z) (s : T),
    I 0%nat s ->
    (forall k s, (k < n)%nat -> I k s ->
       exists s', body (i + Z.of_nat k * step)%Z s = Return s' /\ I (S k) s') ->
    exists s', forStep n i step body s = Return s' /\ I n s'.
Proof.
  induction n as [| n IH]; intros I i s H0 Hstep; cbn [forStep].
  - now exists s.
  - destruct (Hstep 0%nat s) as (s1 & Hs1 & H1); [lia | exact H0 |].
    replace (i + Z.of_nat 0 * step)%Z with i in Hs1 by lia. rewrite Hs1.
    apply (IH (fun k => I (S k)) (i + step)%Z s1 H1).
    intros k s2 Hk Hs2. destruct (Hstep (S k) s2) as (s3 & Hs3 & H3); [lia | exact Hs2 |].
    exists s3. split; [| exact H3].
    replace (i + step + Z.of_nat k * step)%Z with (i + Z.of_nat (S k) * step)%Z by lia.
    exact Hs3.
Qed.

(** Where the path points of a segment of a generated track are. *)
Lemma segment_inside this frames k segment :
  nth_error (trackSegments (generateTrackPath this frames)) k = Some segment ->
  startPathIndex segment = (7 + 4 * Z.of_nat k)%Z
  /\ endPathIndex segment = (10 + 4 * Z.of_nat k)%Z
  /\ (endPathIndex segment
      < Z.of_nat (List.length (trackPath (generateTrackPath this frames))))%Z.
Proof.
  intro Hk. destruct (generated_layout this frames k segment Hk) as (Hs & He & _).
  destruct (generated_lengths this frames) as [Hp Hn].
  assert (Hlt : (k < List.length (trackSegments (generateTrackPath this frames)))%nat)
    by (apply nth_error_Some; congruence).
  rewrite Hn in Hlt.
  pose proof (Nat.div_mod_eq (List.length frames + 3) 4) as Hdm.
  pose proof (Nat.mod_upper_bound (List.length frames + 3) 4) as Hmod.
  repeat split; try assumption. rewrite He, Hp. lia.
Qed.

Lemma meshSegment_generated this frames k i segment m :
  let track := generateTrackPath this frames in
  nth_error (trackSegments track) k = Some segment ->
  exists m',
    meshSegment track i segment m = Return m'
    /\ List.length (vertices m') = (List.length (vertices m) + 12)%nat
    /\ List.length (normals m') = (List.length (normals m) + 12)%nat
    /\ List.length (uvs m') = (List.length (uvs m) + 8)%nat
    /\ indices m'
       = indices m
         ++ (let baseIndex := (Z.of_nat (List.length (vertices m)) / 3)%Z in
             [baseIndex; baseIndex + 1; baseIndex + 2;
              baseIndex + 1; baseIndex + 3; baseIndex + 2]%Z).
Proof.
  intros track Hk. destruct (segment_inside this frames k segment Hk) as (Hs & He & Hlt).
  fold track in Hlt.
  destruct (element_inside (trackPath track) (startPathIndex segment)) as (p & Hp & _);
    [lia |].
  destruct (element_inside (trackPath track) (endPathIndex segment)) as (q & Hq & _);
    [lia |].
  unfold meshSegment. rewrite Hp, Hq. eexists. split; [reflexivity |].
  cbn [vertices normals uvs indices]. rewrite !length_app.
  repeat split; reflexivity.
Qed.

Lemma meshLoop_generated this frames :
  let track := generateTrackPath this frames in
  forall rest (i : Z) (count : nat) m,
    Forall (fun segment => exists k, nth_error (trackSegments track) k = Some segment) rest ->
    surface count m ->
    exists m',
      meshLoop track i rest m = Return m'
      /\ surface (count + List.length rest) m'.
Proof.
  intro track. induction rest as [| segment rest IH]; intros i count m Hin Hm;
    cbn [meshLoop List.length].
  - exists m. split; [reflexivity |]. now rewrite Nat.add_0_r.
  - inversion Hin as [| s l (k & Hk) Hrest]; subst s l.
    destruct (meshSegment_generated this frames k i segment m Hk)
      as (m1 & Hrun & Hv & Hn & Hu & Hi).
    fold track in Hrun. rewrite Hrun.
    destruct Hm as (Hmv & Hmn & Hmu & Hmi & Hall).
    destruct (IH (i + 1)%Z (S count) m1 Hrest) as (m' & Hloop & Hm').
    { unfold surface. rewrite Hv, Hn, Hu, Hi, length_app, Hmv, Hmi.
      cbv zeta. cbn [List.length].
      replace (Z.of_nat (12 * count) / 3)%Z with (4 * Z.of_nat count)%Z
        by (Z.div_mod_to_equations; lia).
      repeat split; try lia.
      apply Forall_app. split.
      - eapply Forall_impl; [| exact Hall]. cbv beta. intros index Hindex. lia.
      - repeat constructor; lia. }
    exists m'. split; [exact Hloop |].
    now replace (count + S (List.length rest))%nat with (S count + List.length rest)%nat
      by lia.
Qed.

(** The surface loop of [createTrackMesh] on a generated track. *)
Lemma surface_generated this frames :
  let track := generateTrackPath this frames in
  exists m,
    meshLoop track 0 (trackSegments track)
      {| vertices := []; normals := []; uvs := []; indices := [] |} = Return m
    /\ surface (List.length (trackSegments track)) m.
Proof.
  intro track.
  apply (meshLoop_generated this frames (trackSegments track) 0 0%nat).
  - apply Forall_forall. intros segment Hin. now apply In_nth_error.
  - unfold surface. cbn [vertices normals uvs indices List.length].
    repeat split; try lia. constructor.
Qed.
End Mesh.

Section Grid.
Import RNum THREE TrackGenerator PathSpec TrackSpec PlacementSpec MeshSpec.
Local Open Scope R_scope.

(** A cross line of the grid of a generated track of six segments or more. *)
Lemma crossLine_generated this frames (k : nat) gridVertices :
  let track := generateTrackPath this frames in
  (6 <= List.length (trackSegments track))%nat ->
  (5 * k < List.length (trackSegments track))%nat ->
  exists gridVertices',
    crossLine track (0 + Z.of_nat k * 5) gridVertices = Return gridVertices'
    /\ List.length gridVertices' = (List.length gridVertices + 6)%nat.
Proof.
  intros track Hsix Hk. set (i := (0 + Z.of_nat k * 5)%Z).
  destruct (element_inside (trackSegments track) i) as (segment & Hel & Hnth);
    [unfold i; lia |].
  destruct (segment_inside this frames _ segment Hnth) as (Hs & He & Hlt).
  fold track in Hlt.
  destruct (element_inside (trackPath track) (startPathIndex segment)) as (point & Hpoint & _);
    [lia |].
  unfold crossLine. cbv zeta. rewrite Hel, Hpoint.
  destruct (Z.ltb_spec (i + 5) (Z.of_nat (List.length (trackSegments track))))
    as [Hnext | Hlast].
  - destruct (element_inside (trackSegments track) (i + 5)) as (next & Hnel & Hnnth);
      [unfold i in *; lia |].
    destruct (segment_inside this frames _ next Hnnth) as (Hns & Hne & Hnlt).
    fold track in Hnlt.
    destruct (element_inside (trackPath track) (startPathIndex next)) as (q & Hq & _);
      [lia |].
    rewrite Hnel, Hq. eexists. split; [reflexivity |].
    rewrite length_app. reflexivity.
  - destruct (element_inside (trackSegments track) (i - 5)) as (prev & Hpel & Hpnth);
      [unfold i in *; lia |].
    destruct (segment_inside this frames _ prev Hpnth) as (Hps & Hpe & Hplt).
    fold track in Hplt.
    destruct (element_inside (trackPath track) (startPathIndex prev)) as (q & Hq & _);
      [lia |].
    rewrite Hpel, Hq. eexists. split; [reflexivity |].
    rewrite length_app. reflexivity.
Qed.

(** The first cross line of a track of one to five segments: there is no
    segment five before the first. *)
Lemma crossLine_short this frames gridVertices :
  let track := generateTrackPath this frames in
  (1 <= List.length (trackSegments track) <= 5)%nat ->
  crossLine track 0 gridVertices = Throw.
Proof.
  intros track Hsegs.
  destruct (element_inside (trackSegments track) 0) as (segment & Hel & _); [lia |].
  unfold crossLine. cbv zeta. rewrite Hel.
  destruct (Z.ltb_spec (0 + 5) (Z.of_nat (List.length (trackSegments track)))); [lia |].
  change (indexOfZ (Some (0 - 5)%Z)) with (@None nat). cbn [element]. reflexivity.
Qed.

(** A line along the path. *)
Lemma alongLine_generated (track : TrackGenerator) offset (k : nat) gridVertices :
  (k < roundsAlong track)%nat ->
  exists gridVertices',
    alongLine track offset (0 + Z.of_nat k * 5) gridVertices = Return gridVertices'
    /\ List.length gridVertices' = (List.length gridVertices + 6)%nat.
Proof.
  unfold roundsAlong. intro Hk. set (i := (0 + Z.of_nat k * 5)%Z).
  assert (Hi : (0 <= i /\ i + 5 < Z.of_nat (List.length (trackPath track)))%Z).
  { unfold i. split; [lia |].
    assert (Z.of_nat k < (Z.of_nat (List.length (trackPath track)) - 1) / 5)%Z by lia.
    Z.div_mod_to_equations. lia. }
  destruct (element_inside (trackPath track) i) as (p & Hp & _); [lia |].
  destruct (element_inside (trackPath track) (i + 5)) as (q & Hq & _); [lia |].
  unfold alongLine. cbv zeta. rewrite Hp, Hq. eexists. split; [reflexivity |].
  rewrite length_app. reflexivity.
Qed.

(** The lines along the path at one offset. *)
Lemma alongLoop_generated (track : TrackGenerator) offset gridVertices :
  exists gridVertices',
    forStep (roundsAlong track) 0 5 (alongLine track offset) gridVertices
    = Return gridVertices'
    /\ List.length gridVertices'
       = (List.length gridVertices + 6 * roundsAlong track)%nat.
Proof.
  apply (forStep_invariant (alongLine track offset) 5 (roundsAlong track)
           (fun k g => List.length g = (List.length gridVertices + 6 * k)%nat)).
  - lia.
  - intros k g Hk Hg.
    destruct (alongLine_generated track offset k g Hk) as (g' & Hrun & Hlen).
    exists g'. split; [exact Hrun | lia].
Qed.

(** [addTrackGrid] on a generated track with no segment, or with six or
    more. *)
Lemma addTrackGrid_generated this frames :
  let track := generateTrackPath this frames in
  List.length (trackSegments track) = 0%nat \/ (6 <= List.length (trackSegments track))%nat ->
  exists gridVertices,
    addTrackGrid track = Return gridVertices
    /\ List.length gridVertices
       = (6 * (crossLines track + (2 + dividers track) * roundsAlong track))%nat.
Proof.
  intros track Hsegs. unfold addTrackGrid. cbv zeta.
  destruct (forStep_invariant (crossLine track) 5 (crossLines track)
              (fun k g => List.length g = (6 * k)%nat) 0 [])
    as (g0 & Hcross & Hlen0).
  { reflexivity. }
  { intros k g Hk Hg. unfold crossLines in Hk.
    assert (H5 : (5 * k < List.length (trackSegments track))%nat).
    { assert (Z.of_nat k < (Z.of_nat (List.length (trackSegments track)) + 4) / 5)%Z by lia.
      Z.div_mod_to_equations. lia. }
    destruct Hsegs as [Hnone | Hsix]; [lia |].
    destruct (crossLine_generated this frames k g Hsix H5) as (g' & Hrun & Hlen).
    exists g'. split; [exact Hrun | lia]. }
  unfold crossLines in Hcross. rewrite Hcross. cbn [forStep].
  match goal with
  | |- context [forStep (roundsAlong track) 0 5 (alongLine track ?o) g0] =>
      destruct (alongLoop_generated track o g0) as (g1 & Hleft & Hlen1); rewrite Hleft
  end.
  match goal with
  | |- context [forStep (roundsAlong track) 0 5 (alongLine track ?o) g1] =>
      destruct (alongLoop_generated track o g1) as (g2 & Hright & Hlen2); rewrite Hright
  end.
  unfold dividers.
  destruct (ngt (fin (lanes track)) (fin 1)).
  - apply (forStep_invariant _ 1 (innerLanes track)
             (fun k g => List.length g
                         = (6 * (crossLines track + (2 + k) * roundsAlong track))%nat)).
    + lia.
    + intros k g Hk Hg.
      match goal with
      | |- context [forStep (roundsAlong track) 0 5 (alongLine track ?o) g] =>
          destruct (alongLoop_generated track o g) as (g' & Hlane & Hlen)
      end.
      exists g'. split; [exact Hlane | lia].
  - exists g2. split; [reflexivity | lia].
Qed.

(** The lane dividers of a generator with a whole number of lanes. *)
Lemma dividers_whole this (n : Z) :
  lanes this = IZR n -> (1 <= n)%Z -> dividers this = Z.to_nat (n - 1).
Proof.
  intros Hlanes Hn. unfold dividers, innerLanes, ngt, fin. rewrite Hlanes.
  destruct (Rgt_dec (IZR n) 1) as [Hgt | Hle].
  - rewrite <- opp_IZR, Int_part_IZR. f_equal. lia.
  - assert (H1 : IZR n <= IZR 1) by lra. apply le_IZR in H1.
    replace n with 1%Z by lia. reflexivity.
Qed.
End Grid.

Section Generation.
Import RNum THREE TrackGenerator PathSpec TrackSpec PlacementSpec MeshSpec.
Local Open Scope R_scope.

(** X21.  [generateTrack] throws on one to twenty frames: the track then has
    one to five segments, and the first cross line of the grid, finding no
    segment five further on, reads the segment five before the first, which
    is [undefined]. *)
Theorem short_track_throws this frames random drawn :
  (1 <= List.length frames <= 20)%nat ->
  generateTrack this frames random drawn = Throw.
Proof.
  intro Hframes. unfold generateTrack. cbv zeta.
  set (track := generateTrackPath (clearTrack this) frames).
  destruct (generated_lengths (clearTrack this) frames) as [_ Hn]. fold track in Hn.
  assert (Hsegs : (1 <= List.length (trackSegments track) <= 5)%nat).
  { rewrite Hn.
    pose proof (Nat.div_mod_eq (List.length frames + 3) 4).
    pose proof (Nat.mod_upper_bound (List.length frames + 3) 4). lia. }
  unfold createTrackMesh.
  destruct (surface_generated (clearTrack this) frames) as (m & Hm & _).
  fold track in Hm. rewrite Hm.
  unfold addTrackGrid. cbv zeta.
  replace (Z.to_nat ((Z.of_nat (List.length (trackSegments track)) + 4) / 5)) with 1%nat
    by (apply Nat2Z.inj; rewrite Z2Nat.id; Z.div_mod_to_equations; lia).
  cbn [forStep].
  now rewrite (crossLine_short (clearTrack this) frames [] Hsegs
               : crossLine track 0 [] = Throw).
Qed.

(** A track for a single frame. *)
Lemma short_track_throws_witness : generateTrack create [quiet] fair 0 = Throw.
Proof.
  apply (short_track_throws create [quiet] fair 0). cbn [List.length]. lia.
Defined.

(** [createTrackMesh] on a generated track with no frame, or with
    twenty-one or more. *)
Lemma createTrackMesh_generated this frames :
  let track := generateTrackPath this frames in
  List.length frames = 0%nat \/ (21 <= List.length frames)%nat ->
  exists m gridVertices,
    createTrackMesh track = Return (m, gridVertices)
    /\ surface (List.length (trackSegments track)) m
    /\ List.length gridVertices
       = (6 * (crossLines track + (2 + dividers track) * roundsAlong track))%nat.
Proof.
  intros track Hframes.
  destruct (generated_lengths this frames) as [_ Hn]. fold track in Hn.
  assert (Hsegs : List.length (trackSegments track) = 0%nat
                  \/ (6 <= List.length (trackSegments track))%nat).
  { rewrite Hn.
    pose proof (Nat.div_mod_eq (List.length frames + 3) 4).
    pose proof (Nat.mod_upper_bound (List.length frames + 3) 4).
    destruct Hframes as [Hnone | Hmany]; [left | right]; lia. }
  unfold createTrackMesh.
  destruct (surface_generated this frames) as (m & Hm & Hsurface).
  fold track in Hm, Hsurface. rewrite Hm.
  destruct (addTrackGrid_generated this frames Hsegs) as (g & Hg & Hlen).
  fold track in Hg, Hlen. rewrite Hg.
  exists m, g. repeat split; try apply Hsurface. exact Hlen.
Qed.

(** X22.  For no frame, or for twenty-one or more, and a whole number of
    lanes, [createTrackMesh] returns on the generated track.  The surface
    has four vertices, four normals, four texture points and two triangles
    for each segment, and every triangle corner is one of the vertices.  The
    grid has one cross line every five segments and, on each side and between
    two lanes, one line every five path points, each of two points. *)
Theorem track_mesh_buffers this (n : Z) frames :
  lanes this = IZR n -> (1 <= n)%Z ->
  List.length frames = 0%nat \/ (21 <= List.length frames)%nat ->
  exists m gridVertices,
    createTrackMesh (generateTrackPath this frames) = Return (m, gridVertices)
    /\ surface (List.length (trackSegments (generateTrackPath this frames))) m
    /\ Z.of_nat (List.length gridVertices)
       = (6 * ((Z.of_nat (List.length (trackSegments (generateTrackPath this frames))) + 4) / 5
               + (n + 1) * ((Z.of_nat (List.length frames) + 9) / 5)))%Z.
Proof.
  intros Hlanes Hn Hframes.
  destruct (createTrackMesh_generated this frames Hframes) as (m & g & Hrun & Hsurface & Hlen).
  exists m, g. split; [exact Hrun |]. split; [exact Hsurface |].
  rewrite Hlen.
  assert (Hd : dividers (generateTrackPath this frames) = Z.to_nat (n - 1))
    by (apply dividers_whole; assumption).
  rewrite Hd. unfold crossLines, roundsAlong.
  rewrite (proj1 (generated_lengths this frames)).
  set (segs := Z.of_nat (List.length (trackSegments (generateTrackPath this frames)))).
  replace (Z.of_nat (10 + List.length frames) - 1)%Z
    with (Z.of_nat (List.length frames) + 9)%Z by lia.
  assert (0 <= (segs + 4) / 5)%Z by (unfold segs; Z.div_mod_to_equations; lia).
  assert (0 <= (Z.of_nat (List.length frames) + 9) / 5)%Z by (Z.div_mod_to_equations; lia).
  rewrite Nat2Z.inj_mul, Nat2Z.inj_add, Nat2Z.inj_mul, Nat2Z.inj_add, !Z2Nat.id by lia.
  change (Z.of_nat 6) with 6%Z. change (Z.of_nat 2) with 2%Z. ring.
Qed.

(** Three lanes and twenty-one silent frames. *)
Lemma track_mesh_buffers_witness :
  exists m gridVertices,
    createTrackMesh (generateTrackPath create (repeat quiet 21)) = Return (m, gridVertices)
    /\ surface
         (List.length (trackSegments (generateTrackPath create (repeat quiet 21)))) m
    /\ Z.of_nat (List.length gridVertices)
       = (6 * ((Z.of_nat
                  (List.length (trackSegments (generateTrackPath create (repeat quiet 21))))
                + 4) / 5
               + (3 + 1) * ((Z.of_nat (List.length (repeat quiet 21)) + 9) / 5)))%Z.
Proof.
  apply (track_mesh_buffers create 3 (repeat quiet 21)).
  - reflexivity.
  - lia.
  - right. rewrite repeat_length. lia.
Defined.

(** X23.  For no frame, or for twenty-one or more, [generateTrack] returns.
    It reports one segment for every four frames, the last one possibly
    short, one block for each frame flagged as a block, and a length of
    [segmentLength] for each segment; the generator is left with ten path
    points more than frames and with the blocks counted. *)
Theorem long_track_is_generated this frames random drawn :
  List.length frames = 0%nat \/ (21 <= List.length frames)%nat ->
  exists info track' drawn',
    generateTrack this frames random drawn = Return (info, track', drawn')
    /\ totalSegments info = ((Z.of_nat (List.length frames) + 3) / 4)%Z
    /\ totalBlocks info = Z.of_nat (List.length (filter isBlock frames))
    /\ trackLength info = fin (IZR (totalSegments info) * segmentLength this)
    /\ List.length (trackPath track') = (10 + List.length frames)%nat
    /\ Z.of_nat (List.length (trackSegments track')) = totalSegments info
    /\ Z.of_nat (List.length (blocks track')) = totalBlocks info.
Proof.
  intro Hframes. unfold generateTrack. cbv zeta.
  set (track := generateTrackPath (clearTrack this) frames).
  destruct (createTrackMesh_generated (clearTrack this) frames Hframes)
    as (m & g & Hmesh & _).
  fold track in Hmesh. rewrite Hmesh.
  unfold generateTrackObjects.
  destruct (placeLoop_generated (clearTrack this) frames random frames 0
              {| placedBlocks := []; placedBoxes := []; draws := drawn |})
    as (s' & new & Hloop & Hblocks & _ & _ & Hcolors & _); [lia | lia |].
  fold track in Hloop. rewrite Hloop. cbn [placedBlocks app] in Hblocks.
  destruct (generated_lengths (clearTrack this) frames) as [Hp Hn]. fold track in Hp, Hn.
  do 3 eexists. split; [reflexivity |].
  cbn [totalSegments totalBlocks trackLength trackPath trackSegments blocks set_blocks].
  assert (Hcount : List.length (placedBlocks s') = List.length (filter isBlock frames)).
  { rewrite Hblocks. apply (f_equal (@List.length Z)) in Hcolors.
    now rewrite !length_map in Hcolors. }
  assert (Hsegs : Z.of_nat (List.length (trackSegments track))
                  = ((Z.of_nat (List.length frames) + 3) / 4)%Z).
  { rewrite Hn, Nat2Z.inj_div, Nat2Z.inj_add. reflexivity. }
  repeat split.
  - exact Hsegs.
  - now rewrite Hcount.
  - unfold nmul, lift2, fin. now rewrite INR_IZR_INZ.
  - exact Hp.
Qed.

(** Twenty-one silent frames. *)
Lemma long_track_is_generated_witness :
  exists info track' drawn',
    generateTrack create (repeat quiet 21) fair 0 = Return (info, track', drawn')
    /\ totalSegments info = ((Z.of_nat (List.length (repeat quiet 21)) + 3) / 4)%Z
    /\ totalBlocks info = Z.of_nat (List.length (filter isBlock (repeat quiet 21)))
    /\ trackLength info = fin (IZR (totalSegments info) * segmentLength create)
    /\ List.length (trackPath track') = (10 + List.length (repeat quiet 21))%nat
    /\ Z.of_nat (List.length (trackSegments track')) = totalSegments info
    /\ Z.of_nat (List.length (blocks track')) = totalBlocks info.
Proof.
  apply (long_track_is_generated create (repeat quiet 21) fair 0).
  right. rewrite repeat_length. lia.
Defined.
End Generation.

(** ** The ship on the track *)

Section Ship.
Import RNum THREE TrackGenerator PathSpec TrackSpec CollisionSpec GameEngine GameSpec.
Local Open Scope R_scope.

(** The two queries of [updateShipPosition], inside a generated track that
    holds any blocks. *)
Lemma queries_on_track t frames bs (segment : Z) (laneIndex : num) o :
  (0 <= segment < getTrackLength (generateTrackPath t frames))%Z ->
  0 <= o <= 1 ->
  exists position direction,
    getPositionOnTrack (set_blocks (generateTrackPath t frames) bs)
      (fin (IZR segment)) laneIndex (fin o) = Return position
    /\ getDirectionAtSegment (set_blocks (generateTrackPath t frames) bs)
         (fin (IZR segment)) (fin o) = Return direction.
Proof.
  unfold getTrackLength. intros Hsegment Ho.
  assert (Hk : (Z.to_nat segment
                < List.length (trackSegments (generateTrackPath t frames)))%nat) by lia.
  replace (IZR segment) with (INR (Z.to_nat segment))
    by (rewrite INR_IZR_INZ, Z2Nat.id; [reflexivity | lia]).
  destruct (position_inside t frames _ laneIndex o Hk Ho) as (position & Hposition).
  destruct (direction_inside t frames _ o Hk Ho) as (direction & Hdirection & _).
  exists position, direction. split; [exact Hposition | exact Hdirection].
Qed.

(** X24.  On a generated track, a ship on a segment of the track, at an
    offset from 0 up to 1, that a frame moves by less than one segment:
    [updateShipPosition] finds the ship's position and direction without
    throwing, and leaves the ship on the same segment or the next one, still
    on the track, at an offset from 0 up to 1; the track and the lane are
    untouched. *)
Theorem ship_stays_on_track this t frames bs :
  trackGenerator this = set_blocks (generateTrackPath t frames) bs ->
  (0 <= playerSegment this < getTrackLength (trackGenerator this))%Z ->
  0 <= playerOffset this < 1 ->
  0 <= stride this < 1 ->
  exists this' position direction,
    updateShipPosition this = Return (this', position, direction)
    /\ (playerSegment this <= playerSegment this' <= playerSegment this + 1)%Z
    /\ (playerSegment this' < getTrackLength (trackGenerator this'))%Z
    /\ 0 <= playerOffset this' < 1
    /\ trackGenerator this' = trackGenerator this
    /\ playerLane this' = playerLane this.
Proof.
  intros Htrack Hsegment Hoffset Hstride.
  assert (Hmoved : exists segment o,
            (let playerOffset := playerOffset this + stride this in
             if Rge_dec playerOffset 1 then
               let playerOffset := playerOffset - 1 in
               let playerSegment := (playerSegment this + 1)%Z in
               if (playerSegment >=? getTrackLength (trackGenerator this))%Z
               then ((getTrackLength (trackGenerator this) - 1)%Z, 99 / 100)
               else (playerSegment, playerOffset)
             else (playerSegment this, playerOffset)) = (segment, o)
            /\ (playerSegment this <= segment <= playerSegment this + 1)%Z
            /\ (segment < getTrackLength (trackGenerator this))%Z
            /\ 0 <= o < 1).
  { cbv zeta. destruct (Rge_dec (playerOffset this + stride this) 1) as [Hge | Hlt].
    - destruct (Z.geb_spec (playerSegment this + 1) (getTrackLength (trackGenerator this))).
      + do 2 eexists. split; [reflexivity |]. repeat split; try lia; lra.
      + do 2 eexists. split; [reflexivity |]. repeat split; try lia; lra.
    - do 2 eexists. split; [reflexivity |]. repeat split; try lia; lra. }
  destruct Hmoved as (segment & o & Hmove & Hnear & Hon & Ho).
  unfold updateShipPosition. cbv zeta. unfold stride in Hmove. cbv zeta in Hmove.
  rewrite Hmove.
  destruct (queries_on_track t frames bs segment (fin (IZR (playerLane this))) o)
    as (position & direction & Hposition & Hdirection).
  { rewrite Htrack in Hon, Hsegment. unfold getTrackLength in *.
    cbn [trackSegments set_blocks] in Hon, Hsegment. lia. }
  { lra. }
  rewrite Htrack, Hposition, Hdirection.
  do 3 eexists. split; [reflexivity |].
  cbn [playerSegment playerOffset trackGenerator playerLane set_ship].
  rewrite <- Htrack. repeat split; try lia; try lra.
Qed.

(** The first frame of a game on a track of one frame. *)
Lemma ship_stays_on_track_witness :
  exists this' position direction,
    updateShipPosition (started (set_blocks (generateTrackPath create [quiet]) []))
    = Return (this', position, direction)
    /\ (playerSegment (started (set_blocks (generateTrackPath create [quiet]) []))
        <= playerSegment this'
        <= playerSegment (started (set_blocks (generateTrackPath create [quiet]) [])) + 1)%Z
    /\ (playerSegment this' < getTrackLength (trackGenerator this'))%Z
    /\ 0 <= playerOffset this' < 1
    /\ trackGenerator this'
       = trackGenerator (started (set_blocks (generateTrackPath create [quiet]) []))
    /\ playerLane this'
       = playerLane (started (set_blocks (generateTrackPath create [quiet]) [])).
Proof.
  apply (ship_stays_on_track (started (set_blocks (generateTrackPath create [quiet]) []))
           create [quiet] []).
  - reflexivity.
  - unfold getTrackLength. cbn [trackGenerator started trackSegments set_blocks playerSegment].
    rewrite (proj2 (generated_lengths create [quiet])). cbn. lia.
  - cbn [playerOffset started]. lra.
  - unfold stride, lerp. cbn [playerSpeed targetSpeed deltaTime gameSpeed started]. lra.
Defined.
End Ship.

(** ** Collisions and lanes *)

Section Play.
Import RNum THREE TrackGenerator PathSpec TrackSpec CollisionSpec GameEngine InputHandler
  GameSpec.
Local Open Scope Z_scope.

(** The palette holds each colour once: looking a colour up gives back its
    index. *)
Lemma palette_round_trip (colorIndex : Z) :
  0 <= colorIndex < 6 ->
  indexOf CONFIG.blockColors (paletteColor colorIndex) = colorIndex.
Proof.
  intro H.
  assert (Hcases : colorIndex = 0 \/ colorIndex = 1 \/ colorIndex = 2
                   \/ colorIndex = 3 \/ colorIndex = 4 \/ colorIndex = 5) by lia.
  destruct Hcases as [-> | [-> | [-> | [-> | [-> | ->]]]]]; reflexivity.
Qed.

Lemma firstEligible_unique bs seg lane i j a b :
  firstEligible bs seg lane i a -> firstEligible bs seg lane j b -> i = j /\ a = b.
Proof.
  intros (Ha & Hea & Hbefore_a) (Hb & Heb & Hbefore_b).
  assert (i = j).
  { destruct (Nat.lt_trichotomy i j) as [Hlt | [Heq | Hgt]]; [| exact Heq |].
    - rewrite (Hbefore_b i a Hlt Ha) in Hea. discriminate.
    - rewrite (Hbefore_a j b Hgt Hb) in Heb. discriminate. }
  subst j. split; [reflexivity | congruence].
Qed.

Lemma set_game_same this : set_game this (trackGenerator this) (scoreManager this) = this.
Proof. now destruct this. Qed.

(** X25.  [checkCollisions] changes nothing when no block is within reach
    and uncollected.  Otherwise it collects the first such block and leaves
    the other blocks alone, and, the block having colour [colorIndex] of the
    palette, it hands that index to the score manager's [addBlock]. *)
Theorem collision_scores_block_color this :
  ((forall block, In block (blocks (trackGenerator this)) ->
      eligible block (playerSegment this) (playerLane this) = false) ->
   checkCollisions this = this)
  /\ (forall i block colorIndex,
        firstEligible (blocks (trackGenerator this)) (playerSegment this) (playerLane this)
          i block ->
        color block = paletteColor colorIndex -> 0 <= colorIndex < 6 ->
        checkCollisions this
        = set_game this
            (set_blocks (trackGenerator this)
               (replaced (blocks (trackGenerator this)) i (collect block)))
            (ScoreManager.addBlock (scoreManager this) colorIndex)).
Proof.
  pose proof (collisionScan_spec (playerSegment this) (playerLane this)
                (blocks (trackGenerator this)) 0) as Hscan.
  unfold checkCollisions, checkBlockCollision.
  destruct (collisionScan 0 (blocks (trackGenerator this)) (playerSegment this)
              (playerLane this)) as [[c |] rest].
  - destruct Hscan as (i0 & b0 & _ & Hfirst & Hcolor & _ & ->). split.
    + intro Hnone. destruct Hfirst as (Hnth & Heligible & _).
      apply nth_error_In in Hnth. rewrite (Hnone b0 Hnth) in Heligible. discriminate.
    + intros i block colorIndex Hblock Hpalette Hindex.
      destruct (firstEligible_unique _ _ _ _ _ _ _ Hfirst Hblock) as [-> ->].
      now rewrite Hcolor, Hpalette, palette_round_trip.
  - destruct Hscan as [-> Hnone]. split.
    + intros _. now rewrite set_blocks_same, set_game_same.
    + intros i block colorIndex (Hnth & Heligible & _) _ _.
      rewrite (Hnone i block Hnth) in Heligible. discriminate.
Qed.

Lemma changeLane_bounds this (n direction : Z) :
  lanes (trackGenerator this) = IZR n ->
  0 <= playerLane this < n ->
  0 <= playerLane (changeLane this direction) < n
  /\ trackGenerator (changeLane this direction) = trackGenerator this.
Proof.
  intros Hlanes Hlane. unfold changeLane. cbv zeta.
  destruct (Z.geb_spec (playerLane this + direction) 0) as [Hlow | Hlow]; cbn [andb].
  - unfold nlt, ngt, fin. rewrite Hlanes.
    destruct (Rgt_dec (IZR n) (IZR (playerLane this + direction))) as [Hhigh | Hhigh].
    + apply lt_IZR in Hhigh. cbn [playerLane trackGenerator set_lane].
      split; [lia | reflexivity].
    + split; [exact Hlane | reflexivity].
  - split; [exact Hlane | reflexivity].
Qed.

Lemma press_bounds (n : Z) state p :
  lanes (trackGenerator (snd state)) = IZR n ->
  0 <= playerLane (snd state) < n ->
  0 <= playerLane (snd (press state p)) < n
  /\ trackGenerator (snd (press state p)) = trackGenerator (snd state).
Proof.
  intros Hlanes Hlane. unfold press, handleLaneChange.
  destruct (at_time p - lastLaneChange (fst state) <? laneChangeDelay (fst state));
    [split; [exact Hlane | reflexivity] |].
  cbv zeta. destruct (isPlaying (snd state) && negb (isPaused (snd state))); cbn [snd].
  - now apply changeLane_bounds.
  - split; [exact Hlane | reflexivity].
Qed.

(** X26.  With a whole number of lanes and the ship in one of them, no run
    of key presses or swipes, whenever they come and whatever their
    directions, takes the ship out of the lanes; the track is untouched. *)
Theorem lane_stays_on_track handler this (n : Z) presses :
  lanes (trackGenerator this) = IZR n ->
  0 <= playerLane this < n ->
  0 <= playerLane (snd (pressed handler this presses)) < n
  /\ trackGenerator (snd (pressed handler this presses)) = trackGenerator this.
Proof.
  unfold pressed. intros Hlanes Hlane.
  change this with (snd (handler, this)) in Hlanes, Hlane.
  change (trackGenerator this) with (trackGenerator (snd (handler, this))).
  generalize dependent (handler, this). clear handler this.
  induction presses as [| p presses IH]; intros state Hlanes Hlane; cbn [fold_left].
  - split; [exact Hlane | reflexivity].
  - destruct (press_bounds n state p Hlanes Hlane) as [Hlane' Htrack'].
    destruct (IH (press state p)) as [Hfinal Htrack].
    + now rewrite Htrack'.
    + exact Hlane'.
    + split; [exact Hfinal | now rewrite Htrack, Htrack'].
Qed.

(** Three presses to the same side on three lanes. *)
Lemma lane_stays_on_track_witness :
  0 <= playerLane
         (snd (pressed InputHandler.create (started TrackGenerator.create)
                 [{| at_time := 1000; direction := 1 |};
                  {| at_time := 2000; direction := 1 |};
                  {| at_time := 3000; direction := 1 |}])) < 3
  /\ trackGenerator
       (snd (pressed InputHandler.create (started TrackGenerator.create)
               [{| at_time := 1000; direction := 1 |};
                {| at_time := 2000; direction := 1 |};
                {| at_time := 3000; direction := 1 |}]))
     = trackGenerator (started TrackGenerator.create).
Proof.
  apply (lane_stays_on_track InputHandler.create (started TrackGenerator.create) 3).
  - reflexivity.
  - cbn [playerLane started]. lia.
Defined.

Lemma press_ignored handler gameEngine p :
  at_time p - lastLaneChange handler < laneChangeDelay handler ->
  press (handler, gameEngine) p = (handler, gameEngine).
Proof.
  intro Hsoon. unfold press, handleLaneChange. cbn [fst snd].
  destruct (Z.ltb_spec (at_time p - lastLaneChange handler) (laneChangeDelay handler));
    [reflexivity | lia].
Qed.

(** X27.  A press that comes when the delay since the last one has run out
    is taken; every press of a burst that follows it within the delay is then
    ignored, even when the game is paused or not started and the press that
    was taken moved nothing. *)
Theorem burst_moves_once handler gameEngine (first : Press) (burst : list Press) :
  laneChangeDelay handler <= at_time first - lastLaneChange handler ->
  Forall (fun p => at_time first <= at_time p < at_time first + laneChangeDelay handler)
         burst ->
  pressed handler gameEngine (first :: burst) = press (handler, gameEngine) first
  /\ lastLaneChange (fst (press (handler, gameEngine) first)) = at_time first.
Proof.
  intros Hdue Hburst. unfold pressed. cbn [fold_left].
  assert (Htaken : lastLaneChange (fst (press (handler, gameEngine) first)) = at_time first
                   /\ laneChangeDelay (fst (press (handler, gameEngine) first))
                      = laneChangeDelay handler).
  { unfold press, handleLaneChange. cbn [fst snd].
    destruct (Z.ltb_spec (at_time first - lastLaneChange handler) (laneChangeDelay handler));
      [lia |].
    cbv zeta. destruct (isPlaying gameEngine && negb (isPaused gameEngine));
      split; reflexivity. }
  destruct Htaken as [Hlast Hdelay]. split; [| exact Hlast].
  destruct (press (handler, gameEngine) first) as [handler' gameEngine'].
  cbn [fst] in Hlast, Hdelay.
  induction Hburst as [| p burst Hp _ IH]; cbn [fold_left]; [reflexivity |].
  rewrite press_ignored; [exact IH | lia].
Qed.

(** A double tap, fifty milliseconds apart. *)
Lemma burst_moves_once_witness :
  pressed InputHandler.create (started TrackGenerator.create)
    [{| at_time := 1000; direction := 1 |}; {| at_time := 1050; direction := 1 |}]
  = press (InputHandler.create, started TrackGenerator.create)
      {| at_time := 1000; direction := 1 |}
  /\ lastLaneChange
       (fst (press (InputHandler.create, started TrackGenerator.create)
               {| at_time := 1000; direction := 1 |}))
     = at_time {| at_time := 1000; direction := 1 |}.
Proof.
  apply (burst_moves_once InputHandler.create (started TrackGenerator.create)
           {| at_time := 1000; direction := 1 |} [{| at_time := 1050; direction := 1 |}]).
  - cbn. lia.
  - constructor; [cbn; lia | constructor].
Defined.
End Play.
